(** * Battleship: a shallow embedding of the game engine of App.jsx

    The engine is the JavaScript code of the React component: the fixed
    catalogue [SHIPS], the random placement ([placeShip], [buildBoard]),
    the shot handler ([applyShot], [updateAfterHit], [handleShot]) and the
    effect that raises [gameOver].

    Numbers are integers ([Z]); arrays are lists read by index, and a read
    that JavaScript answers with an exception ([board[r][c].hasShip] where
    the row or the cell does not exist) is an [Err TypeError] here.  The
    placements object is a finite map keyed by the ship id.  [Math.random]
    is a stream [rng : nat -> Z] of numerators over [RAND_DEN], read at a
    cursor that every call advances. *)

From Stdlib Require Import ZArith Lia Bool.
From stdpp Require Import base option list gmap strings sorting.

Open Scope Z_scope.

(** ** The error monad of the engine *)

Inductive error : Type :=
| PlacementFailure (* [throw new Error("No se pudo ubicar el barco ...")] *)
| TypeError        (* a property of [undefined] is read or written *)
| OffGrid.         (* [writeShip] assigns to a column outside its row *)

Inductive result (A : Type) : Type :=
| Ok (a : A)
| Err (e : error).
Arguments Ok {A} a.
Arguments Err {A} e.

Definition bind {A B : Type} (m : result A) (f : A -> result B) : result B :=
  match m with
  | Ok a => f a
  | Err e => Err e
  end.

Notation "'let*' x ':=' m 'in' k" := (bind m (fun x => k))
  (at level 10, x pattern, m at level 100, k at level 200,
   format "'[v' 'let*'  x  ':='  m  'in' '/' k ']'").

(** ** Data model *)

Definition GRID_SIZE : Z := 10.

Record ShipSpec : Type := { id : string; size : Z; name : string }.

Definition SHIPS : list ShipSpec :=
  [ {| id := "A"; size := 5; name := "Portaaviones" |};
    {| id := "B"; size := 4; name := "Acorazado" |};
    {| id := "C"; size := 3; name := "Crucero" |};
    {| id := "D"; size := 3; name := "Submarino" |};
    {| id := "E"; size := 2; name := "Destructor" |} ].

Record Cell : Type :=
  { hasShip : bool; hit : bool; shipId : option string; sunk : bool }.

Abbreviation Board := (list (list Cell)).

Abbreviation Coord := (Z * Z)%type.

Inductive Dir : Type := H | V.

(** [for (let k = 0; k < n; k++)]: the values [k] takes. *)
Definition range (n : Z) : list Z := Z.of_nat <$> seq 0 (Z.to_nat n).

(** [l[i]]: [None] is JavaScript's [undefined]. *)
Definition at_index {A : Type} (l : list A) (i : Z) : option A :=
  if i <? 0 then None else l !! Z.to_nat i.

(** [board[r][c].field]: the read of a field of the cell at [(r, c)]. *)
Definition getCell (board : Board) (r c : Z) : result Cell :=
  match at_index board r with
  | None => Err TypeError
  | Some row =>
      match at_index row c with
      | None => Err TypeError
      | Some cell => Ok cell
      end
  end.

(** The board after the cell at [(r, c)] of the existing row [row] became
    [x]; every other cell is the one it was. *)
Definition putCell (board : Board) (r c : Z) (row : list Cell) (x : Cell)
  : Board :=
  <[Z.to_nat r := <[Z.to_nat c := x]> row]> board.

(** [board[r][c].field = v] on an existing cell: [f] is the field update. *)
Definition updCell (board : Board) (r c : Z) (f : Cell -> Cell) : result Board :=
  match at_index board r with
  | None => Err TypeError
  | Some row =>
      match at_index row c with
      | None => Err TypeError
      | Some cell => Ok (putCell board r c row (f cell))
      end
  end.

Definition emptyCell : Cell :=
  {| hasShip := false; hit := false; shipId := None; sunk := false |}.

Definition createEmptyBoard : Board :=
  replicate (Z.to_nat GRID_SIZE) (replicate (Z.to_nat GRID_SIZE) emptyCell).

(** [{ ...c }] *)
Definition cloneCell (c : Cell) : Cell :=
  {| hasShip := hasShip c; hit := hit c; shipId := shipId c; sunk := sunk c |}.

Definition cloneBoard (board : Board) : Board :=
  map (map cloneCell) board.

(** ** Randomness *)

(** [Math.random()] yields [u / RAND_DEN] with [0 <= u < RAND_DEN].  The
    doubles are idealised as exact rationals: the product with [max] is
    taken without rounding before [Math.floor]. *)
Definition RAND_DEN : Z := 2 ^ 53.

Definition validDraw (u : Z) : Prop := 0 <= u < RAND_DEN.

Definition randomInt (u : Z) (max : Z) : Z := (u * max) / RAND_DEN.

(** [Math.random() < 0.5 ? "H" : "V"] *)
Definition randomDir (u : Z) : Dir := if 2 * u <? RAND_DEN then H else V.

(** ** Placement *)

Definition dirLimits (dir : Dir) (size : Z) : Z * Z :=
  ( match dir with H => GRID_SIZE | V => GRID_SIZE - size + 1 end,
    match dir with V => GRID_SIZE | H => GRID_SIZE - size + 1 end ).

Definition getStep (dir : Dir) (k : Z) : Z * Z :=
  match dir with
  | V => (k, 0)
  | H => (0, k)
  end.

(** The cell the loops of [canPlaceAt] and [writeShip] visit at step [k]. *)
Definition cellAt (r0 c0 : Z) (dir : Dir) (k : Z) : Coord :=
  let '(dr, dc) := getStep dir k in (r0 + dr, c0 + dc).

Fixpoint canPlaceLoop (board : Board) (r0 c0 : Z) (dir : Dir) (ks : list Z)
  : result bool :=
  match ks with
  | [] => Ok true
  | k :: ks' =>
      let '(r, c) := cellAt r0 c0 dir k in
      let* cell := getCell board r c in
      if hasShip cell then Ok false else canPlaceLoop board r0 c0 dir ks'
  end.

Definition canPlaceAt (board : Board) (r0 c0 : Z) (dir : Dir) (size : Z)
  : result bool :=
  canPlaceLoop board r0 c0 dir (range size).

(** [{ ...cell, hasShip: true, shipId: sid }] *)
Definition markShip (sid : string) (cell : Cell) : Cell :=
  {| hasShip := true; hit := hit cell; shipId := Some sid; sunk := sunk cell |}.

(** [board[r][c] = { ...board[r][c], hasShip: true, shipId: ship.id }].
    A missing row raises; a missing column would make JavaScript grow the
    row, which the grid of this model does not represent: it is reported as
    [OffGrid].  [placeShip] never gets there: it writes only where
    [canPlaceAt] has read, see [writeShip_after_canPlaceAt]. *)
Definition writeCell (board : Board) (r c : Z) (sid : string) : result Board :=
  match at_index board r with
  | None => Err TypeError
  | Some row =>
      match at_index row c with
      | None => Err OffGrid
      | Some cell =>
          Ok (putCell board r c row (markShip sid cell))
      end
  end.

Fixpoint writeLoop (board : Board) (r0 c0 : Z) (dir : Dir) (sid : string)
  (ks : list Z) (coords : list Coord) : result (Board * list Coord) :=
  match ks with
  | [] => Ok (board, coords)
  | k :: ks' =>
      let '(r, c) := cellAt r0 c0 dir k in
      let* board' := writeCell board r c sid in
      writeLoop board' r0 c0 dir sid ks' (coords ++ [(r, c)])
  end.

Definition writeShip (board : Board) (r0 c0 : Z) (dir : Dir) (ship : ShipSpec)
  : result (Board * list Coord) :=
  writeLoop board r0 c0 dir (id ship) (range (size ship)) [].

Definition MAX_TRIES : nat := 500.

Section Random.

Variable rng : nat -> Z.

(** The body of [for (let tries = 0; tries < 500; tries++)]; [fuel] is the
    number of iterations left and [pos] the cursor in the random stream. *)
Fixpoint tryPlace (fuel : nat) (board : Board) (ship : ShipSpec) (dir : Dir)
  (maxRow maxCol : Z) (pos : nat) : result (Board * list Coord * nat) :=
  match fuel with
  | O => Err PlacementFailure
  | S fuel' =>
      let r0 := randomInt (rng pos) maxRow in
      let c0 := randomInt (rng (S pos)) maxCol in
      let* free := canPlaceAt board r0 c0 dir (size ship) in
      if free
      then let* (board', coords) := writeShip board r0 c0 dir ship in
           Ok (board', coords, S (S pos))
      else tryPlace fuel' board ship dir maxRow maxCol (S (S pos))
  end.

Definition placeShip (board : Board) (ship : ShipSpec) (pos : nat)
  : result (Board * list Coord * nat) :=
  let dir := randomDir (rng pos) in
  let '(maxRow, maxCol) := dirLimits dir (size ship) in
  tryPlace MAX_TRIES board ship dir maxRow maxCol (S pos).

(** [for (const ship of ships) placements[ship.id] = placeShip(board, ship)] *)
Fixpoint placeShips (ships : list ShipSpec) (board : Board)
  (placements : gmap string (list Coord)) (pos : nat)
  : result (Board * gmap string (list Coord) * nat) :=
  match ships with
  | [] => Ok (board, placements, pos)
  | ship :: ships' =>
      let* (board', coords, pos') := placeShip board ship pos in
      placeShips ships' board' (<[id ship := coords]> placements) pos'
  end.

Definition buildBoard (pos : nat)
  : result (Board * gmap string (list Coord) * nat) :=
  placeShips SHIPS createEmptyBoard ∅ pos.

End Random.

(** ** Ship cells and sinking *)

(** [cell.shipId === shipId] *)
Definition sameId (a b : option string) : bool := bool_decide (a = b).

(** [!shipId]: [null] and the empty string are falsy. *)
Definition falsy (sid : option string) : bool :=
  match sid with
  | None => true
  | Some s => bool_decide (s = "")
  end.

Fixpoint scanRow (board : Board) (sid : option string) (r : Z) (cs : list Z)
  (cells : list Coord) : result (list Coord) :=
  match cs with
  | [] => Ok cells
  | c :: cs' =>
      let* cell := getCell board r c in
      scanRow board sid r cs'
        (if sameId (shipId cell) sid then cells ++ [(r, c)] else cells)
  end.

Fixpoint scanRows (board : Board) (sid : option string) (rs : list Z)
  (cells : list Coord) : result (list Coord) :=
  match rs with
  | [] => Ok cells
  | r :: rs' =>
      let* cells' := scanRow board sid r (range GRID_SIZE) cells in
      scanRows board sid rs' cells'
  end.

Definition getShipCells (board : Board) (sid : option string)
  : result (list Coord) :=
  scanRows board sid (range GRID_SIZE) [].

(** [cells.every(({ r, c }) => board[r][c].hit)] *)
Fixpoint everyHit (board : Board) (cells : list Coord) : result bool :=
  match cells with
  | [] => Ok true
  | (r, c) :: cells' =>
      let* cell := getCell board r c in
      if hit cell then everyHit board cells' else Ok false
  end.

Definition isShipSunk (board : Board) (sid : option string) : result bool :=
  let* cells := getShipCells board sid in
  everyHit board cells.

Definition setHit (c : Cell) : Cell :=
  {| hasShip := hasShip c; hit := true; shipId := shipId c; sunk := sunk c |}.

Definition setSunk (c : Cell) : Cell :=
  {| hasShip := hasShip c; hit := hit c; shipId := shipId c; sunk := true |}.

Fixpoint sinkCells (board : Board) (cells : list Coord) : result Board :=
  match cells with
  | [] => Ok board
  | (r, c) :: cells' =>
      let* board' := updCell board r c setSunk in
      sinkCells board' cells'
  end.

Definition markShipSunk (nextBoard : Board) (sid : option string)
  : result Board :=
  let* cells := getShipCells nextBoard sid in
  sinkCells nextBoard cells.

(** ** The component state and its handlers *)

Record AppState : Type :=
  { st_board : Board;
    st_placements : gmap string (list Coord);
    st_shots : Z;
    st_hits : Z;
    st_sunk : Z;
    st_gameOver : bool;
    st_reveal : bool }.

(** [ships.reduce((acc, s) => acc + s.size, 0)] *)
Definition totalCells (ships : list ShipSpec) : Z :=
  fold_left (fun acc s => acc + size s) ships 0.

Definition totalShipCells : Z := totalCells SHIPS.

(** The object [applyShot] returns: [{ changed: false, board }] or
    [{ changed: true, board: next, wasHit, shipId }]. *)
Inductive ShotResult : Type :=
| Unchanged (board : Board)
| Changed (next : Board) (wasHit : bool) (sid : option string).

Definition changed (res : ShotResult) : bool :=
  match res with
  | Unchanged _ => false
  | Changed _ _ _ => true
  end.

Definition applyShot (st : AppState) (r c : Z) : result ShotResult :=
  if st_gameOver st then Ok (Unchanged (st_board st))
  else
    let* cell := getCell (st_board st) r c in
    if hit cell then Ok (Unchanged (st_board st))
    else
      let* next := updCell (cloneBoard (st_board st)) r c setHit in
      let wasHit := hasShip cell in
      let* cell' := getCell next r c in
      Ok (Changed next wasHit (shipId cell')).

(** Returns the board after the marking, the new value of the [sunk]
    counter and the boolean the source function returns. *)
Definition updateAfterHit (sunkCount : Z) (nextBoard : Board)
  (sid : option string) : result (Board * Z * bool) :=
  if falsy sid then Ok (nextBoard, sunkCount, false)
  else
    let* isSunk := isShipSunk nextBoard sid in
    if negb isSunk then Ok (nextBoard, sunkCount, false)
    else
      let* marked := markShipSunk nextBoard sid in
      Ok (marked, sunkCount + 1, true).

Definition handleShot (st : AppState) (r c : Z) : result AppState :=
  let* res := applyShot st r c in
  match res with
  | Unchanged _ => Ok st
  | Changed nextBoard wasHit sid =>
      let shots' := st_shots st + 1 in
      let hits' := if wasHit then st_hits st + 1 else st_hits st in
      let* (nextBoard', sunk', _) :=
        (if wasHit then updateAfterHit (st_sunk st) nextBoard sid
         else Ok (nextBoard, st_sunk st, false)) in
      Ok {| st_board := nextBoard';
            st_placements := st_placements st;
            st_shots := shots';
            st_hits := hits';
            st_sunk := sunk';
            st_gameOver := st_gameOver st;
            st_reveal := st_reveal st |}
  end.

(** The effect on [[hits, totalShipCells]], parametrised by the total. *)
Definition gameOverEffectWith (total : Z) (st : AppState) : AppState :=
  if total =? 0 then st
  else if st_hits st <? total then st
  else {| st_board := st_board st;
          st_placements := st_placements st;
          st_shots := st_shots st;
          st_hits := st_hits st;
          st_sunk := st_sunk st;
          st_gameOver := true;
          st_reveal := st_reveal st |}.

Definition gameOverEffect : AppState -> AppState :=
  gameOverEffectWith totalShipCells.

(** The same effect as src/App.jsx writes it:
    [if (hits >= totalShipCells && totalShipCells > 0) setGameOver(true)]. *)
Definition gameOverEffectApp (st : AppState) : AppState :=
  if (totalShipCells <=? st_hits st) && (0 <? totalShipCells)
  then {| st_board := st_board st;
          st_placements := st_placements st;
          st_shots := st_shots st;
          st_hits := st_hits st;
          st_sunk := st_sunk st;
          st_gameOver := true;
          st_reveal := st_reveal st |}
  else st.

Definition freshState (board : Board) (placements : gmap string (list Coord))
  : AppState :=
  {| st_board := board;
     st_placements := placements;
     st_shots := 0;
     st_hits := 0;
     st_sunk := 0;
     st_gameOver := false;
     st_reveal := false |}.

Section Session.

Variable rng : nat -> Z.

(** The initial [useState] values; the exception of [buildBoard] is not
    caught. *)
Definition newGame (pos : nat) : result (AppState * nat) :=
  let* (board, placements, pos') := buildBoard rng pos in
  Ok (freshState board placements, pos').

(** [resetGame] does not read the previous state. *)
Definition resetGame (pos : nat) : result (AppState * nat) :=
  let* (board, placements, pos') := buildBoard rng pos in
  Ok (freshState board placements, pos').

End Session.

(** One click: the handler, then the render and its effect. *)
Definition shoot (st : AppState) (rc : Coord) : result AppState :=
  let* st' := handleShot st (fst rc) (snd rc) in
  Ok (gameOverEffect st').

(** A sequence of clicks with no reset in between. *)
Fixpoint run (st : AppState) (shots : list Coord) : result AppState :=
  match shots with
  | [] => Ok st
  | rc :: shots' =>
      let* st' := shoot st rc in
      run st' shots'
  end.

(** ** The rendering of a cell *)

(** The class list of the button of a cell: [["cell"]], then ["miss"],
    ["hit"], ["sunk"] and ["reveal"] pushed under their conditions. *)
Definition cellClasses (reveal : bool) (cell : Cell) : list string :=
  let classes := ["cell"] in
  let classes :=
    if hit cell && negb (hasShip cell) then classes ++ ["miss"] else classes in
  let classes :=
    if hit cell && hasShip cell then classes ++ ["hit"] else classes in
  let classes := if sunk cell then classes ++ ["sunk"] else classes in
  let classes :=
    if reveal && hasShip cell && negb (hit cell) then classes ++ ["reveal"]
    else classes in
  classes.

(** [classes.join(" ")] *)
Definition className (reveal : bool) (cell : Cell) : string :=
  String.concat " " (cellClasses reveal cell).

(** [board.map((row, r) => row.map((cell, c) => ...))]: the class names of
    the buttons, row by row. *)
Definition renderBoard (reveal : bool) (board : Board) : list (list string) :=
  map (map (className reveal)) board.

(** [setReveal(e.target.checked)] *)
Definition setReveal (st : AppState) (checked : bool) : AppState :=
  {| st_board := st_board st;
     st_placements := st_placements st;
     st_shots := st_shots st;
     st_hits := st_hits st;
     st_sunk := st_sunk st;
     st_gameOver := st_gameOver st;
     st_reveal := checked |}.

(** ** The first version of the component, src/App.jsx *)

Module AppV1.

Section Random.

Variable rng : nat -> Z.

(** The loop that sets [free], with its [break]. *)
Fixpoint freeLoop (board : Board) (r0 c0 : Z) (dir : Dir) (ks : list Z)
  : result bool :=
  match ks with
  | [] => Ok true
  | k :: ks' =>
      let r := r0 + (match dir with V => k | H => 0 end) in
      let c := c0 + (match dir with H => k | V => 0 end) in
      let* cell := getCell board r c in
      if hasShip cell then Ok false else freeLoop board r0 c0 dir ks'
  end.

(** The loop that writes the ship. *)
Fixpoint placeLoop (board : Board) (r0 c0 : Z) (dir : Dir) (sid : string)
  (ks : list Z) : result Board :=
  match ks with
  | [] => Ok board
  | k :: ks' =>
      let r := r0 + (match dir with V => k | H => 0 end) in
      let c := c0 + (match dir with H => k | V => 0 end) in
      let* board' := writeCell board r c sid in
      placeLoop board' r0 c0 dir sid ks'
  end.

Fixpoint tryPlace (fuel : nat) (board : Board) (ship : ShipSpec) (dir : Dir)
  (maxRow maxCol : Z) (pos : nat) : result (Board * list Coord * nat) :=
  match fuel with
  | O => Err PlacementFailure
  | S fuel' =>
      let r0 := (rng pos * maxRow) / RAND_DEN in
      let c0 := (rng (S pos) * maxCol) / RAND_DEN in
      let* free := freeLoop board r0 c0 dir (range (size ship)) in
      if negb free
      then tryPlace fuel' board ship dir maxRow maxCol (S (S pos))
      else
        let* board' := placeLoop board r0 c0 dir (id ship) (range (size ship)) in
        let coords :=
          map (fun k => (r0 + (match dir with V => k | H => 0 end),
                         c0 + (match dir with H => k | V => 0 end)))
            (range (size ship)) in
        Ok (board', coords, S (S pos))
  end.

Definition placeShip (board : Board) (ship : ShipSpec) (pos : nat)
  : result (Board * list Coord * nat) :=
  let dir := if 2 * rng pos <? RAND_DEN then H else V in
  let maxRow := match dir with H => GRID_SIZE | V => GRID_SIZE - size ship + 1 end in
  let maxCol := match dir with V => GRID_SIZE | H => GRID_SIZE - size ship + 1 end in
  tryPlace MAX_TRIES board ship dir maxRow maxCol (S pos).

Fixpoint placeShips (ships : list ShipSpec) (board : Board)
  (placements : gmap string (list Coord)) (pos : nat)
  : result (Board * gmap string (list Coord) * nat) :=
  match ships with
  | [] => Ok (board, placements, pos)
  | ship :: ships' =>
      let* (board', coords, pos') := placeShip board ship pos in
      placeShips ships' board' (<[id ship := coords]> placements) pos'
  end.

Definition buildBoard (pos : nat)
  : result (Board * gmap string (list Coord) * nat) :=
  placeShips SHIPS createEmptyBoard ∅ pos.

(** [useState(() => buildBoard().board)] and then
    [useState(() => buildBoard().placements)]: two generations. *)
Definition newGame (pos : nat) : result (AppState * nat) :=
  let* (board, _, pos1) := buildBoard pos in
  let* (_, placements, pos2) := buildBoard pos1 in
  Ok (freshState board placements, pos2).

Definition resetGame (pos : nat) : result (AppState * nat) :=
  let* (b, p, pos') := buildBoard pos in
  Ok (freshState b p, pos').

End Random.

(** The first pair of loops of [markSunkIfApplies]: [allHit], with the
    [break] of the inner loop and the one of the outer loop. *)
Fixpoint rowAllHit (board : Board) (sid : option string) (r : Z)
  (cs : list Z) : result bool :=
  match cs with
  | [] => Ok true
  | c :: cs' =>
      let* cell := getCell board r c in
      if sameId (shipId cell) sid && negb (hit cell) then Ok false
      else rowAllHit board sid r cs'
  end.

Fixpoint rowsAllHit (board : Board) (sid : option string) (rs : list Z)
  : result bool :=
  match rs with
  | [] => Ok true
  | r :: rs' =>
      let* allHit := rowAllHit board sid r (range GRID_SIZE) in
      if negb allHit then Ok false else rowsAllHit board sid rs'
  end.

(** The second pair of loops: [nextBoard[r][c].sunk = true] on the cells of
    the ship. *)
Fixpoint markRow (board : Board) (sid : option string) (r : Z) (cs : list Z)
  : result Board :=
  match cs with
  | [] => Ok board
  | c :: cs' =>
      let* cell := getCell board r c in
      if sameId (shipId cell) sid
      then let* board' := updCell board r c setSunk in
           markRow board' sid r cs'
      else markRow board sid r cs'
  end.

Fixpoint markRows (board : Board) (sid : option string) (rs : list Z)
  : result Board :=
  match rs with
  | [] => Ok board
  | r :: rs' =>
      let* board' := markRow board sid r (range GRID_SIZE) in
      markRows board' sid rs'
  end.

(** Returns the board and the new value of the [sunk] counter. *)
Definition markSunkIfApplies (sunkCount : Z) (nextBoard : Board)
  (sid : option string) : result (Board * Z) :=
  let* allHit := rowsAllHit nextBoard sid (range GRID_SIZE) in
  if allHit
  then let* marked := markRows nextBoard sid (range GRID_SIZE) in
       Ok (marked, sunkCount + 1)
  else Ok (nextBoard, sunkCount).

Definition handleShot (st : AppState) (r c : Z) : result AppState :=
  if st_gameOver st then Ok st
  else
    let prev := st_board st in
    let* cell := getCell prev r c in
    if hit cell then Ok st
    else
      let* next := updCell (map (map cloneCell) prev) r c setHit in
      let shots' := st_shots st + 1 in
      let* (next', hits', sunk') :=
        (if hasShip cell
         then let* (marked, sunk') :=
                markSunkIfApplies (st_sunk st) next (shipId cell) in
              Ok (marked, st_hits st + 1, sunk')
         else Ok (next, st_hits st, st_sunk st)) in
      Ok {| st_board := next';
            st_placements := st_placements st;
            st_shots := shots';
            st_hits := hits';
            st_sunk := sunk';
            st_gameOver := st_gameOver st;
            st_reveal := st_reveal st |}.

End AppV1.

(** ** Concrete games used as examples *)

(** A random stream that replays [draws] and then repeats [0]. *)
Definition replay (draws : list Z) : nat -> Z := fun i => nth i draws 0.

(** Horizontal ships in rows 0, 1, 2, 3 and 5, all starting in column 0. *)
Definition demoDraws : list Z :=
  [ 0; 0; 0;
    0; 1 * 2 ^ 50; 0;
    0; 2 * 2 ^ 50; 0;
    0; 3 * 2 ^ 50; 0;
    0; 4 * 2 ^ 50; 0 ].

Definition demoShots : list Coord :=
  [ (0, 0); (0, 1); (0, 2); (0, 3); (0, 4);
    (1, 0); (1, 1); (1, 2); (1, 3);
    (2, 0); (2, 1); (2, 2);
    (3, 0); (3, 1); (3, 2);
    (5, 0); (5, 1) ].

Definition demoGame : result AppState :=
  let* (st, _) := newGame (replay demoDraws) 0 in
  Ok (gameOverEffect st).

(** A random stream that always draws [0]. *)
Definition zeroRng : nat -> Z := fun _ => 0.

(** The states the component goes through: the first render, then clicks on
    cells and on the reset button; the effect runs after each of them. *)
Inductive reachable (rng : nat -> Z) : AppState -> Prop :=
| reach_new (pos : nat) (st : AppState) (pos' : nat) :
    newGame rng pos = Ok (st, pos') ->
    reachable rng (gameOverEffect st)
| reach_shot (st : AppState) (r c : Z) (st' : AppState) :
    reachable rng st ->
    handleShot st r c = Ok st' ->
    reachable rng (gameOverEffect st')
| reach_reset (st : AppState) (pos : nat) (st' : AppState) (pos' : nat) :
    reachable rng st ->
    resetGame rng pos = Ok (st', pos') ->
    reachable rng (gameOverEffect st').

(** The demonstration game after all its shots. *)
Definition demoFinal : result AppState :=
  let* st := demoGame in
  run st demoShots.

(** The scenario of the specification: on an empty board, one ship of size 3
    laid horizontally at row 4 from column 2. *)
Definition scenarioShip : ShipSpec :=
  {| id := "C"; size := 3; name := "Crucero" |}.

Definition scenarioBoard : result (Board * list Coord) :=
  writeShip createEmptyBoard 4 2 H scenarioShip.

(** The [sunk] counter and the [sunk] flags of the three cells after the
    given shots on the scenario board. *)
Definition scenarioAfter (shots : list Coord) : result (Z * list bool) :=
  let* (board, coords) := scenarioBoard in
  let* st := run (freshState board ∅) shots in
  let* x1 := getCell (st_board st) 4 2 in
  let* x2 := getCell (st_board st) 4 3 in
  let* x3 := getCell (st_board st) 4 4 in
  Ok (st_sunk st, [sunk x1; sunk x2; sunk x3]).

(** Draws for two generations in a row: the rows of [demoDraws], then
    vertical ships in columns 0, 1, 2, 3 and 5, all starting in row 0. *)
Definition twoBoardsDraws : list Z :=
  demoDraws ++
  [ 2 ^ 52; 0; 0;
    2 ^ 52; 0; 1 * 2 ^ 50;
    2 ^ 52; 0; 2 * 2 ^ 50;
    2 ^ 52; 0; 3 * 2 ^ 50;
    2 ^ 52; 0; 4 * 2 ^ 50 ].

(** ** Predicates of the statements *)

(** The shape of a board: the lengths of its rows. *)
Definition shape (board : Board) : list nat := length <$> board.

Definition wfBoard (board : Board) : Prop :=
  shape board = replicate (Z.to_nat GRID_SIZE) (Z.to_nat GRID_SIZE).

(** [board'] has the shape of [board] and its cells, except that [f] was
    applied to the cells listed in [cs]. *)
Definition updatedAt (cs : list Coord) (f : Cell -> Cell)
  (board board' : Board) : Prop :=
  shape board' = shape board /\
  forall r c cell, getCell board r c = Ok cell ->
    getCell board' r c = Ok (if decide ((r, c) ∈ cs) then f cell else cell).

(** The cells a ship of length [n] laid from [(r0, c0)] in direction [dir]
    occupies, in order. *)
Definition line (r0 c0 : Z) (dir : Dir) (n : Z) : list Coord :=
  cellAt r0 c0 dir <$> range n.

(** The sum of [v] over the cells of the board. *)
Definition countWith (v : Cell -> nat) (board : Board) : nat :=
  sum_list_with (sum_list_with v) board.

Definition shipValue (c : Cell) : nat := if hasShip c then 1%nat else 0%nat.

Definition hitValue (c : Cell) : nat :=
  if hasShip c && hit c then 1%nat else 0%nat.

(** Number of cells with [hasShip] set. *)
Definition countShips (board : Board) : nat := countWith shipValue board.

(** Number of ship cells that were hit. *)
Definition countHits (board : Board) : nat := countWith hitValue board.

(** The cell at [rc] is there and carries no ship. *)
Definition freeAt (board : Board) (rc : Coord) : Prop :=
  exists cell, getCell board rc.1 rc.2 = Ok cell /\ hasShip cell = false.

(** Every recorded placement lies on cells of the board that carry the
    ship and its id. *)
Definition placedOn (board : Board) (placements : gmap string (list Coord))
  : Prop :=
  forall sid coords, placements !! sid = Some coords ->
  forall rc, rc ∈ coords ->
  exists cell, getCell board rc.1 rc.2 = Ok cell /\
               hasShip cell = true /\ shipId cell = Some sid.

(** Consecutive cells of one row (horizontal) or of one column (vertical),
    starting at some origin, with no gap. *)
Definition contiguous (coords : list Coord) : Prop :=
  exists r0 c0,
    (forall k : nat, (k < length coords)%nat ->
                     coords !! k = Some (r0, c0 + Z.of_nat k)) \/
    (forall k : nat, (k < length coords)%nat ->
                     coords !! k = Some (r0 + Z.of_nat k, c0)).

(** The sizes of a catalogue, added up. *)
Definition fleetSize (ships : list ShipSpec) : nat :=
  sum_list_with (fun s => Z.to_nat (size s)) ships.

(** Every cell of the board that carries the id [sid] is hit. *)
Definition allHit (board : Board) (sid : option string) : Prop :=
  forall r c cell, getCell board r c = Ok cell -> shipId cell = sid ->
                   hit cell = true.

(** Every cell of the board that carries the id [sid] is marked sunk. *)
Definition allSunk (board : Board) (sid : option string) : Prop :=
  forall r c cell, getCell board r c = Ok cell -> shipId cell = sid ->
                   sunk cell = true.

(** What an accepted shot at [target], whose cell was [tcell], makes of the
    cell [x] at [rc], when the shot did ([justSunk]) or did not sink the
    ship of [tcell]. *)
Definition shotCell (target : Coord) (tcell : Cell) (justSunk : bool)
  (rc : Coord) (x : Cell) : Cell :=
  {| hasShip := hasShip x;
     hit := if decide (rc = target) then true else hit x;
     shipId := shipId x;
     sunk := if justSunk && sameId (shipId x) (shipId tcell) then true
             else sunk x |}.

(** [hasShip] is set exactly when [shipId] is not [null]. *)
Definition cellInv (x : Cell) : Prop := hasShip x = true <-> shipId x <> None.

Definition boardInv (board : Board) : Prop :=
  forall r c x, getCell board r c = Ok x -> cellInv x.

(** [x'] is a later state of the cell [x] of one game: the ship it carries is
    the same and the flags [hit] and [sunk] did not go back. *)
Definition cellLe (x x' : Cell) : Prop :=
  hasShip x' = hasShip x /\ shipId x' = shipId x /\
  (hit x = true -> hit x' = true) /\ (sunk x = true -> sunk x' = true).

(** [st'] is a later state of the game of [st]. *)
Definition stateLe (st st' : AppState) : Prop :=
  st_shots st <= st_shots st' /\
  st_hits st <= st_hits st' /\
  st_sunk st <= st_sunk st' /\
  (st_gameOver st = true -> st_gameOver st' = true) /\
  shape (st_board st') = shape (st_board st) /\
  forall r c x, getCell (st_board st) r c = Ok x ->
    exists x', getCell (st_board st') r c = Ok x' /\ cellLe x x'.

(** What holds of the board all along a game: it is the 10x10 grid; a cell
    with a ship carries a non-empty id and a cell without one carries none;
    and a cell is marked sunk exactly when it has a ship all of whose cells
    are hit. *)
Definition gameInv (board : Board) : Prop :=
  wfBoard board /\
  forall r c x, getCell board r c = Ok x ->
    (hasShip x = true -> falsy (shipId x) = false) /\
    (hasShip x = false -> shipId x = None) /\
    (sunk x = true <-> hasShip x = true /\ allHit board (shipId x)).

(** What holds of the component state all along a game: the board invariant,
    the 17 ship cells, the [hits] counter counting the ship cells that are
    hit, and [gameOver] set exactly at 17 hits. *)
Definition sessionInv (st : AppState) : Prop :=
  gameInv (st_board st) /\
  countShips (st_board st) = 17%nat /\
  Z.of_nat (countHits (st_board st)) = st_hits st /\
  (st_gameOver st = true <-> st_hits st = 17).

(** Whether every cell of the board that carries the id [sid] is hit. *)
Definition allHitB (board : Board) (sid : option string) : bool :=
  forallb (forallb (fun x : Cell => negb (sameId (shipId x) sid) || hit x))
    board.

(** Number of ships of the catalogue all of whose cells are hit. *)
Definition sunkShips (board : Board) : nat :=
  sum_list_with
    (fun s : ShipSpec => if allHitB board (Some (id s)) then 1%nat else 0%nat)
    SHIPS.

Definition shotValue (c : Cell) : nat := if hit c then 1%nat else 0%nat.

(** Number of cells that were shot. *)
Definition countShots (board : Board) : nat := countWith shotValue board.

(** The coordinates of the grid in the order [getShipCells] scans them. *)
Definition gridCoords (rs : list Z) : list Coord :=
  r ← rs; (fun c => (r, c)) <$> range GRID_SIZE.

(** Row after row, and from left to right in a row. *)
Definition scanLt (a b : Coord) : Prop :=
  a.1 < b.1 \/ (a.1 = b.1 /\ a.2 < b.2).

(** The placements are those of the board: every ship of the catalogue has
    an entry, a line of its size, which holds exactly the coordinates of the
    cells that carry its id. *)
Definition placementsAgree (board : Board)
  (placements : gmap string (list Coord)) : Prop :=
  forall ship, ship ∈ SHIPS ->
  exists r0 c0 dir,
    placements !! id ship = Some (line r0 c0 dir (size ship)) /\
    forall r c, (r, c) ∈ line r0 c0 dir (size ship) <->
                exists x, getCell board r c = Ok x /\
                          shipId x = Some (id ship).

(** Every cell with a ship carries the id of a ship of the catalogue. *)
Definition fleetIds (board : Board) : Prop :=
  forall r c x, getCell board r c = Ok x -> hasShip x = true ->
  exists ship, ship ∈ SHIPS /\ shipId x = Some (id ship).

(** Every cell that carries an id lies in the placement recorded under that
    id. *)
Definition ownedBy (board : Board) (placements : gmap string (list Coord))
  : Prop :=
  forall r c x sid, getCell board r c = Ok x -> shipId x = Some sid ->
  exists coords, placements !! sid = Some coords /\ (r, c) ∈ coords.

(** Whether the cell at [rc] is on the board and carries the id [sid]. *)
Definition hasId (board : Board) (sid : option string) (rc : Coord) : bool :=
  match getCell board rc.1 rc.2 with
  | Ok x => sameId (shipId x) sid
  | Err _ => false
  end.

(** The counters [sunk] and [shots] count what is on the board: the ships
    all of whose cells are hit, and the cells that were shot. *)
Definition countInv (st : AppState) : Prop :=
  st_sunk st = Z.of_nat (sunkShips (st_board st)) /\
  st_shots st = Z.of_nat (countShots (st_board st)).

(** * Properties *)

(** ** The error monad *)

Lemma bind_Ok {A B : Type} (m : result A) (f : A -> result B) (b : B) :
  bind m f = Ok b <-> exists a, m = Ok a /\ f a = Ok b.
Proof.
  destruct m as [a|e]; simpl; split.
  - intros Hf. exists a. split; [reflexivity | exact Hf].
  - intros (a' & Ha & Hf). injection Ha as ->. exact Hf.
  - discriminate.
  - intros (a' & Ha & _). discriminate.
Qed.

Lemma bind_Err {A B : Type} (m : result A) (f : A -> result B) (e : error) :
  bind m f = Err e <-> m = Err e \/ exists a, m = Ok a /\ f a = Err e.
Proof.
  destruct m as [a|e']; simpl; split.
  - intros Hf. right. exists a. split; [reflexivity | exact Hf].
  - intros [Hm | (a' & Ha & Hf)]; [discriminate | ].
    injection Ha as ->. exact Hf.
  - intros [= ->]. left. reflexivity.
  - intros [[= ->] | (a' & Ha & _)]; [reflexivity | discriminate].
Qed.

(** ** Indexing *)

Lemma at_index_Some {A : Type} (l : list A) (i : Z) (x : A) :
  at_index l i = Some x <-> 0 <= i /\ l !! Z.to_nat i = Some x.
Proof.
  unfold at_index. destruct (Z.ltb_spec i 0); split.
  - discriminate.
  - intros [Hi _]. lia.
  - intros Hl. split; [lia | exact Hl].
  - intros [_ Hl]. exact Hl.
Qed.

Lemma at_index_lt {A : Type} (l : list A) (i : Z) (x : A) :
  at_index l i = Some x -> 0 <= i < Z.of_nat (length l).
Proof.
  intros [Hi Hl]%at_index_Some. apply lookup_lt_Some in Hl. lia.
Qed.

Lemma at_index_is_Some {A : Type} (l : list A) (i : Z) :
  0 <= i < Z.of_nat (length l) -> exists x, at_index l i = Some x.
Proof.
  intros Hi. destruct (lookup_lt_is_Some_2 l (Z.to_nat i)) as [x Hx]; [lia|].
  exists x. apply at_index_Some. split; [lia | exact Hx].
Qed.

Lemma getCell_Ok (board : Board) (r c : Z) (cell : Cell) :
  getCell board r c = Ok cell <->
  exists row, at_index board r = Some row /\ at_index row c = Some cell.
Proof.
  unfold getCell. split.
  - destruct (at_index board r) as [row|]; [|discriminate].
    destruct (at_index row c) as [x|] eqn:Hc; [|discriminate].
    intros [= ->]. exists row. split; [reflexivity | exact Hc].
  - intros (row & -> & ->). reflexivity.
Qed.

Lemma getCell_Err (board : Board) (r c : Z) (e : error) :
  getCell board r c = Err e -> e = TypeError.
Proof.
  unfold getCell. destruct (at_index board r) as [row|]; [|congruence].
  destruct (at_index row c); congruence.
Qed.

Lemma shape_at_index (b1 b2 : Board) (r : Z) (row : list Cell) :
  shape b1 = shape b2 -> at_index b1 r = Some row ->
  exists row', at_index b2 r = Some row' /\ length row' = length row.
Proof.
  unfold shape. intros Hs [Hr Hrow]%at_index_Some.
  assert (Hl : (length <$> b2) !! Z.to_nat r = Some (length row)).
  { rewrite <- Hs, list_lookup_fmap, Hrow. reflexivity. }
  rewrite list_lookup_fmap in Hl.
  destruct (b2 !! Z.to_nat r) as [row'|] eqn:Hrow'; [|discriminate].
  injection Hl as Hl. exists row'. split; [|exact Hl].
  apply at_index_Some. split; [exact Hr | exact Hrow'].
Qed.

(** Boards of the same shape answer the same reads with a cell. *)
Lemma shape_getCell (b1 b2 : Board) (r c : Z) (cell : Cell) :
  shape b1 = shape b2 -> getCell b1 r c = Ok cell ->
  exists cell', getCell b2 r c = Ok cell'.
Proof.
  intros Hs (row & Hrow & Hc)%getCell_Ok.
  destruct (shape_at_index b1 b2 r row Hs Hrow) as (row' & Hrow' & Hlen).
  apply at_index_lt in Hc. rewrite <- Hlen in Hc.
  destruct (at_index_is_Some row' c Hc) as [cell' Hcell'].
  exists cell'. apply getCell_Ok. exists row'. split; assumption.
Qed.

Lemma wfBoard_getCell (board : Board) (r c : Z) :
  wfBoard board ->
  (0 <= r < GRID_SIZE /\ 0 <= c < GRID_SIZE) <->
  exists cell, getCell board r c = Ok cell.
Proof.
  unfold wfBoard, shape. intros Hwf. split.
  - intros [Hr Hc].
    assert (Hlen : length board = Z.to_nat GRID_SIZE).
    { rewrite <- (length_fmap length board), Hwf. apply length_replicate. }
    destruct (at_index_is_Some board r) as [row Hrow]; [lia|].
    assert (Hrl : length row = Z.to_nat GRID_SIZE).
    { apply at_index_Some in Hrow as [_ Hrow].
      assert (Hl : (length <$> board) !! Z.to_nat r = Some (length row)).
      { rewrite list_lookup_fmap, Hrow. reflexivity. }
      rewrite Hwf in Hl. apply lookup_replicate in Hl as [Hl _]. exact Hl. }
    destruct (at_index_is_Some row c) as [cell Hcell]; [lia|].
    exists cell. apply getCell_Ok. exists row. split; assumption.
  - intros (cell & (row & Hrow & Hcell)%getCell_Ok).
    assert (Hlen : length board = Z.to_nat GRID_SIZE).
    { rewrite <- (length_fmap length board), Hwf. apply length_replicate. }
    assert (Hrl : length row = Z.to_nat GRID_SIZE).
    { apply at_index_Some in Hrow as [_ Hrow].
      assert (Hl : (length <$> board) !! Z.to_nat r = Some (length row)).
      { rewrite list_lookup_fmap, Hrow. reflexivity. }
      rewrite Hwf in Hl. apply lookup_replicate in Hl as [Hl _]. exact Hl. }
    apply at_index_lt in Hrow, Hcell. lia.
Qed.

Lemma putCell_shape (board : Board) (r c : Z) (row : list Cell) (x : Cell) :
  at_index board r = Some row -> shape (putCell board r c row x) = shape board.
Proof.
  unfold shape, putCell. intros [_ Hrow]%at_index_Some.
  rewrite list_fmap_insert, length_insert.
  apply list_insert_id. rewrite list_lookup_fmap, Hrow. reflexivity.
Qed.

Lemma getCell_putCell (board : Board) (r c : Z) (row : list Cell)
  (old x : Cell) (r' c' : Z) :
  at_index board r = Some row -> at_index row c = Some old ->
  getCell (putCell board r c row x) r' c' =
  if decide ((r', c') = (r, c)) then Ok x else getCell board r' c'.
Proof.
  intros Hrow Hc.
  pose proof (at_index_lt _ _ _ Hrow) as Hrl.
  pose proof (at_index_lt _ _ _ Hc) as Hcl.
  apply at_index_Some in Hrow as [Hr Hrow], Hc as [Hc0 Hc].
  unfold getCell, putCell, at_index.
  destruct (Z.ltb_spec r' 0) as [Hr'|Hr'].
  { rewrite decide_False; [reflexivity | intros [= -> _]; lia]. }
  destruct (decide (Z.to_nat r' = Z.to_nat r)) as [Her|Her].
  - assert (r' = r) as -> by lia.
    rewrite list_lookup_insert_eq by lia. rewrite Hrow.
    destruct (Z.ltb_spec c' 0) as [Hc'|Hc'].
    { rewrite decide_False; [reflexivity | intros [= ->]; lia]. }
    destruct (decide (Z.to_nat c' = Z.to_nat c)) as [Hec|Hec].
    + assert (c' = c) as -> by lia.
      rewrite list_lookup_insert_eq by lia.
      rewrite decide_True; reflexivity.
    + rewrite list_lookup_insert_ne by congruence.
      rewrite decide_False; [reflexivity | intros [= ->]; congruence].
  - rewrite list_lookup_insert_ne by congruence.
    rewrite decide_False; [reflexivity | intros [= -> _]; congruence].
Qed.

(** ** Updates of single cells *)

Lemma updCell_Ok (board : Board) (r c : Z) (f : Cell -> Cell) (board' : Board) :
  updCell board r c f = Ok board' <->
  exists row old, at_index board r = Some row /\ at_index row c = Some old /\
                  board' = putCell board r c row (f old).
Proof.
  unfold updCell. split.
  - destruct (at_index board r) as [row|]; [|discriminate].
    destruct (at_index row c) as [old|] eqn:Hc; [|discriminate].
    intros [= <-]. exists row, old. auto.
  - intros (row & old & -> & -> & ->). reflexivity.
Qed.

Lemma writeCell_Ok (board : Board) (r c : Z) (sid : string) (board' : Board) :
  writeCell board r c sid = Ok board' <->
  updCell board r c (markShip sid) = Ok board'.
Proof.
  unfold writeCell, updCell.
  destruct (at_index board r) as [row|]; [|split; discriminate].
  destruct (at_index row c); [reflexivity | split; discriminate].
Qed.

Lemma updCell_total (board : Board) (r c : Z) (f : Cell -> Cell) (cell : Cell) :
  getCell board r c = Ok cell -> exists board', updCell board r c f = Ok board'.
Proof.
  intros (row & Hrow & Hc)%getCell_Ok. unfold updCell. rewrite Hrow, Hc. eauto.
Qed.

Lemma updatedAt_refl (f : Cell -> Cell) (board : Board) : updatedAt [] f board board.
Proof.
  split; [reflexivity|]. intros r c cell Hg.
  rewrite decide_False; [exact Hg | apply not_elem_of_nil].
Qed.

Lemma updCell_updatedAt (board : Board) (r c : Z) (f : Cell -> Cell)
  (board' : Board) :
  updCell board r c f = Ok board' -> updatedAt [(r, c)] f board board'.
Proof.
  intros (row & old & Hrow & Hc & ->)%updCell_Ok. split.
  - apply putCell_shape. exact Hrow.
  - intros r' c' cell Hg. rewrite (getCell_putCell _ _ _ _ old) by assumption.
    destruct (decide ((r', c') = (r, c))) as [[= -> ->]|Hne].
    + rewrite decide_True by apply list_elem_of_singleton, eq_refl.
      assert (Hold : getCell board r c = Ok old)
        by (apply getCell_Ok; eauto).
      congruence.
    + rewrite decide_False; [exact Hg|].
      intros ?%list_elem_of_singleton. contradiction.
Qed.

Lemma updatedAt_trans (cs1 cs2 : list Coord) (f : Cell -> Cell)
  (b1 b2 b3 : Board) :
  (forall x, f (f x) = f x) ->
  updatedAt cs1 f b1 b2 -> updatedAt cs2 f b2 b3 ->
  updatedAt (cs1 ++ cs2) f b1 b3.
Proof.
  intros Hf [Hs12 H12] [Hs23 H23]. split; [congruence|].
  intros r c cell Hg. rewrite (H23 _ _ _ (H12 _ _ _ Hg)). f_equal.
  destruct (decide ((r, c) ∈ cs1)) as [H1|H1],
           (decide ((r, c) ∈ cs2)) as [H2|H2];
    [ rewrite decide_True by (apply elem_of_app; auto); apply Hf
    | rewrite decide_True by (apply elem_of_app; auto); reflexivity
    | rewrite decide_True by (apply elem_of_app; auto); reflexivity
    | rewrite decide_False; [reflexivity|];
      intros [?|?]%elem_of_app; contradiction ].
Qed.

Lemma updatedAt_wf (cs : list Coord) (f : Cell -> Cell) (board board' : Board) :
  updatedAt cs f board board' -> wfBoard board -> wfBoard board'.
Proof. unfold wfBoard. intros [Hs _] Hwf. congruence. Qed.

Lemma updatedAt_getCell_inv (cs : list Coord) (f : Cell -> Cell)
  (board board' : Board) (r c : Z) (cell' : Cell) :
  updatedAt cs f board board' -> getCell board' r c = Ok cell' ->
  exists cell, getCell board r c = Ok cell /\
               cell' = if decide ((r, c) ∈ cs) then f cell else cell.
Proof.
  intros [Hs Hu] Hg.
  destruct (shape_getCell board' board r c cell' Hs Hg) as [cell Hcell].
  exists cell. split; [exact Hcell|].
  pose proof (Hu _ _ _ Hcell) as Hg'. congruence.
Qed.

Lemma markShip_idem (sid : string) (x : Cell) :
  markShip sid (markShip sid x) = markShip sid x.
Proof. reflexivity. Qed.

Lemma setSunk_idem (x : Cell) : setSunk (setSunk x) = setSunk x.
Proof. reflexivity. Qed.

(** ** Counting ship cells *)

Lemma sum_list_with_insert {A : Type} (v : A -> nat) (l : list A) (i : nat)
  (old x : A) :
  l !! i = Some old ->
  (sum_list_with v (<[i := x]> l) + v old = sum_list_with v l + v x)%nat.
Proof.
  revert i. induction l as [|y l IH]; intros [|i] Hl; simpl in *;
    try discriminate.
  - injection Hl as ->. lia.
  - specialize (IH i Hl). lia.
Qed.

Lemma countWith_putCell (v : Cell -> nat) (board : Board) (r c : Z)
  (row : list Cell) (old x : Cell) :
  at_index board r = Some row -> at_index row c = Some old ->
  (countWith v (putCell board r c row x) + v old = countWith v board + v x)%nat.
Proof.
  intros [_ Hrow]%at_index_Some [_ Hc]%at_index_Some.
  unfold countWith, putCell.
  pose proof (sum_list_with_insert (sum_list_with v) board (Z.to_nat r) row
                (<[Z.to_nat c := x]> row) Hrow) as Hb.
  pose proof (sum_list_with_insert v row (Z.to_nat c) old x Hc) as Hr.
  lia.
Qed.

Lemma countShips_putCell (board : Board) (r c : Z) (row : list Cell)
  (old x : Cell) :
  at_index board r = Some row -> at_index row c = Some old ->
  (countShips (putCell board r c row x) + (if hasShip old then 1 else 0) =
   countShips board + (if hasShip x then 1 else 0))%nat.
Proof. apply (countWith_putCell shipValue). Qed.

(** ** Loops over a ship's cells *)

Lemma elem_of_range (n k : Z) : k ∈ range n <-> 0 <= k < n.
Proof.
  unfold range. rewrite list_elem_of_fmap. split.
  - intros (i & -> & Hi%elem_of_seq). lia.
  - intros Hk. exists (Z.to_nat k). split; [lia|]. apply elem_of_seq. lia.
Qed.

Lemma NoDup_range (n : Z) : NoDup (range n).
Proof.
  unfold range. apply NoDup_fmap_2; [|apply NoDup_seq].
  intros i j Hij. lia.
Qed.

Lemma length_range (n : Z) : length (range n) = Z.to_nat n.
Proof. unfold range. rewrite length_fmap, length_seq. reflexivity. Qed.

Lemma cellAt_inj (r0 c0 : Z) (dir : Dir) (k k' : Z) :
  cellAt r0 c0 dir k = cellAt r0 c0 dir k' -> k = k'.
Proof. unfold cellAt. destruct dir; simpl; intros [= ]; lia. Qed.

Lemma NoDup_line (r0 c0 : Z) (dir : Dir) (n : Z) : NoDup (line r0 c0 dir n).
Proof.
  unfold line. apply NoDup_fmap_2; [|apply NoDup_range].
  intros k k'. apply cellAt_inj.
Qed.

Lemma length_line (r0 c0 : Z) (dir : Dir) (n : Z) :
  length (line r0 c0 dir n) = Z.to_nat n.
Proof. unfold line. rewrite length_fmap. apply length_range. Qed.

Lemma canPlaceLoop_true (board : Board) (r0 c0 : Z) (dir : Dir) (ks : list Z) :
  canPlaceLoop board r0 c0 dir ks = Ok true <->
  forall rc, rc ∈ cellAt r0 c0 dir <$> ks -> freeAt board rc.
Proof.
  induction ks as [|k ks IH]; simpl.
  - split; [|reflexivity]. intros _ rc Hrc. inversion Hrc.
  - destruct (cellAt r0 c0 dir k) as [r c] eqn:Hk. split.
    + intros Hb. apply bind_Ok in Hb as (cell & Hcell & Hb).
      destruct (hasShip cell) eqn:Hs; [discriminate|].
      intros rc [->|Hrc]%elem_of_cons.
      * exists cell. split; assumption.
      * apply IH; assumption.
    + intros Hall.
      destruct (Hall (r, c)) as (cell & Hcell & Hs); [apply elem_of_cons; auto|].
      simpl in Hcell. rewrite Hcell. simpl. rewrite Hs.
      apply IH. intros rc Hrc. apply Hall, elem_of_cons. auto.
Qed.


Lemma writeLoop_spec (board : Board) (r0 c0 : Z) (dir : Dir) (sid : string)
  (ks : list Z) (acc : list Coord) (board' : Board) (coords : list Coord) :
  writeLoop board r0 c0 dir sid ks acc = Ok (board', coords) ->
  coords = acc ++ (cellAt r0 c0 dir <$> ks) /\
  updatedAt (cellAt r0 c0 dir <$> ks) (markShip sid) board board'.
Proof.
  revert board acc. induction ks as [|k ks IH]; simpl; intros board acc Hw.
  - injection Hw as <- <-. rewrite app_nil_r. split; [reflexivity|].
    apply updatedAt_refl.
  - destruct (cellAt r0 c0 dir k) as [r c] eqn:Hk.
    apply bind_Ok in Hw as (b1 & Hb1 & Hw).
    apply IH in Hw as [-> Hu]. split.
    + rewrite <- app_assoc. reflexivity.
    + apply writeCell_Ok, updCell_updatedAt in Hb1.
      exact (updatedAt_trans [(r, c)] _ _ _ _ _ (markShip_idem sid) Hb1 Hu).
Qed.


Lemma writeLoop_count (board : Board) (r0 c0 : Z) (dir : Dir) (sid : string)
  (ks : list Z) (acc : list Coord) (board' : Board) (coords : list Coord) :
  NoDup ks ->
  (forall rc, rc ∈ cellAt r0 c0 dir <$> ks -> freeAt board rc) ->
  writeLoop board r0 c0 dir sid ks acc = Ok (board', coords) ->
  countShips board' = (countShips board + length ks)%nat.
Proof.
  revert board acc. induction ks as [|k ks IH]; simpl;
    intros board acc Hnd Hfree Hw.
  - injection Hw as <- <-. lia.
  - destruct (cellAt r0 c0 dir k) as [r c] eqn:Hk.
    apply NoDup_cons in Hnd as [Hk_notin Hnd].
    apply bind_Ok in Hw as (b1 & Hb1 & Hw).
    apply writeCell_Ok in Hb1. pose proof Hb1 as Hupd.
    apply updCell_Ok in Hb1 as (row & old & Hrow & Hold & ->).
    destruct (Hfree (r, c)) as (cell & Hcell & Hs); [apply elem_of_cons; auto|].
    simpl in Hcell.
    assert (cell = old) as ->.
    { apply getCell_Ok in Hcell as (row' & Hrow' & Hc'). congruence. }
    pose proof (countShips_putCell board r c row old (markShip sid old)
                  Hrow Hold) as Hcnt.
    rewrite Hs in Hcnt. simpl in Hcnt.
    rewrite (IH _ _ Hnd) with (2 := Hw); [lia|].
    intros [r' c'] Hrc.
    destruct (Hfree (r', c')) as (x & Hx & Hxs); [apply elem_of_cons; auto|].
    exists x. split; [|exact Hxs]. simpl in *.
    rewrite (getCell_putCell _ _ _ _ old) by assumption.
    rewrite decide_False; [exact Hx|].
    intros [= -> ->]. apply Hk_notin.
    apply list_elem_of_fmap in Hrc as (k' & Hk' & Hin).
    rewrite <- Hk in Hk'. apply cellAt_inj in Hk'. congruence.
Qed.

(** ** Placement of one ship *)

Section PlacementFacts.

Variable rng : nat -> Z.

Lemma tryPlace_spec (fuel : nat) (board : Board) (ship : ShipSpec) (dir : Dir)
  (maxRow maxCol : Z) (pos : nat) (board' : Board) (coords : list Coord)
  (pos' : nat) :
  tryPlace rng fuel board ship dir maxRow maxCol pos = Ok (board', coords, pos') ->
  exists r0 c0,
    coords = line r0 c0 dir (size ship) /\
    (forall rc, rc ∈ coords -> freeAt board rc) /\
    updatedAt coords (markShip (id ship)) board board' /\
    countShips board' = (countShips board + length coords)%nat.
Proof.
  revert pos. induction fuel as [|fuel IH]; simpl; intros pos Ht; [discriminate|].
  apply bind_Ok in Ht as (free & Hfree & Ht).
  destruct free; [|exact (IH _ Ht)].
  apply bind_Ok in Ht as ([b1 cs] & Hw & Ht). injection Ht as <- <- <-.
  exists (randomInt (rng pos) maxRow), (randomInt (rng (S pos)) maxCol).
  unfold canPlaceAt in Hfree.
  pose proof (proj1 (canPlaceLoop_true _ _ _ _ _) Hfree) as Hall.
  clear Hfree. rename Hall into Hfree.
  unfold writeShip in Hw. pose proof Hw as Hcnt.
  apply writeLoop_spec in Hw as [-> Hu]. simpl.
  apply writeLoop_count in Hcnt; [|apply NoDup_range|exact Hfree].
  unfold line. rewrite length_fmap. auto.
Qed.

Lemma placeShip_spec (board : Board) (ship : ShipSpec) (pos : nat)
  (board' : Board) (coords : list Coord) (pos' : nat) :
  placeShip rng board ship pos = Ok (board', coords, pos') ->
  exists r0 c0 dir,
    coords = line r0 c0 dir (size ship) /\
    (forall rc, rc ∈ coords -> freeAt board rc) /\
    updatedAt coords (markShip (id ship)) board board' /\
    countShips board' = (countShips board + length coords)%nat.
Proof.
  unfold placeShip. destruct (dirLimits _ _) as [maxRow maxCol].
  intros (r0 & c0 & Hs)%tryPlace_spec. eauto.
Qed.

(** The failure of [placeShip] is the exhaustion of its 500 attempts: every
    origin drawn was refused by [canPlaceAt]. *)
Lemma tryPlace_failure (fuel : nat) (board : Board) (ship : ShipSpec)
  (dir : Dir) (maxRow maxCol : Z) (pos : nat) :
  tryPlace rng fuel board ship dir maxRow maxCol pos = Err PlacementFailure <->
  forall t : nat, (t < fuel)%nat ->
    canPlaceAt board (randomInt (rng (pos + 2 * t)%nat) maxRow)
      (randomInt (rng (S (pos + 2 * t))) maxCol) dir (size ship) = Ok false.
Proof.
  revert pos. induction fuel as [|fuel IH]; cbn [tryPlace]; intros pos.
  - split; [intros _ t Ht; lia | reflexivity].
  - split.
    + intros Ht. apply bind_Err in Ht as [Ht | (free & Hfree & Ht)].
      { unfold canPlaceAt in Ht.
        assert (Hne : forall ks e,
                  canPlaceLoop board (randomInt (rng pos) maxRow)
                    (randomInt (rng (S pos)) maxCol) dir ks = Err e ->
                  e = TypeError).
        { induction ks as [|k ks IHks]; simpl; intros e He; [discriminate|].
          destruct (cellAt _ _ dir k) as [r c].
          apply bind_Err in He as [He | (cell & _ & He)];
            [exact (getCell_Err _ _ _ _ He)|].
          destruct (hasShip cell); [discriminate | exact (IHks _ He)]. }
        apply Hne in Ht. discriminate. }
      destruct free.
      { apply bind_Err in Ht as [Ht | ([b1 cs] & _ & Ht)]; [|discriminate].
        unfold writeShip in Ht.
        assert (Hne : forall ks b acc e,
                  writeLoop b (randomInt (rng pos) maxRow)
                    (randomInt (rng (S pos)) maxCol) dir (id ship) ks acc = Err e ->
                  e <> PlacementFailure).
        { induction ks as [|k ks IHks]; simpl; intros b acc e He; [discriminate|].
          destruct (cellAt _ _ dir k) as [r c].
          apply bind_Err in He as [He | (b2 & _ & He)]; [|exact (IHks _ _ _ He)].
          unfold writeCell in He. destruct (at_index b r) as [row|]; [|congruence].
          destruct (at_index row c); congruence. }
        apply Hne in Ht. contradiction. }
      intros [|t] Hlt.
      * replace (pos + 2 * 0)%nat with pos by lia. exact Hfree.
      * replace (pos + 2 * S t)%nat with (S (S pos) + 2 * t)%nat by lia.
        apply (proj1 (IH _) Ht). lia.
    + intros Hall. pose proof (Hall 0%nat ltac:(lia)) as H0.
      replace (pos + 2 * 0)%nat with pos in H0 by lia. rewrite H0. cbn [bind].
      apply IH. intros t Hlt.
      replace (S (S pos) + 2 * t)%nat with (pos + 2 * S t)%nat by lia.
      apply Hall. lia.
Qed.

(** ** Placement of the fleet *)

Lemma placedOn_step (board board' : Board)
  (placements : gmap string (list Coord)) (sid : string) (coords : list Coord) :
  placedOn board placements ->
  (forall rc, rc ∈ coords -> freeAt board rc) ->
  updatedAt coords (markShip sid) board board' ->
  placedOn board' (<[sid := coords]> placements).
Proof.
  intros Hpl Hfree [Hs Hu] sid' cs Hlk [r c] Hrc. simpl.
  destruct (decide (sid = sid')) as [<-|Hne].
  - rewrite lookup_insert_eq in Hlk. injection Hlk as <-.
    destruct (Hfree _ Hrc) as (cell & Hcell & _). simpl in Hcell.
    exists (markShip sid cell). rewrite (Hu _ _ _ Hcell).
    rewrite decide_True by exact Hrc. auto.
  - rewrite lookup_insert_ne in Hlk by exact Hne.
    destruct (Hpl _ _ Hlk _ Hrc) as (cell & Hcell & Hship & Hid).
    simpl in Hcell. exists cell. rewrite (Hu _ _ _ Hcell).
    rewrite decide_False; [auto|].
    intros Hin. destruct (Hfree _ Hin) as (x & Hx & Hxs). simpl in Hx.
    congruence.
Qed.

Lemma placeShips_spec (ships : list ShipSpec) (board : Board)
  (placements : gmap string (list Coord)) (pos : nat) (board' : Board)
  (placements' : gmap string (list Coord)) (pos' : nat) :
  placeShips rng ships board placements pos = Ok (board', placements', pos') ->
  placedOn board placements ->
  placedOn board' placements' /\
  shape board' = shape board /\
  countShips board' = (countShips board + fleetSize ships)%nat /\
  (forall sid, sid ∉ id <$> ships -> placements' !! sid = placements !! sid) /\
  (NoDup (id <$> ships) -> forall ship, ship ∈ ships ->
     exists r0 c0 dir,
       placements' !! id ship = Some (line r0 c0 dir (size ship))) /\
  (forall r c cell, getCell board r c = Ok cell ->
     exists cell', getCell board' r c = Ok cell' /\
       (cell' = cell \/ exists ship, ship ∈ ships /\ cell' = markShip (id ship) cell)).
Proof.
  revert board placements pos.
  induction ships as [|ship ships IH]; simpl; intros board placements pos Hp Hon.
  - injection Hp as <- <- <-.
    split; [exact Hon|]. split; [reflexivity|].
    split; [unfold fleetSize; simpl; lia|]. split; [reflexivity|].
    split; [intros _ ship Hin; inversion Hin|].
    intros r c cell Hg. eauto.
  - apply bind_Ok in Hp as ([[b1 coords] pos1] & Hp1 & Hp).
    apply placeShip_spec in Hp1 as (r0 & c0 & dir & Hcoords & Hfree & Hu & Hcnt).
    pose proof (placedOn_step _ _ _ (id ship) _ Hon Hfree Hu) as Hon1.
    destruct (IH _ _ _ Hp Hon1) as (Hon' & Hs' & Hcnt' & Hkeep & Hrec & Hcells).
    split; [exact Hon'|]. split; [destruct Hu; congruence|].
    split; [|split; [|split]].
    + rewrite Hcnt', Hcnt, Hcoords, length_line. unfold fleetSize. simpl. lia.
    + intros sid Hsid. rewrite Hkeep.
      * apply lookup_insert_ne. intros Heq. apply Hsid, elem_of_cons. auto.
      * intros Hin. apply Hsid, elem_of_cons. auto.
    + intros [Hnotin Hnd]%NoDup_cons s [->|Hin]%elem_of_cons.
      * exists r0, c0, dir. rewrite (Hkeep _ Hnotin), lookup_insert_eq.
        congruence.
      * exact (Hrec Hnd s Hin).
    + intros r c cell Hg. destruct Hu as [_ Hu].
      pose proof (Hu _ _ _ Hg) as Hg1.
      destruct (Hcells _ _ _ Hg1) as (cell' & Hg' & Hc').
      exists cell'. split; [exact Hg'|].
      destruct (decide ((r, c) ∈ coords)) as [Hin|Hin].
      * right. destruct Hc' as [->|(s & Hs & ->)].
        -- exists ship. split; [apply elem_of_cons; auto | reflexivity].
        -- exists s. split; [apply elem_of_cons; auto | reflexivity].
      * destruct Hc' as [->|(s & Hs & ->)]; [left; reflexivity|].
        right. exists s. split; [apply elem_of_cons; auto | reflexivity].
Qed.

End PlacementFacts.

(** ** The generated board *)

Lemma createEmptyBoard_wf : wfBoard createEmptyBoard.
Proof. reflexivity. Qed.

Lemma createEmptyBoard_cell (r c : Z) (cell : Cell) :
  getCell createEmptyBoard r c = Ok cell -> cell = emptyCell.
Proof.
  intros (row & [_ Hrow]%at_index_Some & [_ Hc]%at_index_Some)%getCell_Ok.
  unfold createEmptyBoard in Hrow.
  apply lookup_replicate in Hrow as [-> _].
  apply lookup_replicate in Hc as [-> _]. reflexivity.
Qed.

Lemma placedOn_empty (board : Board) : placedOn board ∅.
Proof. intros sid coords Hlk. rewrite lookup_empty in Hlk. discriminate. Qed.

Lemma line_contiguous (r0 c0 : Z) (dir : Dir) (n : Z) :
  contiguous (line r0 c0 dir n).
Proof.
  exists r0, c0. rewrite length_line.
  assert (Hk : forall k : nat, (k < Z.to_nat n)%nat ->
            line r0 c0 dir n !! k = Some (cellAt r0 c0 dir (Z.of_nat k))).
  { intros k Hlt. unfold line, range. rewrite !list_lookup_fmap.
    rewrite lookup_seq_lt by exact Hlt. reflexivity. }
  destruct dir; [left | right]; intros k Hlt; rewrite (Hk k Hlt);
    unfold cellAt; simpl; do 2 f_equal; lia.
Qed.

Lemma SHIPS_ids_NoDup : NoDup (id <$> SHIPS).
Proof. apply (bool_decide_unpack _). vm_compute. exact I. Qed.

Lemma SHIPS_sizes (ship : ShipSpec) :
  ship ∈ SHIPS -> 2 <= size ship <= 5.
Proof.
  intros H1%list_elem_of_In. simpl in H1.
  destruct H1 as [<-|[<-|[<-|[<-|[<-|[]]]]]]; simpl; lia.
Qed.

Lemma SHIPS_id_inj (s1 s2 : ShipSpec) :
  s1 ∈ SHIPS -> s2 ∈ SHIPS -> id s1 = id s2 -> s1 = s2.
Proof.
  intros H1%list_elem_of_In H2%list_elem_of_In. simpl in H1, H2.
  destruct H1 as [<-|[<-|[<-|[<-|[<-|[]]]]]];
    destruct H2 as [<-|[<-|[<-|[<-|[<-|[]]]]]];
    simpl; intros Hid; try reflexivity; discriminate Hid.
Qed.

(** The board [buildBoard] returns: its shape, its ship cells, and where
    each cell comes from. *)
Lemma buildBoard_fleet_layout_aux (rng : nat -> Z) (pos : nat) (board : Board)
  (placements : gmap string (list Coord)) (pos' : nat) :
  buildBoard rng pos = Ok (board, placements, pos') ->
  wfBoard board /\ countShips board = 17%nat /\
  forall r c x, getCell board r c = Ok x ->
    x = emptyCell \/ exists ship, ship ∈ SHIPS /\ x = markShip (id ship) emptyCell.
Proof.
  unfold buildBoard. intros Hb.
  destruct (placeShips_spec rng _ _ _ _ _ _ _ Hb (placedOn_empty _))
    as (_ & Hs & Hcnt & _ & _ & Hcells).
  split; [unfold wfBoard; rewrite Hs; reflexivity|].
  split; [rewrite Hcnt; reflexivity|].
  intros r c x' Hx'.
  destruct (shape_getCell _ createEmptyBoard r c x' Hs Hx') as [x Hx].
  destruct (Hcells _ _ _ Hx) as (y & Hy & Hy').
  assert (y = x') as -> by congruence.
  apply createEmptyBoard_cell in Hx as ->. exact Hy'.
Qed.

(** C4. Every board [buildBoard] returns has exactly 17 cells with
    [hasShip] set; every ship of the catalogue has a recorded placement
    whose length is its size, whose cells are contiguous in one row or one
    column and carry the ship's id on the board; and the placements of two
    different ships share no cell. *)
Theorem buildBoard_fleet_layout (rng : nat -> Z) (pos : nat) (board : Board)
  (placements : gmap string (list Coord)) (pos' : nat) :
  buildBoard rng pos = Ok (board, placements, pos') ->
  wfBoard board /\
  countShips board = 17%nat /\
  (forall ship, ship ∈ SHIPS ->
     exists coords,
       placements !! id ship = Some coords /\
       Z.of_nat (length coords) = size ship /\
       contiguous coords /\
       forall rc, rc ∈ coords ->
         exists cell, getCell board rc.1 rc.2 = Ok cell /\
                      hasShip cell = true /\ shipId cell = Some (id ship)) /\
  (forall s1 s2 cs1 cs2,
     s1 ∈ SHIPS -> s2 ∈ SHIPS -> s1 <> s2 ->
     placements !! id s1 = Some cs1 -> placements !! id s2 = Some cs2 ->
     forall rc, rc ∈ cs1 -> rc ∉ cs2).
Proof.
  unfold buildBoard. intros Hb.
  destruct (placeShips_spec rng _ _ _ _ _ _ _ Hb (placedOn_empty _))
    as (Hon & Hs & Hcnt & _ & Hrec & _).
  split; [|split; [|split]].
  - unfold wfBoard. rewrite Hs. reflexivity.
  - rewrite Hcnt. reflexivity.
  - intros ship Hin.
    destruct (Hrec SHIPS_ids_NoDup ship Hin) as (r0 & c0 & dir & Hlk).
    exists (line r0 c0 dir (size ship)). split; [exact Hlk|].
    split; [|split].
    + rewrite length_line. apply SHIPS_sizes in Hin. lia.
    + apply line_contiguous.
    + exact (Hon _ _ Hlk).
  - intros s1 s2 cs1 cs2 H1 H2 Hne Hl1 Hl2 rc Hrc1 Hrc2.
    destruct (Hon _ _ Hl1 _ Hrc1) as (x1 & Hx1 & _ & Hid1).
    destruct (Hon _ _ Hl2 _ Hrc2) as (x2 & Hx2 & _ & Hid2).
    apply Hne, SHIPS_id_inj; [assumption..|]. congruence.
Qed.

Lemma buildBoard_fleet_layout_witness :
  exists board placements pos',
    buildBoard (replay demoDraws) 0 = Ok (board, placements, pos') /\
    countShips board = 17%nat.
Proof.
  destruct (buildBoard (replay demoDraws) 0) as [[[b pl] p]|e] eqn:Hb.
  - exists b, pl, p. split; [reflexivity|].
    exact (proj1 (proj2 (buildBoard_fleet_layout _ _ _ _ _ Hb))).
  - vm_compute in Hb. discriminate Hb.
Defined.

(** ** Bounds of the sampled origin *)












(** ** Failure of the placement *)

Lemma placeShips_app (rng : nat -> Z) (done rest : list ShipSpec)
  (board : Board) (placements : gmap string (list Coord)) (pos : nat) :
  placeShips rng (done ++ rest) board placements pos =
  let* (b1, pl1, pos1) := placeShips rng done board placements pos in
  placeShips rng rest b1 pl1 pos1.
Proof.
  revert board placements pos. induction done as [|ship done IH]; simpl;
    intros board placements pos; [reflexivity|].
  destruct (placeShip rng board ship pos) as [[[b1 cs] pos1]|e]; simpl;
    [apply IH | reflexivity].
Qed.

(** With a stream of zeros the first ship takes the top-left corner and
    every attempt of the second ship lands on it. *)
Lemma placement_failure_surfaces :
  validDraw 0 /\
  buildBoard zeroRng 0 = Err PlacementFailure /\
  newGame zeroRng 0 = Err PlacementFailure /\
  resetGame zeroRng 0 = Err PlacementFailure.
Proof.
  split; [split; [lia | reflexivity]|].
  assert (Hb : buildBoard zeroRng 0 = Err PlacementFailure)
    by (vm_compute; reflexivity).
  unfold newGame, resetGame. rewrite Hb. auto.
Qed.

(** C6, as the code has it. When the ships before [ship] were placed and all
    500 origins drawn for [ship] are refused, [placeShip] raises
    [PlacementFailure]; [buildBoard] neither catches it nor starts again, and
    the same error leaves [buildBoard], the initial state of the component
    and [resetGame]. *)
Theorem placement_failure_propagates (rng : nat -> Z)
  (done rest : list ShipSpec) (ship : ShipSpec) (pos : nat)
  (b1 : Board) (pl1 : gmap string (list Coord)) (pos1 : nat) :
  SHIPS = done ++ ship :: rest ->
  placeShips rng done createEmptyBoard ∅ pos = Ok (b1, pl1, pos1) ->
  (forall t : nat, (t < MAX_TRIES)%nat ->
     canPlaceAt b1
       (randomInt (rng (S pos1 + 2 * t)%nat)
          (dirLimits (randomDir (rng pos1)) (size ship)).1)
       (randomInt (rng (S (S pos1 + 2 * t)))
          (dirLimits (randomDir (rng pos1)) (size ship)).2)
       (randomDir (rng pos1)) (size ship) = Ok false) ->
  placeShip rng b1 ship pos1 = Err PlacementFailure /\
  buildBoard rng pos = Err PlacementFailure /\
  newGame rng pos = Err PlacementFailure /\
  resetGame rng pos = Err PlacementFailure.
Proof.
  intros Hsplit Hdone Hall.
  assert (Hp : placeShip rng b1 ship pos1 = Err PlacementFailure).
  { unfold placeShip.
    destruct (dirLimits (randomDir (rng pos1)) (size ship))
      as [maxRow maxCol].
    apply tryPlace_failure. exact Hall. }
  assert (Hb : buildBoard rng pos = Err PlacementFailure).
  { unfold buildBoard. rewrite Hsplit, placeShips_app, Hdone.
    cbn [bind placeShips]. rewrite Hp. reflexivity. }
  unfold newGame, resetGame. rewrite Hb. auto.
Qed.

Lemma placement_failure_propagates_witness :
  buildBoard zeroRng 0 = Err PlacementFailure.
Proof.
  edestruct (placement_failure_propagates zeroRng
               [ {| id := "A"; size := 5; name := "Portaaviones" |} ]
               [ {| id := "C"; size := 3; name := "Crucero" |};
                 {| id := "D"; size := 3; name := "Submarino" |};
                 {| id := "E"; size := 2; name := "Destructor" |} ]
               {| id := "B"; size := 4; name := "Acorazado" |} 0%nat)
    as (_ & Hb & _).
  - reflexivity.
  - vm_compute. reflexivity.
  - intros t _. vm_compute. reflexivity.
  - exact Hb.
Defined.

(** ** Scanning the board for a ship *)

Lemma cloneBoard_id (board : Board) : cloneBoard board = board.
Proof.
  unfold cloneBoard. rewrite <- (map_id board) at 2. apply map_ext.
  intros row. rewrite <- (map_id row) at 2. apply map_ext.
  intros [? ? ? ?]. reflexivity.
Qed.

Lemma sameId_true (a b : option string) : sameId a b = true <-> a = b.
Proof. unfold sameId. apply bool_decide_eq_true. Qed.

Lemma scanRow_spec (board : Board) (sid : option string) (r : Z)
  (cs : list Z) (acc cells : list Coord) :
  scanRow board sid r cs acc = Ok cells ->
  forall rc, rc ∈ cells <->
    rc ∈ acc \/
    exists c cell, rc = (r, c) /\ c ∈ cs /\
                   getCell board r c = Ok cell /\ shipId cell = sid.
Proof.
  revert acc. induction cs as [|c cs IH]; simpl; intros acc Hs rc.
  - injection Hs as <-. split; [auto|].
    intros [Hin | (c & cell & _ & Hc & _)]; [exact Hin | inversion Hc].
  - apply bind_Ok in Hs as (cell & Hcell & Hs).
    rewrite (IH _ Hs rc). split.
    + intros [Hin | (c' & x & -> & Hc' & Hx & Hid)].
      * destruct (sameId (shipId cell) sid) eqn:Hsame; [|auto].
        apply elem_of_app in Hin as [Hin | ->%list_elem_of_singleton];
          [auto|].
        right. exists c, cell. apply sameId_true in Hsame.
        repeat split; [apply elem_of_cons; auto | assumption..].
      * right. exists c', x. repeat split; [apply elem_of_cons|..]; auto.
    + intros [Hin | (c' & x & -> & Hc' & Hx & Hid)].
      * left. destruct (sameId (shipId cell) sid); [apply elem_of_app|]; auto.
      * apply elem_of_cons in Hc' as [->|Hc'].
        -- left. assert (x = cell) as -> by congruence.
           apply sameId_true in Hid. rewrite Hid.
           apply elem_of_app. right. apply list_elem_of_singleton, eq_refl.
        -- right. exists c', x. auto.
Qed.

Lemma scanRow_total (board : Board) (sid : option string) (r : Z)
  (cs : list Z) (acc : list Coord) :
  (forall c, c ∈ cs -> exists cell, getCell board r c = Ok cell) ->
  exists cells, scanRow board sid r cs acc = Ok cells.
Proof.
  revert acc. induction cs as [|c cs IH]; simpl; intros acc Hall; [eauto|].
  destruct (Hall c) as [cell Hcell]; [apply elem_of_cons; auto|].
  rewrite Hcell. simpl. apply IH. intros c' Hc'. apply Hall, elem_of_cons. auto.
Qed.

Lemma scanRows_spec (board : Board) (sid : option string) (rs : list Z)
  (acc cells : list Coord) :
  scanRows board sid rs acc = Ok cells ->
  forall rc, rc ∈ cells <->
    rc ∈ acc \/
    exists cell, rc.1 ∈ rs /\ rc.2 ∈ range GRID_SIZE /\
                 getCell board rc.1 rc.2 = Ok cell /\ shipId cell = sid.
Proof.
  revert acc. induction rs as [|r rs IH]; cbn [scanRows]; intros acc Hs rc.
  - injection Hs as <-. split; [auto|].
    intros [Hin | (cell & Hr & _)]; [exact Hin | inversion Hr].
  - apply bind_Ok in Hs as (cells1 & Hrow & Hs).
    rewrite (IH _ Hs rc), (scanRow_spec _ _ _ _ _ _ Hrow rc). split.
    + intros [[Hin | (c & cell & -> & Hc & Hx & Hid)] | (cell & Hr & Hrest)].
      * auto.
      * right. exists cell. simpl. split; [apply elem_of_cons; auto | auto].
      * right. exists cell. split; [apply elem_of_cons; auto | exact Hrest].
    + intros [Hin | (cell & Hr & Hc & Hx & Hid)]; [auto|].
      apply elem_of_cons in Hr as [Hr|Hr].
      * left. right. exists rc.2, cell. rewrite <- Hr.
        split; [destruct rc; reflexivity | auto].
      * right. exists cell. auto.
Qed.

Lemma getShipCells_spec (board : Board) (sid : option string)
  (cells : list Coord) :
  getShipCells board sid = Ok cells ->
  forall r c, (r, c) ∈ cells <->
    0 <= r < GRID_SIZE /\ 0 <= c < GRID_SIZE /\
    exists cell, getCell board r c = Ok cell /\ shipId cell = sid.
Proof.
  intros Hs r c. unfold getShipCells in Hs.
  rewrite (scanRows_spec _ _ _ _ _ Hs (r, c)). cbn [fst snd].
  split.
  - intros [Hin | (cell & Hr%elem_of_range & Hc%elem_of_range & Hrest)];
      [inversion Hin | eauto].
  - intros (Hr%elem_of_range & Hc%elem_of_range & cell & Hrest). right. eauto.
Qed.

Lemma getShipCells_total (board : Board) (sid : option string) :
  wfBoard board -> exists cells, getShipCells board sid = Ok cells.
Proof.
  intros Hwf. unfold getShipCells.
  assert (Hgen : forall rs acc,
            (forall r, r ∈ rs -> 0 <= r < GRID_SIZE) ->
            exists cells, scanRows board sid rs acc = Ok cells).
  { induction rs as [|r rs IH]; cbn [scanRows]; intros acc Hrs; [eauto|].
    destruct (scanRow_total board sid r (range GRID_SIZE) acc) as [cells1 H1].
    { intros c Hc%elem_of_range. apply wfBoard_getCell; [exact Hwf|].
      split; [apply Hrs, elem_of_cons; auto | exact Hc]. }
    rewrite H1. cbn [bind]. apply IH. intros r' Hr'. apply Hrs, elem_of_cons. auto. }
  apply Hgen. intros r Hr%elem_of_range. exact Hr.
Qed.

Lemma everyHit_spec (board : Board) (cells : list Coord) (v : bool) :
  everyHit board cells = Ok v ->
  (v = true <->
   forall rc cell, rc ∈ cells -> getCell board rc.1 rc.2 = Ok cell ->
                   hit cell = true).
Proof.
  revert v. induction cells as [|[r c] cells IH]; simpl; intros v He.
  - injection He as <-. split; [|reflexivity]. intros _ rc cell Hrc. inversion Hrc.
  - apply bind_Ok in He as (cell & Hcell & He).
    destruct (hit cell) eqn:Hh.
    + rewrite (IH _ He). split.
      * intros Hall rc x [->|Hrc]%elem_of_cons Hx; [simpl in Hx; congruence|].
        exact (Hall rc x Hrc Hx).
      * intros Hall rc x Hrc. apply Hall, elem_of_cons. auto.
    + injection He as <-. split; [discriminate|].
      intros Hall. rewrite <- Hh.
      apply (Hall (r, c) cell); [apply elem_of_cons; auto | exact Hcell].
Qed.

Lemma everyHit_total (board : Board) (cells : list Coord) :
  (forall rc, rc ∈ cells -> exists cell, getCell board rc.1 rc.2 = Ok cell) ->
  exists v, everyHit board cells = Ok v.
Proof.
  induction cells as [|[r c] cells IH]; simpl; intros Hall; [eauto|].
  destruct (Hall (r, c)) as [cell Hcell]; [apply elem_of_cons; auto|].
  simpl in Hcell. rewrite Hcell. simpl. destruct (hit cell); [|eauto].
  apply IH. intros rc Hrc. apply Hall, elem_of_cons. auto.
Qed.

Lemma sinkCells_spec (board : Board) (cells : list Coord) (board' : Board) :
  sinkCells board cells = Ok board' -> updatedAt cells setSunk board board'.
Proof.
  revert board. induction cells as [|[r c] cells IH]; simpl; intros board Hs.
  - injection Hs as <-. apply updatedAt_refl.
  - apply bind_Ok in Hs as (b1 & Hb1 & Hs).
    apply updCell_updatedAt in Hb1. apply IH in Hs.
    exact (updatedAt_trans [(r, c)] _ _ _ _ _ setSunk_idem Hb1 Hs).
Qed.

Lemma sinkCells_total (board : Board) (cells : list Coord) :
  (forall rc, rc ∈ cells -> exists cell, getCell board rc.1 rc.2 = Ok cell) ->
  exists board', sinkCells board cells = Ok board'.
Proof.
  revert board. induction cells as [|[r c] cells IH]; simpl; intros board Hall;
    [eauto|].
  destruct (Hall (r, c)) as [cell Hcell]; [apply elem_of_cons; auto|].
  simpl in Hcell.
  destruct (updCell_total board r c setSunk cell Hcell) as [b1 Hb1].
  rewrite Hb1. simpl. apply IH. intros rc Hrc.
  destruct (Hall rc) as [x Hx]; [apply elem_of_cons; auto|].
  apply updCell_updatedAt in Hb1 as [Hs _].
  apply (shape_getCell board b1 _ _ x); [congruence | exact Hx].
Qed.

(** ** Sinking a ship *)

Lemma isShipSunk_spec (board : Board) (sid : option string) :
  wfBoard board ->
  exists v, isShipSunk board sid = Ok v /\ (v = true <-> allHit board sid).
Proof.
  intros Hwf. unfold isShipSunk.
  destruct (getShipCells_total board sid Hwf) as [cells Hcells].
  rewrite Hcells. cbn [bind].
  pose proof (getShipCells_spec _ _ _ Hcells) as Hin.
  destruct (everyHit_total board cells) as [v Hv].
  { intros [r c] (_ & _ & cell & Hcell & _)%Hin. eauto. }
  exists v. split; [exact Hv|].
  rewrite (everyHit_spec _ _ _ Hv). split.
  - intros Hall r c cell Hcell Hid. apply (Hall (r, c) cell); [|exact Hcell].
    apply Hin. pose proof (proj2 (wfBoard_getCell board r c Hwf)
                             (ex_intro _ cell Hcell)) as [Hr Hc]. eauto.
  - intros Hall [r c] cell (_ & _ & x & Hx & Hid)%Hin Hcell. simpl in Hcell.
    apply (Hall r c cell Hcell). congruence.
Qed.

Lemma markShipSunk_spec (board : Board) (sid : option string) :
  wfBoard board ->
  exists board', markShipSunk board sid = Ok board' /\
    shape board' = shape board /\
    forall r c x, getCell board r c = Ok x ->
      getCell board' r c = Ok (if sameId (shipId x) sid then setSunk x else x).
Proof.
  intros Hwf. unfold markShipSunk.
  destruct (getShipCells_total board sid Hwf) as [cells Hcells].
  rewrite Hcells. cbn [bind].
  pose proof (getShipCells_spec _ _ _ Hcells) as Hin.
  destruct (sinkCells_total board cells) as [b' Hb'].
  { intros [r c] (_ & _ & cell & Hcell & _)%Hin. eauto. }
  exists b'. split; [exact Hb'|].
  apply sinkCells_spec in Hb' as [Hs Hu]. split; [exact Hs|].
  intros r c x Hx. rewrite (Hu _ _ _ Hx). f_equal.
  destruct (decide ((r, c) ∈ cells)) as [Hrc|Hrc].
  - apply Hin in Hrc as (_ & _ & y & Hy & Hid).
    assert (y = x) as -> by congruence.
    apply sameId_true in Hid. rewrite Hid. reflexivity.
  - destruct (sameId (shipId x) sid) eqn:Hsame; [|reflexivity].
    exfalso. apply Hrc, Hin. apply sameId_true in Hsame.
    pose proof (proj2 (wfBoard_getCell board r c Hwf)
                  (ex_intro _ x Hx)) as [Hr Hc]. eauto.
Qed.

Lemma updateAfterHit_spec (n : Z) (next : Board) (sid : option string) :
  wfBoard next ->
  exists (board' : Board) (justSunk : bool),
    updateAfterHit n next sid =
      Ok (board', n + (if justSunk then 1 else 0), justSunk) /\
    (justSunk = true <-> falsy sid = false /\ allHit next sid) /\
    shape board' = shape next /\
    forall r c x, getCell next r c = Ok x ->
      getCell board' r c =
      Ok (if justSunk && sameId (shipId x) sid then setSunk x else x).
Proof.
  intros Hwf. unfold updateAfterHit.
  destruct (falsy sid) eqn:Hf.
  { exists next, false. rewrite Z.add_0_r. split; [reflexivity|].
    split; [split; [discriminate | intros [Hx _]; discriminate Hx]|].
    split; [reflexivity | intros r c x Hx; exact Hx]. }
  destruct (isShipSunk_spec next sid Hwf) as (v & Hv & Hiff).
  rewrite Hv. cbn [bind]. destruct v; cbn [negb].
  - destruct (markShipSunk_spec next sid Hwf) as (b' & Hb' & Hs & Hcells).
    rewrite Hb'. cbn [bind]. exists b', true.
    split; [reflexivity|]. split; [|split; [exact Hs | exact Hcells]].
    split; [intros _; split; [reflexivity | apply Hiff; reflexivity] | auto].
  - exists next, false. rewrite Z.add_0_r. split; [reflexivity|].
    split; [|split; [reflexivity | intros r c x Hx; exact Hx]].
    split; [discriminate|]. intros [_ Hall]. apply Hiff. exact Hall.
Qed.

(** Without any assumption on the board: what [updateAfterHit] returns when
    it returns. *)
Lemma updateAfterHit_weak (n : Z) (next : Board) (sid : option string)
  (board' : Board) (n' : Z) (justSunk : bool) :
  updateAfterHit n next sid = Ok (board', n', justSunk) ->
  n' = n + (if justSunk then 1 else 0) /\
  exists cs, updatedAt cs setSunk next board'.
Proof.
  unfold updateAfterHit. destruct (falsy sid).
  { intros [= <- <- <-]. split; [lia|]. exists []. apply updatedAt_refl. }
  intros Hb. apply bind_Ok in Hb as (v & Hv & Hb). destruct v; cbn [negb] in Hb.
  - apply bind_Ok in Hb as (marked & Hm & Hb). injection Hb as <- <- <-.
    split; [reflexivity|]. unfold markShipSunk in Hm.
    apply bind_Ok in Hm as (cs & _ & Hm). exists cs.
    apply sinkCells_spec. exact Hm.
  - injection Hb as <- <- <-. split; [lia|]. exists [].
    apply updatedAt_refl.
Qed.

(** ** One shot *)

Lemma handleShot_rejected (st : AppState) (r c : Z) :
  st_gameOver st = true \/
  (exists cell, getCell (st_board st) r c = Ok cell /\ hit cell = true) ->
  applyShot st r c = Ok (Unchanged (st_board st)) /\
  handleShot st r c = Ok st.
Proof.
  intros Hrej.
  assert (Ha : applyShot st r c = Ok (Unchanged (st_board st))).
  { unfold applyShot. destruct (st_gameOver st); [reflexivity|].
    destruct Hrej as [Hg | (cell & Hcell & Hh)]; [discriminate|].
    rewrite Hcell. cbn [bind]. rewrite Hh. reflexivity. }
  split; [exact Ha|]. unfold handleShot. rewrite Ha. reflexivity.
Qed.

Lemma applyShot_accepted (st : AppState) (r c : Z) (cell : Cell) :
  st_gameOver st = false ->
  getCell (st_board st) r c = Ok cell -> hit cell = false ->
  exists next,
    applyShot st r c = Ok (Changed next (hasShip cell) (shipId cell)) /\
    updatedAt [(r, c)] setHit (st_board st) next.
Proof.
  intros Hg Hcell Hh. unfold applyShot. rewrite Hg, Hcell. cbn [bind].
  rewrite Hh, cloneBoard_id.
  destruct (updCell_total (st_board st) r c setHit cell Hcell) as [next Hn].
  rewrite Hn. cbn [bind]. exists next.
  apply updCell_updatedAt in Hn. destruct Hn as [Hs Hu].
  rewrite (Hu _ _ _ Hcell).
  rewrite decide_True by apply list_elem_of_singleton, eq_refl.
  cbn [bind]. split; [reflexivity | split; assumption].
Qed.

(** What [handleShot] does when it returns, whatever the board. *)
Lemma handleShot_weak (st : AppState) (r c : Z) (st' : AppState) :
  handleShot st r c = Ok st' ->
  (st' = st /\
   (st_gameOver st = true \/
    exists cell, getCell (st_board st) r c = Ok cell /\ hit cell = true)) \/
  (st_gameOver st = false /\
   exists (cell : Cell) (next : Board) (cs : list Coord) (justSunk : bool),
     getCell (st_board st) r c = Ok cell /\ hit cell = false /\
     updatedAt [(r, c)] setHit (st_board st) next /\
     updatedAt cs setSunk next (st_board st') /\
     st_placements st' = st_placements st /\
     st_shots st' = st_shots st + 1 /\
     st_hits st' = st_hits st + (if hasShip cell then 1 else 0) /\
     st_sunk st' = st_sunk st + (if justSunk then 1 else 0) /\
     st_gameOver st' = false /\
     st_reveal st' = st_reveal st).
Proof.
  intros Hh. destruct (st_gameOver st) eqn:Hg.
  { left. destruct (handleShot_rejected st r c) as [_ Hr]; [auto|].
    split; [congruence | auto]. }
  pose proof Hh as Hh0. unfold handleShot in Hh.
  apply bind_Ok in Hh as (res & Hres & Hh).
  assert (Hcell : exists cell, getCell (st_board st) r c = Ok cell).
  { unfold applyShot in Hres. rewrite Hg in Hres.
    apply bind_Ok in Hres as (cell & Hcell & _). eauto. }
  destruct Hcell as [cell Hcell]. destruct (hit cell) eqn:Hhit.
  { left. destruct (handleShot_rejected st r c) as [_ Hr]; [eauto|].
    split; [congruence | eauto]. }
  right. split; [reflexivity|].
  destruct (applyShot_accepted st r c cell Hg Hcell Hhit) as (next & Ha & Hu).
  rewrite Ha in Hres. injection Hres as <-.
  destruct (hasShip cell) eqn:Hs.
  - apply bind_Ok in Hh as ([[b' n'] js] & Hupd & Hh). injection Hh as <-.
    apply updateAfterHit_weak in Hupd as [-> [cs Hcs]].
    exists cell, next, cs, js. rewrite Hs. cbn. auto 10.
  - cbn [bind] in Hh. injection Hh as <-.
    exists cell, next, [], false. rewrite Hs. cbn.
    repeat split; try assumption; try lia; try apply Hu.
    apply (updatedAt_refl setSunk next). 
Qed.

(** An accepted shot on a well-formed board, cell by cell. *)
Lemma handleShot_accepted (st : AppState) (r c : Z) (cell : Cell) :
  wfBoard (st_board st) -> st_gameOver st = false ->
  getCell (st_board st) r c = Ok cell -> hit cell = false ->
  exists (st' : AppState) (next : Board) (justSunk : bool),
    handleShot st r c = Ok st' /\
    applyShot st r c = Ok (Changed next (hasShip cell) (shipId cell)) /\
    (hasShip cell = true ->
     updateAfterHit (st_sunk st) next (shipId cell) =
       Ok (st_board st', st_sunk st', justSunk)) /\
    (justSunk = true <->
     hasShip cell = true /\ falsy (shipId cell) = false /\
     allHit (st_board st') (shipId cell)) /\
    shape (st_board st') = shape (st_board st) /\
    (forall r' c' x, getCell (st_board st) r' c' = Ok x ->
       getCell (st_board st') r' c' =
       Ok (shotCell (r, c) cell justSunk (r', c') x)) /\
    st_placements st' = st_placements st /\
    st_shots st' = st_shots st + 1 /\
    st_hits st' = st_hits st + (if hasShip cell then 1 else 0) /\
    st_sunk st' = st_sunk st + (if justSunk then 1 else 0) /\
    st_gameOver st' = false /\
    st_reveal st' = st_reveal st.
Proof.
  intros Hwf Hg Hcell Hhit.
  destruct (applyShot_accepted st r c cell Hg Hcell Hhit) as (next & Ha & Hu).
  pose proof (updatedAt_wf _ _ _ _ Hu Hwf) as Hwfn.
  destruct Hu as [Hsn Hun].
  assert (Hnext : forall r' c' x, getCell (st_board st) r' c' = Ok x ->
            getCell next r' c' = Ok (shotCell (r, c) cell false (r', c') x)).
  { intros r' c' x Hx. rewrite (Hun _ _ _ Hx). f_equal. unfold shotCell.
    cbn [andb]. destruct (decide ((r', c') = (r, c))) as [Heq|Hne].
    - rewrite decide_True by (apply list_elem_of_singleton; exact Heq).
      reflexivity.
    - rewrite decide_False by (intros ?%list_elem_of_singleton; contradiction).
      destruct x; reflexivity. }
  unfold handleShot. rewrite Ha. cbn [bind].
  destruct (hasShip cell) eqn:Hs.
  - destruct (updateAfterHit_spec (st_sunk st) next (shipId cell) Hwfn)
      as (b' & js & Hupd & Hjs & Hsb & Hcells).
    rewrite Hupd. cbn [bind]. eexists _, next, js. cbn.
    split; [reflexivity|]. split; [reflexivity|]. split; [auto|].
    assert (Hfinal : forall r' c' x, getCell (st_board st) r' c' = Ok x ->
              getCell b' r' c' = Ok (shotCell (r, c) cell js (r', c') x)).
    { intros r' c' x Hx. rewrite (Hcells _ _ _ (Hnext _ _ _ Hx)). f_equal.
      unfold shotCell. cbn. destruct js; cbn; [|reflexivity].
      destruct (sameId (shipId x) (shipId cell)); reflexivity. }
    split; [|split; [exact (eq_trans Hsb Hsn) | split; [exact Hfinal | auto 10]]].
    rewrite Hjs. split.
    + intros [Hf Hall]. split; [reflexivity|]. split; [exact Hf|].
      intros r' c' x' Hx' Hid. cbn in Hx'.
      destruct (shape_getCell b' (st_board st) r' c' x') as [x Hx];
        [congruence | exact Hx' |].
      pose proof (Hnext _ _ _ Hx) as Hxn. pose proof (Hfinal _ _ _ Hx) as Hxf.
      assert (x' = shotCell (r, c) cell js (r', c') x) as -> by congruence.
      apply (Hall _ _ _ Hxn Hid).
    + intros (_ & Hf & Hall). split; [exact Hf|].
      intros r' c' x' Hx' Hid.
      destruct (shape_getCell next (st_board st) r' c' x') as [x Hx];
        [congruence | exact Hx' |].
      pose proof (Hnext _ _ _ Hx) as Hxn. pose proof (Hfinal _ _ _ Hx) as Hxf.
      assert (x' = shotCell (r, c) cell false (r', c') x) as -> by congruence.
      apply (Hall _ _ _ Hxf Hid).
  - eexists _, next, false. cbn.
    split; [reflexivity|]. split; [reflexivity|]. split; [discriminate|].
    split; [split; [discriminate | intros [Hx _]; discriminate Hx]|].
    split; [exact Hsn|]. split; [exact Hnext|].
    repeat split; cbn; try reflexivity; try assumption; lia.
Qed.

Lemma handleShot_total (st : AppState) (r c : Z) :
  wfBoard (st_board st) -> 0 <= r < GRID_SIZE -> 0 <= c < GRID_SIZE ->
  exists st', handleShot st r c = Ok st'.
Proof.
  intros Hwf Hr Hc.
  destruct (proj1 (wfBoard_getCell _ r c Hwf) (conj Hr Hc)) as [cell Hcell].
  destruct (st_gameOver st) eqn:Hg.
  { exists st. apply handleShot_rejected. auto. }
  destruct (hit cell) eqn:Hh.
  { exists st. apply handleShot_rejected. eauto. }
  destruct (handleShot_accepted st r c cell Hwf Hg Hcell Hh)
    as (st' & _ & _ & Hst' & _). eauto.
Qed.

(** ** The effect that ends the game *)

Lemma totalShipCells_value : totalShipCells = 17.
Proof. reflexivity. Qed.

Lemma gameOverEffect_fields (st : AppState) :
  st_board (gameOverEffect st) = st_board st /\
  st_placements (gameOverEffect st) = st_placements st /\
  st_shots (gameOverEffect st) = st_shots st /\
  st_hits (gameOverEffect st) = st_hits st /\
  st_sunk (gameOverEffect st) = st_sunk st /\
  st_reveal (gameOverEffect st) = st_reveal st.
Proof.
  unfold gameOverEffect, gameOverEffectWith.
  destruct (totalShipCells =? 0); [auto 10|].
  destruct (st_hits st <? totalShipCells); cbn; auto 10.
Qed.

Lemma gameOverEffect_gameOver (st : AppState) :
  st_gameOver (gameOverEffect st) =
  st_gameOver st || (totalShipCells <=? st_hits st).
Proof.
  unfold gameOverEffect, gameOverEffectWith. rewrite totalShipCells_value.
  cbn [Z.eqb].
  destruct (Z.ltb_spec (st_hits st) 17), (Z.leb_spec 17 (st_hits st));
    cbn; try lia; rewrite ?orb_false_r, ?orb_true_r; reflexivity.
Qed.

Lemma gameOverEffect_id (st : AppState) :
  st_gameOver st = true \/ st_hits st < totalShipCells ->
  gameOverEffect st = st.
Proof.
  unfold gameOverEffect, gameOverEffectWith. rewrite totalShipCells_value.
  cbn [Z.eqb]. intros Hst.
  destruct (Z.ltb_spec (st_hits st) 17) as [Hlt|Hge]; [reflexivity|].
  destruct Hst as [Hg|Hlt]; [|lia]. destruct st; cbn in *. congruence.
Qed.

Lemma gameOverEffect_idem (st : AppState) :
  gameOverEffect (gameOverEffect st) = gameOverEffect st.
Proof.
  apply gameOverEffect_id. rewrite gameOverEffect_gameOver.
  destruct (gameOverEffect_fields st) as (_ & _ & _ & -> & _).
  destruct (Z.leb_spec totalShipCells (st_hits st)) as [Hle|Hlt].
  - left. apply orb_true_r.
  - right. exact Hlt.
Qed.

(** The two versions of the source write the same effect. *)
Lemma gameOverEffectApp_eq (st : AppState) :
  gameOverEffectApp st = gameOverEffect st.
Proof.
  unfold gameOverEffectApp, gameOverEffect, gameOverEffectWith.
  rewrite totalShipCells_value. cbn [Z.eqb Z.ltb Z.compare andb].
  destruct (Z.leb_spec 17 (st_hits st)), (Z.ltb_spec (st_hits st) 17);
    cbn; try lia; reflexivity.
Qed.

(** ** Rejected shots *)

(** C3. A shot at a cell already hit, or any shot once the game is over, is
    rejected: [applyShot] reports no change and [handleShot] returns the very
    same state, so the board and the counters [shots], [hits], [sunk] are
    the ones before.  In particular, on a well-formed board a shot at an
    in-bounds cell returns, and the same shot repeated is rejected and
    leaves the state as it is. *)
Theorem rejected_shot_changes_nothing (st : AppState) (r c : Z) :
  (st_gameOver st = true \/
   (exists cell, getCell (st_board st) r c = Ok cell /\ hit cell = true) ->
   applyShot st r c = Ok (Unchanged (st_board st)) /\
   handleShot st r c = Ok st) /\
  (wfBoard (st_board st) -> 0 <= r < GRID_SIZE -> 0 <= c < GRID_SIZE ->
   exists st1,
     shoot st (r, c) = Ok st1 /\
     applyShot st1 r c = Ok (Unchanged (st_board st1)) /\
     handleShot st1 r c = Ok st1 /\
     shoot st1 (r, c) = Ok st1).
Proof.
  split; [apply handleShot_rejected|].
  intros Hwf Hr Hc.
  destruct (handleShot_total st r c Hwf Hr Hc) as [st' Hst'].
  exists (gameOverEffect st'). unfold shoot at 1. cbn [fst snd].
  rewrite Hst'. cbn [bind]. split; [reflexivity|].
  assert (Hrej : st_gameOver (gameOverEffect st') = true \/
                 exists cell, getCell (st_board (gameOverEffect st')) r c = Ok cell
                              /\ hit cell = true).
  { destruct (gameOverEffect_fields st') as (-> & _).
    rewrite gameOverEffect_gameOver.
    apply handleShot_weak in Hst'
      as [[-> [Hg | Hcell]] |
          (Hg & cell & next & cs & js & Hcell & Hh & [_ Hu1] & [_ Hu2] & _)].
    - left. rewrite Hg. reflexivity.
    - right. exact Hcell.
    - right. pose proof (Hu1 _ _ _ Hcell) as Hn.
      rewrite decide_True in Hn by apply list_elem_of_singleton, eq_refl.
      pose proof (Hu2 _ _ _ Hn) as Hf. eexists. split; [exact Hf|].
      destruct (decide ((r, c) ∈ cs)); reflexivity. }
  destruct (handleShot_rejected _ r c Hrej) as [Ha Hh].
  split; [exact Ha|]. split; [exact Hh|].
  unfold shoot. cbn [fst snd]. rewrite Hh. cbn [bind].
  rewrite gameOverEffect_idem. reflexivity.
Qed.

Lemma rejected_shot_changes_nothing_witness :
  exists st1,
    shoot (freshState createEmptyBoard ∅) (4, 2) = Ok st1 /\
    handleShot st1 4 2 = Ok st1.
Proof.
  destruct (proj2 (rejected_shot_changes_nothing
                     (freshState createEmptyBoard ∅) 4 2))
    as (st1 & Hs & _ & Hh & _).
  - exact createEmptyBoard_wf.
  - unfold GRID_SIZE. lia.
  - unfold GRID_SIZE. lia.
  - exists st1. split; assumption.
Defined.

(** ** Frame of an accepted shot *)

(** C7. An accepted shot changes the board only in the [hit] flag of the
    target cell and, when it sinks the ship of the target, in the [sunk]
    flags of the cells that carry that ship's id: [hasShip] and [shipId] are
    the same in every cell, [hit] is the same in every other cell, [sunk] is
    the same in every cell of another ship or of no ship, and the recorded
    placements are untouched. *)
Theorem accepted_shot_frame (st : AppState) (r c : Z) (cell : Cell) :
  wfBoard (st_board st) -> st_gameOver st = false ->
  getCell (st_board st) r c = Ok cell -> hit cell = false ->
  exists (st' : AppState) (justSunk : bool),
    handleShot st r c = Ok st' /\
    st_sunk st' = st_sunk st + (if justSunk then 1 else 0) /\
    (justSunk = true ->
     hasShip cell = true /\ falsy (shipId cell) = false /\
     allHit (st_board st') (shipId cell)) /\
    shape (st_board st') = shape (st_board st) /\
    st_placements st' = st_placements st /\
    forall r' c' x, getCell (st_board st) r' c' = Ok x ->
      exists x', getCell (st_board st') r' c' = Ok x' /\
        hasShip x' = hasShip x /\
        shipId x' = shipId x /\
        hit x' = (if decide ((r', c') = (r, c)) then true else hit x) /\
        sunk x' = (if justSunk && sameId (shipId x) (shipId cell) then true
                   else sunk x).
Proof.
  intros Hwf Hg Hcell Hhit.
  destruct (handleShot_accepted st r c cell Hwf Hg Hcell Hhit)
    as (st' & next & js & Hh & _ & _ & Hjs & Hs & Hcells & Hpl & _ & _ & Hsunk & _).
  exists st', js. split; [exact Hh|]. split; [exact Hsunk|].
  split; [apply Hjs|]. split; [exact Hs|]. split; [exact Hpl|].
  intros r' c' x Hx. eexists. split; [exact (Hcells _ _ _ Hx)|].
  unfold shotCell. cbn. auto.
Qed.

Lemma accepted_shot_frame_witness :
  exists st', handleShot (freshState createEmptyBoard ∅) 4 2 = Ok st'.
Proof.
  destruct (accepted_shot_frame (freshState createEmptyBoard ∅) 4 2 emptyCell)
    as (st' & _ & Hh & _).
  - exact createEmptyBoard_wf.
  - reflexivity.
  - reflexivity.
  - reflexivity.
  - exists st'. exact Hh.
Defined.

(** ** Monotonicity along a game *)

Lemma cellLe_refl (x : Cell) : cellLe x x.
Proof. unfold cellLe. auto. Qed.

Lemma cellLe_trans (x y z : Cell) : cellLe x y -> cellLe y z -> cellLe x z.
Proof.
  unfold cellLe. intros (H1 & H2 & H3 & H4) (H1' & H2' & H3' & H4').
  repeat split; [congruence | congruence | auto | auto].
Qed.

Lemma stateLe_refl (st : AppState) : stateLe st st.
Proof.
  unfold stateLe. repeat split; try lia; try auto.
  intros r c x Hx. exists x. split; [exact Hx | apply cellLe_refl].
Qed.

Lemma stateLe_trans (s1 s2 s3 : AppState) :
  stateLe s1 s2 -> stateLe s2 s3 -> stateLe s1 s3.
Proof.
  intros (Ha & Hb & Hc & Hd & He & Hf) (Ha' & Hb' & Hc' & Hd' & He' & Hf').
  unfold stateLe. repeat split; try lia; try auto; try congruence.
  intros r c x Hx. destruct (Hf _ _ _ Hx) as (y & Hy & Hxy).
  destruct (Hf' _ _ _ Hy) as (z & Hz & Hyz).
  exists z. split; [exact Hz | exact (cellLe_trans _ _ _ Hxy Hyz)].
Qed.

Lemma handleShot_stateLe (st : AppState) (r c : Z) (st' : AppState) :
  handleShot st r c = Ok st' -> stateLe st st'.
Proof.
  intros [[-> _] |
          (Hg & cell & next & cs & js & Hcell & Hh & [Hs1 Hu1] & [Hs2 Hu2]
           & _ & Hshots & Hhits & Hsunk & _)]%handleShot_weak;
    [apply stateLe_refl|].
  unfold stateLe. split; [lia|].
  split; [destruct (hasShip cell); lia|].
  split; [destruct js; lia|]. split; [congruence|].
  split; [congruence|].
  intros r' c' x Hx. pose proof (Hu2 _ _ _ (Hu1 _ _ _ Hx)) as Hx'.
  eexists. split; [exact Hx'|]. unfold cellLe.
  destruct (decide ((r', c') ∈ [(r, c)])), (decide ((r', c') ∈ cs));
    cbn; auto.
Qed.

Lemma gameOverEffect_stateLe (st : AppState) : stateLe st (gameOverEffect st).
Proof.
  destruct (gameOverEffect_fields st) as (Hb & _ & Hs & Hh & Hk & _).
  unfold stateLe. rewrite Hb, Hs, Hh, Hk, gameOverEffect_gameOver.
  repeat split; try lia; try auto.
  - intros ->. reflexivity.
  - intros r c x Hx. exists x. split; [exact Hx | apply cellLe_refl].
Qed.

Lemma shoot_stateLe (st : AppState) (rc : Coord) (st' : AppState) :
  shoot st rc = Ok st' -> stateLe st st'.
Proof.
  unfold shoot. intros (s1 & Hs1 & [= <-])%bind_Ok.
  exact (stateLe_trans _ _ _ (handleShot_stateLe _ _ _ _ Hs1)
           (gameOverEffect_stateLe s1)).
Qed.

Lemma run_stateLe (st : AppState) (shots : list Coord) (st' : AppState) :
  run st shots = Ok st' -> stateLe st st'.
Proof.
  revert st. induction shots as [|rc shots IH]; simpl; intros st Hr.
  - injection Hr as <-. apply stateLe_refl.
  - apply bind_Ok in Hr as (s1 & Hs1 & Hr).
    exact (stateLe_trans _ _ _ (shoot_stateLe _ _ _ Hs1) (IH _ Hr)).
Qed.

(** C8. Along any sequence of shots with no reset the counters [shots],
    [hits] and [sunk] do not decrease, and a cell whose [hit] or [sunk]
    flag is set keeps it set. *)
Theorem game_monotone (st : AppState) (shots : list Coord) (st' : AppState) :
  run st shots = Ok st' ->
  st_shots st <= st_shots st' /\
  st_hits st <= st_hits st' /\
  st_sunk st <= st_sunk st' /\
  forall r c x, getCell (st_board st) r c = Ok x ->
    exists x', getCell (st_board st') r c = Ok x' /\
               (hit x = true -> hit x' = true) /\
               (sunk x = true -> sunk x' = true).
Proof.
  intros (Ha & Hb & Hc & _ & _ & Hcells)%run_stateLe.
  split; [exact Ha|]. split; [exact Hb|]. split; [exact Hc|].
  intros r c x Hx. destruct (Hcells _ _ _ Hx) as (x' & Hx' & _ & _ & Hh & Hs).
  exists x'. auto.
Qed.

Lemma game_monotone_witness :
  exists st st',
    demoGame = Ok st /\ run st demoShots = Ok st' /\
    st_hits st <= st_hits st'.
Proof.
  destruct demoGame as [st|e] eqn:Hd; [|vm_compute in Hd; discriminate Hd].
  destruct (run st demoShots) as [st'|e] eqn:Hr.
  - exists st, st'. split; [reflexivity|]. split; [exact Hr|].
    exact (proj1 (proj2 (game_monotone st demoShots st' Hr))).
  - exfalso. revert Hr. vm_compute in Hd. injection Hd as <-.
    vm_compute. discriminate.
Defined.

(** ** The cell invariant *)

Lemma markShip_cellInv (sid : string) (x : Cell) : cellInv (markShip sid x).
Proof. unfold cellInv. cbn. split; [discriminate | reflexivity]. Qed.

Lemma updatedAt_markShip_boardInv (cs : list Coord) (sid : string)
  (board board' : Board) :
  updatedAt cs (markShip sid) board board' -> boardInv board -> boardInv board'.
Proof.
  intros Hu Hinv r c x' Hx'.
  destruct (updatedAt_getCell_inv _ _ _ _ _ _ _ Hu Hx') as (x & Hx & ->).
  destruct (decide ((r, c) ∈ cs)); [apply markShip_cellInv | exact (Hinv _ _ _ Hx)].
Qed.

Lemma stateLe_boardInv (st st' : AppState) :
  stateLe st st' -> boardInv (st_board st) -> boardInv (st_board st').
Proof.
  intros (_ & _ & _ & _ & Hs & Hcells) Hinv r c x' Hx'.
  destruct (shape_getCell _ (st_board st) r c x' Hs Hx') as [x Hx].
  destruct (Hcells _ _ _ Hx) as (y & Hy & Hship & Hid & _).
  assert (y = x') as -> by congruence.
  unfold cellInv. rewrite Hship, Hid. exact (Hinv _ _ _ Hx).
Qed.

Lemma buildBoard_boardInv (rng : nat -> Z) (pos : nat) (board : Board)
  (placements : gmap string (list Coord)) (pos' : nat) :
  buildBoard rng pos = Ok (board, placements, pos') -> boardInv board.
Proof.
  unfold buildBoard. intros Hb.
  destruct (placeShips_spec rng _ _ _ _ _ _ _ Hb (placedOn_empty _))
    as (_ & Hs & _ & _ & _ & Hcells).
  intros r c x' Hx'.
  destruct (shape_getCell _ createEmptyBoard r c x' Hs Hx') as [x Hx].
  destruct (Hcells _ _ _ Hx) as (y & Hy & Hy').
  assert (y = x') as -> by congruence.
  apply createEmptyBoard_cell in Hx as ->.
  destruct Hy' as [-> | (ship & _ & ->)]; [|apply markShip_cellInv].
  unfold cellInv. cbn. split; [discriminate | congruence].
Qed.

(** C10. [hasShip] is set exactly when [shipId] is not [null], in every
    cell, after every operation: it holds on the empty board; [writeShip]
    and [placeShip] keep it; it holds on every board [buildBoard] returns,
    hence in the first state and after [resetGame]; and [handleShot] leaves
    [hasShip] and [shipId] of every cell as they were. *)
Theorem cell_invariant_preserved :
  boardInv createEmptyBoard /\
  (forall board r0 c0 dir ship board' coords,
     writeShip board r0 c0 dir ship = Ok (board', coords) ->
     boardInv board -> boardInv board') /\
  (forall rng board ship pos board' coords pos',
     placeShip rng board ship pos = Ok (board', coords, pos') ->
     boardInv board -> boardInv board') /\
  (forall rng pos board placements pos',
     buildBoard rng pos = Ok (board, placements, pos') -> boardInv board) /\
  (forall rng pos st pos',
     newGame rng pos = Ok (st, pos') \/ resetGame rng pos = Ok (st, pos') ->
     boardInv (st_board st)) /\
  (forall st r c st',
     handleShot st r c = Ok st' ->
     (forall r' c' x, getCell (st_board st) r' c' = Ok x ->
        exists x', getCell (st_board st') r' c' = Ok x' /\
                   hasShip x' = hasShip x /\ shipId x' = shipId x) /\
     (boardInv (st_board st) -> boardInv (st_board st'))).
Proof.
  split; [|split; [|split; [|split; [|split]]]].
  - intros r c x ->%createEmptyBoard_cell. unfold cellInv. cbn.
    split; [discriminate | congruence].
  - intros board r0 c0 dir ship board' coords Hw.
    unfold writeShip in Hw. apply writeLoop_spec in Hw as [_ Hu].
    exact (updatedAt_markShip_boardInv _ _ _ _ Hu).
  - intros rng board ship pos board' coords pos' Hp.
    apply placeShip_spec in Hp as (r0 & c0 & dir & _ & _ & Hu & _).
    exact (updatedAt_markShip_boardInv _ _ _ _ Hu).
  - exact buildBoard_boardInv.
  - intros rng pos st pos' Hn.
    assert (Hb : exists board placements,
               buildBoard rng pos = Ok (board, placements, pos') /\
               st = freshState board placements).
    { unfold newGame, resetGame in Hn.
      destruct Hn as [Hn|Hn];
        apply bind_Ok in Hn as ([[b pl] p] & Hb & [= <- <-]); eauto. }
    destruct Hb as (board & placements & Hb & ->). cbn.
    exact (buildBoard_boardInv _ _ _ _ _ Hb).
  - intros st r c st' Hh. pose proof (handleShot_stateLe _ _ _ _ Hh) as Hle.
    split; [|exact (stateLe_boardInv _ _ Hle)].
    intros r' c' x Hx. destruct Hle as (_ & _ & _ & _ & _ & Hcells).
    destruct (Hcells _ _ _ Hx) as (x' & Hx' & Hship & Hid & _). eauto.
Qed.

Lemma cell_invariant_preserved_witness :
  exists board placements pos',
    buildBoard (replay demoDraws) 0 = Ok (board, placements, pos') /\
    boardInv board.
Proof.
  destruct (buildBoard (replay demoDraws) 0) as [[[b pl] p]|e] eqn:Hb.
  - exists b, pl, p. split; [reflexivity|].
    exact (proj1 (proj2 (proj2 (proj2 cell_invariant_preserved))) _ _ _ _ _ Hb).
  - vm_compute in Hb. discriminate Hb.
Defined.

(** ** Winning *)


Lemma fresh_effect (board : Board) (placements : gmap string (list Coord)) :
  gameOverEffect (freshState board placements) = freshState board placements.
Proof. apply gameOverEffect_id. right. reflexivity. Qed.

Lemma newGame_fresh (rng : nat -> Z) (pos : nat) (st : AppState) (pos' : nat) :
  newGame rng pos = Ok (st, pos') \/ resetGame rng pos = Ok (st, pos') ->
  exists board placements, st = freshState board placements.
Proof.
  unfold newGame, resetGame.
  intros [Hn|Hn]; apply bind_Ok in Hn as ([[b pl] p] & _ & [= <- <-]); eauto.
Qed.

(** In every state of a game, at most 17 hits are counted and the game is
    over exactly when they are 17. *)
Lemma reachable_hits (rng : nat -> Z) (st : AppState) :
  reachable rng st ->
  0 <= st_hits st <= totalShipCells /\
  (st_gameOver st = true <-> st_hits st = totalShipCells).
Proof.
  rewrite totalShipCells_value.
  induction 1 as [pos st pos' Hn | st r c st' Hreach IH Hh
                 | st pos st' pos' Hreach IH Hn].
  - destruct (newGame_fresh rng pos st pos') as (b & pl & ->); [auto|].
    rewrite fresh_effect. cbn. split; [lia|]. split; [discriminate | lia].
  - destruct (gameOverEffect_fields st') as (_ & _ & _ & -> & _).
    rewrite gameOverEffect_gameOver, totalShipCells_value.
    destruct IH as [Hrange Hiff].
    apply handleShot_weak in Hh
      as [[-> _] |
          (Hg & cell & _ & _ & _ & _ & _ & _ & _ & _ & _ & Hhits & _ & Hg' & _)].
    + split; [exact Hrange|]. rewrite orb_true_iff, Z.leb_le, Hiff. lia.
    + assert (st_hits st <> 17) by (rewrite <- Hiff; congruence).
      rewrite Hg', orb_false_l, Z.leb_le.
      destruct (hasShip cell); lia.
  - destruct (newGame_fresh rng pos st' pos') as (b & pl & ->); [auto|].
    rewrite fresh_effect. cbn. split; [lia|]. split; [discriminate | lia].
Qed.

Lemma run_reachable (rng : nat -> Z) (st : AppState) (shots : list Coord)
  (st' : AppState) :
  reachable rng st -> run st shots = Ok st' -> reachable rng st'.
Proof.
  revert st. induction shots as [|[r c] shots IH]; simpl; intros st Hreach Hr.
  - injection Hr as <-. exact Hreach.
  - apply bind_Ok in Hr as (s1 & Hs1 & Hr). apply (IH s1); [|exact Hr].
    unfold shoot in Hs1. apply bind_Ok in Hs1 as (s0 & Hs0 & [= <-]).
    exact (reach_shot rng st r c s0 Hreach Hs0).
Qed.

Lemma run_gameOver (st : AppState) (shots : list Coord) :
  st_gameOver st = true -> run st shots = Ok st.
Proof.
  intros Hg. induction shots as [|[r c] shots IH]; simpl; [reflexivity|].
  unfold shoot. cbn [fst snd].
  destruct (handleShot_rejected st r c) as [_ ->]; [auto|]. cbn [bind].
  rewrite gameOverEffect_id by auto. exact IH.
Qed.

(** The demonstration game is won with 17 hits. *)
Lemma gameOver_at_17_not_20 :
  exists st,
    demoFinal = Ok st /\ reachable (replay demoDraws) st /\
    st_gameOver st = true /\ st_hits st = 17 /\ st_hits st <> 20.
Proof.
  unfold demoFinal.
  destruct demoGame as [st0|e] eqn:Hd; [|vm_compute in Hd; discriminate Hd].
  cbn [bind].
  assert (Hreach0 : reachable (replay demoDraws) st0).
  { unfold demoGame in Hd.
    apply bind_Ok in Hd as ([s p] & Hn & [= <-]).
    exact (reach_new _ _ _ _ Hn). }
  destruct (run st0 demoShots) as [st|e] eqn:Hr.
  - exists st. split; [reflexivity|].
    split; [exact (run_reachable _ _ _ _ Hreach0 Hr)|].
    revert Hr. vm_compute in Hd. injection Hd as <-.
    vm_compute. intros [= <-]. repeat split; discriminate.
  - exfalso. revert Hr. vm_compute in Hd. injection Hd as <-.
    vm_compute. discriminate.
Qed.

(** C1, as the code has it. In every state of a game [gameOver] is set
    exactly when the hit count is 17, the number of ship cells (it never
    exceeds 17, so it is never 20); once set, every later shot leaves the
    state as it is, [gameOver] included; and [resetGame] clears it.  The
    effect of src/App.jsx is the same function. *)
Theorem gameOver_iff_all_ship_cells_hit (rng : nat -> Z) (st : AppState) :
  reachable rng st ->
  (st_gameOver st = true <-> st_hits st = 17) /\
  0 <= st_hits st <= 17 /\
  (st_gameOver st = true ->
   forall shots, run st shots = Ok st) /\
  (forall pos st' pos',
     resetGame rng pos = Ok (st', pos') ->
     st_gameOver (gameOverEffect st') = false /\
     st_hits (gameOverEffect st') = 0) /\
  gameOverEffectApp st = gameOverEffect st.
Proof.
  intros Hreach.
  destruct (reachable_hits rng st Hreach) as [Hrange Hiff].
  rewrite totalShipCells_value in *.
  split; [exact Hiff|]. split; [exact Hrange|].
  split; [intros Hg shots; exact (run_gameOver st shots Hg)|].
  split; [|apply gameOverEffectApp_eq].
  intros pos st' pos' Hn.
  destruct (newGame_fresh rng pos st' pos') as (b & pl & ->); [auto|].
  rewrite fresh_effect. split; reflexivity.
Qed.

Lemma gameOver_iff_all_ship_cells_hit_witness :
  exists st,
    demoGame = Ok st /\ (st_gameOver st = true <-> st_hits st = 17).
Proof.
  destruct demoGame as [st0|e] eqn:Hd; [|vm_compute in Hd; discriminate Hd].
  exists st0. split; [reflexivity|].
  refine (proj1 (gameOver_iff_all_ship_cells_hit (replay demoDraws) st0 _)).
  unfold demoGame in Hd. apply bind_Ok in Hd as ([s p] & Hn & [= <-]).
  exact (reach_new _ _ _ _ Hn).
Defined.



(** ** Counting the hits *)

Lemma getCell_nat (board : Board) (i j : nat) (row : list Cell) (x : Cell) :
  board !! i = Some row -> row !! j = Some x ->
  getCell board (Z.of_nat i) (Z.of_nat j) = Ok x.
Proof.
  intros Hrow Hx. apply getCell_Ok. exists row.
  split; apply at_index_Some; rewrite Nat2Z.id; split; (lia || assumption).
Qed.

Lemma sum_list_with_ext2 {A B : Type} (f : A -> nat) (g : B -> nat)
  (l : list A) (l' : list B) :
  length l = length l' ->
  (forall i x y, l !! i = Some x -> l' !! i = Some y -> f x = g y) ->
  sum_list_with f l = sum_list_with g l'.
Proof.
  revert l'. induction l as [|x l IH]; intros [|y l'] Hlen Hall;
    simpl in *; try discriminate; [reflexivity|].
  rewrite (Hall 0%nat x y eq_refl eq_refl). f_equal.
  apply IH; [lia|]. intros i x' y' Hx' Hy'. exact (Hall (S i) x' y' Hx' Hy').
Qed.

Lemma countWith_ext (v : Cell -> nat) (board board' : Board) :
  shape board' = shape board ->
  (forall r c x x', getCell board r c = Ok x -> getCell board' r c = Ok x' ->
                    v x' = v x) ->
  countWith v board' = countWith v board.
Proof.
  intros Hs Hcells. unfold countWith. apply sum_list_with_ext2.
  - unfold shape in Hs. rewrite <- (length_fmap length board'), Hs.
    apply length_fmap.
  - intros i row' row Hrow' Hrow. apply sum_list_with_ext2.
    + unfold shape in Hs.
      assert (Hl : (length <$> board') !! i = Some (length row'))
        by (rewrite list_lookup_fmap, Hrow'; reflexivity).
      rewrite Hs, list_lookup_fmap, Hrow in Hl. injection Hl as Hl. lia.
    + intros j x' x Hx' Hx.
      exact (Hcells _ _ _ _ (getCell_nat _ _ _ _ _ Hrow Hx)
               (getCell_nat _ _ _ _ _ Hrow' Hx')).
Qed.

Lemma sum_list_with_zero {A : Type} (f : A -> nat) (l : list A) :
  (forall x, x ∈ l -> f x = 0%nat) -> sum_list_with f l = 0%nat.
Proof.
  induction l as [|x l IH]; simpl; intros Hall; [reflexivity|].
  rewrite (Hall x) by (apply elem_of_cons; auto).
  apply IH. intros y Hy. apply Hall, elem_of_cons. auto.
Qed.

Lemma sum_list_with_le {A : Type} (f g : A -> nat) (l : list A) :
  (forall x, (f x <= g x)%nat) ->
  (sum_list_with f l <= sum_list_with g l)%nat /\
  (sum_list_with f l = sum_list_with g l -> forall x, x ∈ l -> f x = g x).
Proof.
  intros Hle. induction l as [|y l [IH1 IH2]]; simpl.
  - split; [lia|]. intros _ x Hx. inversion Hx.
  - pose proof (Hle y). split; [lia|].
    intros Heq x [->|Hx]%elem_of_cons; [lia|]. apply IH2; [lia | exact Hx].
Qed.

Lemma elem_getCell (board : Board) (row : list Cell) (x : Cell) :
  row ∈ board -> x ∈ row -> exists r c, getCell board r c = Ok x.
Proof.
  intros [i Hi]%list_elem_of_lookup_1 [j Hj]%list_elem_of_lookup_1.
  exists (Z.of_nat i), (Z.of_nat j). exact (getCell_nat _ _ _ _ _ Hi Hj).
Qed.

Lemma getCell_elem (board : Board) (r c : Z) (x : Cell) :
  getCell board r c = Ok x -> exists row, row ∈ board /\ x ∈ row.
Proof.
  intros (row & [_ Hrow]%at_index_Some & [_ Hx]%at_index_Some)%getCell_Ok.
  exists row. split; eapply list_elem_of_lookup_2; eassumption.
Qed.

Lemma countWith_zero (v : Cell -> nat) (board : Board) :
  (forall r c x, getCell board r c = Ok x -> v x = 0%nat) ->
  countWith v board = 0%nat.
Proof.
  intros Hall. unfold countWith. apply sum_list_with_zero. intros row Hrow.
  apply sum_list_with_zero. intros x Hx.
  destruct (elem_getCell board row x Hrow Hx) as (r & c & Hg).
  exact (Hall _ _ _ Hg).
Qed.

Lemma hitValue_le (x : Cell) : (hitValue x <= shipValue x)%nat.
Proof. unfold hitValue, shipValue. destruct (hasShip x), (hit x); simpl; lia. Qed.

Lemma countHits_le (board : Board) : (countHits board <= countShips board)%nat.
Proof.
  unfold countHits, countShips, countWith.
  etransitivity;
    [apply (sum_list_with_le _ (sum_list_with shipValue));
     intros row; apply (sum_list_with_le hitValue shipValue), hitValue_le
    | reflexivity].
Qed.

(** When as many ship cells are hit as there are ship cells, every ship cell
    is hit. *)
Lemma countHits_full (board : Board) (r c : Z) (x : Cell) :
  countHits board = countShips board ->
  getCell board r c = Ok x -> hasShip x = true -> hit x = true.
Proof.
  unfold countHits, countShips, countWith. intros Heq Hg Hs.
  destruct (getCell_elem _ _ _ _ Hg) as (row & Hrow & Hx).
  assert (Hrows : forall row,
            (sum_list_with hitValue row <= sum_list_with shipValue row)%nat).
  { intros l. apply (sum_list_with_le hitValue shipValue), hitValue_le. }
  pose proof (proj2 (sum_list_with_le _ _ board Hrows) Heq row Hrow) as Hr.
  pose proof (proj2 (sum_list_with_le hitValue shipValue row hitValue_le)
                Hr x Hx) as Hv.
  unfold hitValue, shipValue in Hv. rewrite Hs in Hv.
  destruct (hit x); [reflexivity | discriminate Hv].
Qed.

Lemma applyShot_next (st : AppState) (r c : Z) (next : Board) (w : bool)
  (sid : option string) :
  applyShot st r c = Ok (Changed next w sid) ->
  updCell (st_board st) r c setHit = Ok next.
Proof.
  unfold applyShot. destruct (st_gameOver st); [discriminate|].
  intros (cell & _ & Ha)%bind_Ok. destruct (hit cell); [discriminate|].
  apply bind_Ok in Ha as (n & Hn & Ha). rewrite cloneBoard_id in Hn.
  apply bind_Ok in Ha as (x & _ & [= <- _ _]). exact Hn.
Qed.

(** ** The invariant of a game *)

Lemma SHIPS_id_nonempty (ship : ShipSpec) :
  ship ∈ SHIPS -> falsy (Some (id ship)) = false.
Proof.
  intros H1%list_elem_of_In. simpl in H1.
  destruct H1 as [<-|[<-|[<-|[<-|[<-|[]]]]]]; reflexivity.
Qed.

Lemma buildBoard_gameInv (rng : nat -> Z) (pos : nat) (board : Board)
  (placements : gmap string (list Coord)) (pos' : nat) :
  buildBoard rng pos = Ok (board, placements, pos') ->
  gameInv board /\ countShips board = 17%nat /\ countHits board = 0%nat.
Proof.
  intros Hb.
  destruct (buildBoard_fleet_layout_aux rng pos board placements pos' Hb)
    as (Hwf & Hcnt & Hcells).
  assert (Hhit : forall r c x, getCell board r c = Ok x -> hit x = false).
  { intros r c x Hx. destruct (Hcells _ _ _ Hx) as [-> | (s & _ & ->)];
      reflexivity. }
  split; [|split; [exact Hcnt|]].
  - split; [exact Hwf|]. intros r c x Hx.
    pose proof (Hhit _ _ _ Hx) as Hh.
    destruct (Hcells _ _ _ Hx) as [-> | (s & Hs & ->)].
    + cbn. split; [discriminate|]. split; [reflexivity|].
      split; [discriminate | intros [Hf _]; discriminate Hf].
    + cbn [markShip hasShip shipId sunk emptyCell].
      split; [intros _; exact (SHIPS_id_nonempty s Hs)|].
      split; [discriminate|]. split; [discriminate|].
      intros [_ Hall]. rewrite <- Hh. exact (Hall _ _ _ Hx eq_refl).
  - apply countWith_zero. intros r c x Hx. unfold hitValue.
    rewrite (Hhit _ _ _ Hx), andb_false_r. reflexivity.
Qed.

(** The board after an accepted shot satisfies the invariant again. *)
Lemma shot_gameInv (board board' : Board) (r c : Z) (cell : Cell)
  (justSunk : bool) :
  gameInv board ->
  getCell board r c = Ok cell -> hit cell = false ->
  shape board' = shape board ->
  (forall r' c' x, getCell board r' c' = Ok x ->
     getCell board' r' c' = Ok (shotCell (r, c) cell justSunk (r', c') x)) ->
  (justSunk = true <->
   hasShip cell = true /\ falsy (shipId cell) = false /\
   allHit board' (shipId cell)) ->
  gameInv board'.
Proof.
  intros [Hwf Hinv] Hcell Hhit Hs Hcells Hjs.
  split; [unfold wfBoard in *; congruence|].
  assert (Hback : forall r' c' x', getCell board' r' c' = Ok x' ->
            exists x, getCell board r' c' = Ok x /\
                      x' = shotCell (r, c) cell justSunk (r', c') x).
  { intros r' c' x' Hx'.
    destruct (shape_getCell _ board r' c' x' Hs Hx') as [x Hx].
    exists x. split; [exact Hx|]. pose proof (Hcells _ _ _ Hx). congruence. }
  assert (Hother : forall s, s <> shipId cell ->
            (allHit board' s <-> allHit board s)).
  { intros s Hne. split.
    - intros Hall r' c' x Hx Hid.
      pose proof (Hall _ _ _ (Hcells _ _ _ Hx) Hid) as Hh. cbn in Hh.
      destruct (decide ((r', c') = (r, c))) as [[= -> ->]|_]; [|exact Hh].
      exfalso. apply Hne. congruence.
    - intros Hall r' c' x' Hx' Hid.
      destruct (Hback _ _ _ Hx') as (x & Hx & ->). cbn in Hid |- *.
      rewrite (Hall _ _ _ Hx Hid). destruct (decide _); reflexivity. }
  intros r' c' x' Hx'. destruct (Hback _ _ _ Hx') as (x & Hx & ->).
  destruct (Hinv _ _ _ Hx) as (Hi1 & Hi2 & Hi3).
  destruct (Hinv _ _ _ Hcell) as (Hc1 & Hc2 & Hc3).
  cbn [shotCell hasShip shipId sunk].
  split; [exact Hi1|]. split; [exact Hi2|].
  destruct (sameId (shipId x) (shipId cell)) eqn:Hsame.
  - apply sameId_true in Hsame. rewrite Hsame.
    destruct (hasShip x) eqn:Hsx.
    + assert (Hsc : hasShip cell = true).
      { destruct (hasShip cell) eqn:Hsc; [reflexivity|].
        specialize (Hi1 eq_refl). rewrite Hsame, (Hc2 eq_refl) in Hi1.
        discriminate Hi1. }
      destruct justSunk; cbn [andb].
      * split; [intros _|reflexivity]. split; [reflexivity|].
        apply Hjs. reflexivity.
      * rewrite Hi3, Hsame. split.
        -- intros [_ Hall]. exfalso.
           pose proof (Hall _ _ _ Hcell eq_refl). congruence.
        -- intros [_ Hall]. exfalso.
           assert (false = true); [|discriminate].
           apply Hjs. auto.
    + assert (Hnone : shipId cell = None) by (rewrite <- Hsame; auto).
      assert (justSunk = false) as ->.
      { destruct justSunk; [|reflexivity].
        destruct (proj1 Hjs eq_refl) as (_ & Hf & _).
        rewrite Hnone in Hf. discriminate Hf. }
      cbn [andb]. rewrite Hi3. split; intros [Hf _]; discriminate Hf.
  - rewrite andb_false_r, Hi3.
    assert (Hne : shipId x <> shipId cell).
    { intros Heq. apply sameId_true in Heq. congruence. }
    rewrite (Hother _ Hne). reflexivity.
Qed.

Lemma shot_counts (st : AppState) (r c : Z) (cell : Cell) (next : Board)
  (board' : Board) (justSunk : bool) :
  getCell (st_board st) r c = Ok cell -> hit cell = false ->
  applyShot st r c = Ok (Changed next (hasShip cell) (shipId cell)) ->
  shape board' = shape (st_board st) ->
  (forall r' c' x, getCell (st_board st) r' c' = Ok x ->
     getCell board' r' c' = Ok (shotCell (r, c) cell justSunk (r', c') x)) ->
  countShips board' = countShips (st_board st) /\
  countHits board' =
    (countHits (st_board st) + (if hasShip cell then 1 else 0))%nat.
Proof.
  intros Hcell Hhit Ha Hs Hcells. split.
  - apply countWith_ext; [exact Hs|]. intros r' c' x x' Hx Hx'.
    rewrite (Hcells _ _ _ Hx) in Hx'. injection Hx' as <-. reflexivity.
  - apply applyShot_next in Ha.
    pose proof (updCell_updatedAt _ _ _ _ _ Ha) as [Hsn Hun].
    apply updCell_Ok in Ha as (row & old & Hrow & Hold & ->).
    assert (old = cell) as ->.
    { assert (getCell (st_board st) r c = Ok old)
        by (apply getCell_Ok; eauto). congruence. }
    pose proof (countWith_putCell hitValue _ _ _ _ _ (setHit cell) Hrow Hold)
      as Hcnt.
    assert (Hsame : countHits board' =
                    countHits (putCell (st_board st) r c row (setHit cell))).
    { apply countWith_ext; [congruence|]. intros r' c' y y' Hy Hy'.
      destruct (shape_getCell _ (st_board st) r' c' y Hsn Hy) as [x Hx].
      rewrite (Hun _ _ _ Hx) in Hy. rewrite (Hcells _ _ _ Hx) in Hy'.
      injection Hy as <-. injection Hy' as <-. unfold hitValue, shotCell. cbn.
      destruct (decide ((r', c') = (r, c))) as [Heq|Hne].
      - rewrite decide_True by (apply list_elem_of_singleton; exact Heq).
        reflexivity.
      - rewrite decide_False
          by (intros ?%list_elem_of_singleton; contradiction).
        reflexivity. }
    assert (Hv0 : hitValue cell = 0%nat)
      by (unfold hitValue; rewrite Hhit, andb_false_r; reflexivity).
    assert (Hv1 : hitValue (setHit cell) = if hasShip cell then 1%nat else 0%nat)
      by (unfold hitValue; cbn; rewrite andb_true_r; reflexivity).
    rewrite Hv0, Hv1 in Hcnt. rewrite Hsame. unfold countHits. lia.
Qed.

Lemma sessionInv_effect_id (st : AppState) :
  sessionInv st -> gameOverEffect st = st.
Proof.
  intros (_ & Hc & Hh & Hg). apply gameOverEffect_id.
  rewrite totalShipCells_value.
  pose proof (countHits_le (st_board st)).
  destruct (decide (st_hits st = 17)) as [H17|H17]; [left; tauto | right; lia].
Qed.

Lemma handleShot_sessionInv (st : AppState) (r c : Z) (st' : AppState) :
  sessionInv st -> handleShot st r c = Ok st' ->
  sessionInv (gameOverEffect st').
Proof.
  intros Hinv Hh. pose proof Hh as Hh0.
  apply handleShot_weak in Hh
    as [[-> _] | (Hg & cell & _ & _ & _ & Hcell & Hhit & _)].
  { rewrite (sessionInv_effect_id st Hinv). exact Hinv. }
  destruct Hinv as (Hgi & Hc17 & Hhits & Hover).
  destruct (handleShot_accepted st r c cell (proj1 Hgi) Hg Hcell Hhit)
    as (s & next & js & Hs & Ha & _ & Hjs & Hshape & Hcells & _ & _ & Hh' & _
        & Hg' & _).
  assert (s = st') as -> by congruence.
  destruct (shot_counts st r c cell next (st_board st') js
              Hcell Hhit Ha Hshape Hcells) as [Hcs Hch].
  destruct (gameOverEffect_fields st') as (Hb & _ & _ & Hhe & _).
  unfold sessionInv. rewrite Hb, Hhe, gameOverEffect_gameOver, Hg'.
  rewrite totalShipCells_value, orb_false_l, Z.leb_le.
  split; [exact (shot_gameInv _ _ r c cell js Hgi Hcell Hhit Hshape Hcells Hjs)|].
  split; [congruence|].
  pose proof (countHits_le (st_board st')).
  assert (Z.of_nat (countHits (st_board st')) = st_hits st').
  { rewrite Hch, Hh', <- Hhits. destruct (hasShip cell); lia. }
  split; [assumption | lia].
Qed.

Lemma fresh_sessionInv (rng : nat -> Z) (pos : nat) (st : AppState)
  (pos' : nat) :
  newGame rng pos = Ok (st, pos') \/ resetGame rng pos = Ok (st, pos') ->
  sessionInv (gameOverEffect st).
Proof.
  intros Hn.
  assert (Hb : exists board placements,
             buildBoard rng pos = Ok (board, placements, pos') /\
             st = freshState board placements).
  { unfold newGame, resetGame in Hn.
    destruct Hn as [Hn|Hn];
      apply bind_Ok in Hn as ([[b pl] p] & Hb & [= <- <-]); eauto. }
  destruct Hb as (board & placements & Hb & ->). rewrite fresh_effect.
  destruct (buildBoard_gameInv _ _ _ _ _ Hb) as (Hgi & Hc & Hh).
  unfold sessionInv. cbn [st_board st_hits st_gameOver freshState]. rewrite Hh.
  split; [exact Hgi|]. split; [exact Hc|]. split; [reflexivity|].
  split; [discriminate | lia].
Qed.

Lemma reachable_sessionInv (rng : nat -> Z) (st : AppState) :
  reachable rng st -> sessionInv st.
Proof.
  induction 1 as [pos st pos' Hn | st r c st' _ IH Hh
                 | st pos st' pos' _ _ Hn].
  - apply (fresh_sessionInv rng pos st pos'). auto.
  - exact (handleShot_sessionInv st r c st' IH Hh).
  - apply (fresh_sessionInv rng pos st' pos'). auto.
Qed.

(** ** Hits on ship cells do not depend on the order of the shots *)

Lemma shoot_ship_hit (st : AppState) (r0 c0 : Z) (s1 : AppState) (r c : Z)
  (x x1 : Cell) :
  sessionInv st -> shoot st (r0, c0) = Ok s1 ->
  getCell (st_board st) r c = Ok x -> getCell (st_board s1) r c = Ok x1 ->
  hasShip x = true ->
  (hit x1 = true <-> hit x = true \/ (r, c) = (r0, c0)).
Proof.
  intros Hinv Hs Hx Hx1 Hship. unfold shoot in Hs. cbn [fst snd] in Hs.
  apply bind_Ok in Hs as (s' & Hs' & [= <-]).
  destruct (gameOverEffect_fields s') as (Hb & _). rewrite Hb in Hx1.
  apply handleShot_weak in Hs'
    as [[-> Hrej] |
        (Hg & cell & next & cs & js & Hcell & Hh & [_ Hu1] & [_ Hu2] & _)].
  - assert (x1 = x) as -> by congruence. split; [auto|].
    intros [Hhit | [= -> ->]]; [exact Hhit|].
    destruct Hrej as [Hg | (cell & Hcell & Hh)]; [|congruence].
    destruct Hinv as (_ & Hc17 & Hhits & Hover).
    apply (countHits_full (st_board st) r0 c0 x); [|exact Hx | exact Hship].
    apply Hover in Hg. lia.
  - pose proof (Hu2 _ _ _ (Hu1 _ _ _ Hx)) as Hx1'.
    rewrite Hx1 in Hx1'. injection Hx1' as ->.
    destruct (decide ((r, c) ∈ [(r0, c0)])) as [Hin|Hin].
    + apply list_elem_of_singleton in Hin.
      split; [auto|]. intros _. destruct (decide ((r, c) ∈ cs)); reflexivity.
    + assert ((r, c) <> (r0, c0))
        by (intros Heq; apply Hin, list_elem_of_singleton; exact Heq).
      destruct (decide ((r, c) ∈ cs)); cbn; tauto.
Qed.

Lemma run_ship_hit (rng : nat -> Z) (st : AppState) (shots : list Coord)
  (st' : AppState) (r c : Z) (x x' : Cell) :
  reachable rng st -> run st shots = Ok st' ->
  getCell (st_board st) r c = Ok x -> getCell (st_board st') r c = Ok x' ->
  hasShip x = true ->
  (hit x' = true <-> hit x = true \/ (r, c) ∈ shots).
Proof.
  revert st x. induction shots as [|[r0 c0] shots IH]; simpl;
    intros st x Hreach Hr Hx Hx' Hship.
  - injection Hr as <-. assert (x' = x) as -> by congruence.
    split; [auto|]. intros [Hh|Hin]; [exact Hh | inversion Hin].
  - apply bind_Ok in Hr as (s1 & Hs1 & Hr).
    pose proof (shoot_stateLe _ _ _ Hs1) as (_ & _ & _ & _ & _ & Hcells).
    destruct (Hcells _ _ _ Hx) as (x1 & Hx1 & Hship1 & _).
    assert (Hreach1 : reachable rng s1).
    { apply (run_reachable rng st [(r0, c0)]); [exact Hreach|].
      simpl. rewrite Hs1. reflexivity. }
    rewrite (IH s1 x1 Hreach1 Hr Hx1 Hx') by congruence.
    rewrite (shoot_ship_hit st r0 c0 s1 r c x x1
               (reachable_sessionInv _ _ Hreach) Hs1 Hx Hx1 Hship).
    rewrite elem_of_cons. tauto.
Qed.

Lemma cell_eq (x y : Cell) :
  hasShip x = hasShip y -> hit x = hit y -> shipId x = shipId y ->
  sunk x = sunk y -> x = y.
Proof. destruct x, y. cbn. intros -> -> -> ->. reflexivity. Qed.

Lemma bool_eq_iff (a b : bool) : (a = true <-> b = true) -> a = b.
Proof. destruct a, b; intros [H1 H2]; auto; symmetry; auto. Qed.

(** Two runs from the same state whose shots cover the same cells give
    every ship cell the same final state. *)
Lemma run_same_cells (rng : nat -> Z) (st : AppState) (l1 l2 : list Coord)
  (s1 s2 : AppState) (r c : Z) (x1 : Cell) :
  reachable rng st ->
  (forall rc, rc ∈ l1 <-> rc ∈ l2) ->
  run st l1 = Ok s1 -> run st l2 = Ok s2 ->
  getCell (st_board s1) r c = Ok x1 -> hasShip x1 = true ->
  getCell (st_board s2) r c = Ok x1.
Proof.
  intros Hreach Hsame Hr1 Hr2 Hx1 Hship1.
  pose proof (run_stateLe _ _ _ Hr1) as (_ & _ & _ & _ & Hsh1 & Hc1).
  pose proof (run_stateLe _ _ _ Hr2) as (_ & _ & _ & _ & Hsh2 & Hc2).
  pose proof (reachable_sessionInv _ _ Hreach) as ([_ Hgi] & _).
  pose proof (reachable_sessionInv _ _ (run_reachable _ _ _ _ Hreach Hr1))
    as ([_ Hgi1] & _).
  pose proof (reachable_sessionInv _ _ (run_reachable _ _ _ _ Hreach Hr2))
    as ([_ Hgi2] & _).
  (* the hit flag of a ship cell is the same in both final boards *)
  assert (Hhits : forall r' c' y y1 y2,
            getCell (st_board st) r' c' = Ok y ->
            getCell (st_board s1) r' c' = Ok y1 ->
            getCell (st_board s2) r' c' = Ok y2 ->
            hasShip y = true -> hit y1 = hit y2).
  { intros r' c' y y1 y2 Hy Hy1 Hy2 Hs. apply bool_eq_iff.
    rewrite (run_ship_hit rng st l1 s1 r' c' y y1 Hreach Hr1 Hy Hy1 Hs).
    rewrite (run_ship_hit rng st l2 s2 r' c' y y2 Hreach Hr2 Hy Hy2 Hs).
    rewrite (Hsame (r', c')). reflexivity. }
  (* hence a ship is fully hit in the one exactly when it is in the other *)
  assert (Hall : forall sid, falsy sid = false ->
            (allHit (st_board s1) sid <-> allHit (st_board s2) sid)).
  { intros sid Hsid.
    assert (Hside : forall sa sb,
              shape (st_board sa) = shape (st_board st) ->
              shape (st_board sb) = shape (st_board st) ->
              (forall r c x, getCell (st_board st) r c = Ok x ->
                 exists x', getCell (st_board sa) r c = Ok x' /\ cellLe x x') ->
              (forall r c x, getCell (st_board st) r c = Ok x ->
                 exists x', getCell (st_board sb) r c = Ok x' /\ cellLe x x') ->
              (forall r' c' y ya yb,
                 getCell (st_board st) r' c' = Ok y ->
                 getCell (st_board sa) r' c' = Ok ya ->
                 getCell (st_board sb) r' c' = Ok yb ->
                 hasShip y = true -> hit ya = hit yb) ->
              allHit (st_board sa) sid -> allHit (st_board sb) sid).
    { intros sa sb Hsa Hsb Hca Hcb Hab Hallh r' c' yb Hyb Hid.
      destruct (shape_getCell _ (st_board st) r' c' yb Hsb Hyb) as [y Hy].
      destruct (Hca _ _ _ Hy) as (ya & Hya & _ & Hida & _).
      destruct (Hcb _ _ _ Hy) as (yb' & Hyb' & _ & Hidb & _).
      assert (yb' = yb) as -> by congruence.
      assert (Hs : hasShip y = true).
      { destruct (hasShip y) eqn:Hs; [reflexivity|].
        destruct (Hgi _ _ _ Hy) as (_ & Hnone & _).
        rewrite <- Hid, Hidb, (Hnone Hs) in Hsid. discriminate Hsid. }
      rewrite <- (Hab _ _ _ _ _ Hy Hya Hyb Hs).
      apply (Hallh _ _ _ Hya). congruence. }
    split.
    - apply (Hside s1 s2); assumption.
    - apply (Hside s2 s1); try assumption.
      intros r' c' y yb ya Hy Hyb Hya Hs. symmetry.
      exact (Hhits _ _ _ _ _ Hy Hya Hyb Hs). }
  destruct (shape_getCell _ (st_board st) r c x1 Hsh1 Hx1) as [x Hx].
  destruct (Hc1 _ _ _ Hx) as (x1' & Hx1' & Hs1 & Hid1 & _).
  assert (x1' = x1) as -> by congruence.
  destruct (Hc2 _ _ _ Hx) as (x2 & Hx2 & Hs2 & Hid2 & _).
  rewrite Hx2. f_equal. apply cell_eq.
  - congruence.
  - symmetry. apply (Hhits _ _ _ _ _ Hx Hx1 Hx2). congruence.
  - congruence.
  - apply bool_eq_iff.
    destruct (Hgi1 _ _ _ Hx1) as (Hf1 & _ & Hsunk1).
    destruct (Hgi2 _ _ _ Hx2) as (_ & _ & Hsunk2).
    rewrite Hsunk1, Hsunk2, Hid2, Hs2, <- Hid1, <- Hs1.
    rewrite (Hall (shipId x1) (Hf1 Hship1)). reflexivity.
Qed.

(** C5. In every game, an accepted shot on a cell with a ship marks the
    cell hit; [updateAfterHit] reports [true] exactly when every cell of the
    ship is then hit, and then all the cells of the ship are marked sunk,
    while otherwise no [sunk] flag changes; so the ship's cells are all sunk
    exactly when they are all hit.  And two sequences of shots that are
    permutations of each other leave every ship cell in the same state. *)
Theorem hit_and_sunk_detection (rng : nat -> Z) (st : AppState) :
  reachable rng st ->
  (forall r c cell,
     st_gameOver st = false ->
     getCell (st_board st) r c = Ok cell ->
     hasShip cell = true -> hit cell = false ->
     exists (st' : AppState) (next : Board) (justSunk : bool),
       handleShot st r c = Ok st' /\
       applyShot st r c = Ok (Changed next true (shipId cell)) /\
       updateAfterHit (st_sunk st) next (shipId cell) =
         Ok (st_board st', st_sunk st', justSunk) /\
       (exists x', getCell (st_board st') r c = Ok x' /\ hit x' = true) /\
       (justSunk = true <-> allHit (st_board st') (shipId cell)) /\
       (allSunk (st_board st') (shipId cell) <->
        allHit (st_board st') (shipId cell)) /\
       (justSunk = false ->
        forall r' c' x, getCell (st_board st) r' c' = Ok x ->
          exists x', getCell (st_board st') r' c' = Ok x' /\ sunk x' = sunk x)) /\
  (forall l1 l2 s1 s2,
     l1 ≡ₚ l2 -> run st l1 = Ok s1 -> run st l2 = Ok s2 ->
     forall r c x, getCell (st_board s1) r c = Ok x -> hasShip x = true ->
                   getCell (st_board s2) r c = Ok x).
Proof.
  intros Hreach. split.
  - intros r c cell Hg Hcell Hship Hhit.
    pose proof (reachable_sessionInv _ _ Hreach) as (Hgi & _).
    destruct (proj2 Hgi _ _ _ Hcell) as (Hfalsy & _).
    specialize (Hfalsy Hship).
    destruct (handleShot_accepted st r c cell (proj1 Hgi) Hg Hcell Hhit)
      as (st' & next & js & Hh & Ha & Hupd & Hjs & Hshape & Hcells & _).
    pose proof (shot_gameInv _ _ r c cell js Hgi Hcell Hhit Hshape Hcells Hjs)
      as [_ Hgi'].
    rewrite Hship in Ha. exists st', next, js.
    split; [exact Hh|]. split; [exact Ha|]. split; [exact (Hupd Hship)|].
    pose proof (Hcells _ _ _ Hcell) as Htarget.
    split; [|split; [|split]].
    + eexists. split; [exact Htarget|]. cbn.
      rewrite decide_True by reflexivity. reflexivity.
    + rewrite Hjs. tauto.
    + split.
      * intros Hsunk.
        pose proof (Hsunk _ _ _ Htarget eq_refl) as Hs.
        destruct (Hgi' _ _ _ Htarget) as (_ & _ & Hiff).
        exact (proj2 (proj1 Hiff Hs)).
      * intros Hall r' c' y' Hy' Hid.
        destruct (Hgi' _ _ _ Hy') as (_ & Hnone & Hiff).
        apply Hiff. rewrite Hid. split; [|exact Hall].
        destruct (hasShip y') eqn:Hs; [reflexivity|].
        rewrite <- Hid, (Hnone eq_refl) in Hfalsy. discriminate Hfalsy.
    + intros -> r' c' x Hx. eexists. split; [exact (Hcells _ _ _ Hx)|].
      reflexivity.
  - intros l1 l2 s1 s2 Hperm Hr1 Hr2 r c x Hx Hship.
    apply (run_same_cells rng st l1 l2 s1 s2 r c x Hreach); try assumption.
    intros rc. rewrite Hperm. reflexivity.
Qed.

Lemma hit_and_sunk_detection_witness :
  exists st st',
    demoGame = Ok st /\ handleShot st 5 0 = Ok st' /\
    exists x', getCell (st_board st') 5 0 = Ok x' /\ hit x' = true.
Proof.
  destruct demoGame as [st0|e] eqn:Hd; [|vm_compute in Hd; discriminate Hd].
  assert (Hreach0 : reachable (replay demoDraws) st0).
  { unfold demoGame in Hd.
    apply bind_Ok in Hd as ([s p] & Hn & [= <-]).
    exact (reach_new _ _ _ _ Hn). }
  destruct (proj1 (hit_and_sunk_detection _ st0 Hreach0) 5 0
              (markShip "E" emptyCell))
    as (st' & _ & _ & Hh & _ & _ & Hx' & _).
  - vm_compute in Hd. injection Hd as <-. reflexivity.
  - vm_compute in Hd. injection Hd as <-. vm_compute. reflexivity.
  - reflexivity.
  - reflexivity.
  - exists st0, st'. split; [reflexivity|]. split; [exact Hh | exact Hx'].
Defined.

(** ** The scenarios of the specification *)

Example scenario_placement :
  exists board,
    scenarioBoard = Ok (board, [(4, 2); (4, 3); (4, 4)]) /\
    countShips board = 3%nat /\
    getCell board 4 3 = Ok (markShip "C" emptyCell) /\
    getCell board 4 5 = Ok emptyCell.
Proof. eexists. repeat split; vm_compute; reflexivity. Qed.

Example scenario_two_hits :
  scenarioAfter [(4, 2); (4, 3)] = Ok (0, [false; false; false]).
Proof. vm_compute. reflexivity. Qed.

Example scenario_third_hit_sinks :
  scenarioAfter [(4, 2); (4, 3); (4, 4)] = Ok (1, [true; true; true]).
Proof. vm_compute. reflexivity. Qed.

Example scenario_other_order :
  scenarioAfter [(4, 4); (4, 2); (4, 3)] = Ok (1, [true; true; true]).
Proof. vm_compute. reflexivity. Qed.

(** * Further properties of the code *)

(** ** The search of [placeShip] *)

Lemma tryPlace_first_fit (rng : nat -> Z) (fuel : nat) (board : Board)
  (ship : ShipSpec) (dir : Dir) (maxRow maxCol : Z) (pos : nat)
  (board' : Board) (coords : list Coord) (pos' : nat) :
  tryPlace rng fuel board ship dir maxRow maxCol pos = Ok (board', coords, pos')
  <->
  exists t : nat,
    (t < fuel)%nat /\
    (forall t' : nat, (t' < t)%nat ->
       canPlaceAt board (randomInt (rng (pos + 2 * t')%nat) maxRow)
         (randomInt (rng (S (pos + 2 * t'))) maxCol) dir (size ship) = Ok false) /\
    canPlaceAt board (randomInt (rng (pos + 2 * t)%nat) maxRow)
      (randomInt (rng (S (pos + 2 * t))) maxCol) dir (size ship) = Ok true /\
    writeShip board (randomInt (rng (pos + 2 * t)%nat) maxRow)
      (randomInt (rng (S (pos + 2 * t))) maxCol) dir ship = Ok (board', coords) /\
    pos' = (pos + 2 * S t)%nat.
Proof.
  revert pos. induction fuel as [|fuel IH]; cbn [tryPlace]; intros pos.
  - split; [discriminate | intros (t & Ht & _); lia].
  - split.
    + intros Ht. apply bind_Ok in Ht as (free & Hfree & Ht). destruct free.
      * apply bind_Ok in Ht as ([b1 cs] & Hw & [= <- <- <-]).
        exists 0%nat. replace (pos + 2 * 0)%nat with pos by lia.
        split; [lia|]. split; [intros t' Hlt; lia|].
        split; [exact Hfree|]. split; [exact Hw | lia].
      * apply IH in Ht as (t & Hlt & Hbefore & Hat & Hw & ->).
        exists (S t).
        replace (pos + 2 * S t)%nat with (S (S pos) + 2 * t)%nat by lia.
        split; [lia|]. split; [|split; [exact Hat | split; [exact Hw | lia]]].
        intros [|t'] Hlt'.
        -- replace (pos + 2 * 0)%nat with pos by lia. exact Hfree.
        -- replace (pos + 2 * S t')%nat with (S (S pos) + 2 * t')%nat by lia.
           apply Hbefore. lia.
    + intros (t & Hlt & Hbefore & Hat & Hw & ->). destruct t as [|t].
      * replace (pos + 2 * 0)%nat with pos in Hat, Hw by lia.
        rewrite Hat. cbn [bind]. rewrite Hw. cbn [bind]. f_equal. f_equal. lia.
      * pose proof (Hbefore 0%nat ltac:(lia)) as H0.
        replace (pos + 2 * 0)%nat with pos in H0 by lia.
        rewrite H0. cbn [bind]. apply IH. exists t.
        replace (S (S pos) + 2 * t)%nat with (pos + 2 * S t)%nat by lia.
        split; [lia|]. split; [|split; [exact Hat | split; [exact Hw | lia]]].
        intros t' Hlt'.
        replace (S (S pos) + 2 * t')%nat with (pos + 2 * S t')%nat by lia.
        apply Hbefore. lia.
Qed.

(** X1. [placeShip] draws the direction once, then up to 500 origins, two
    draws each; it returns exactly when some attempt [t] finds the line
    free after all attempts before it were refused, and the ship is then
    written at that first origin. *)
Theorem placeShip_first_fit (rng : nat -> Z) (board : Board) (ship : ShipSpec)
  (pos : nat) (board' : Board) (coords : list Coord) (pos' : nat) :
  placeShip rng board ship pos = Ok (board', coords, pos') <->
  exists t : nat,
    (t < 500)%nat /\
    let dir := randomDir (rng pos) in
    let r0 (i : nat) :=
      randomInt (rng (S pos + 2 * i)%nat) (dirLimits dir (size ship)).1 in
    let c0 (i : nat) :=
      randomInt (rng (S (S pos + 2 * i))) (dirLimits dir (size ship)).2 in
    (forall t' : nat, (t' < t)%nat ->
       canPlaceAt board (r0 t') (c0 t') dir (size ship) = Ok false) /\
    canPlaceAt board (r0 t) (c0 t) dir (size ship) = Ok true /\
    writeShip board (r0 t) (c0 t) dir ship = Ok (board', coords) /\
    coords = line (r0 t) (c0 t) dir (size ship) /\
    pos' = (S pos + 2 * S t)%nat.
Proof.
  unfold placeShip.
  destruct (dirLimits (randomDir (rng pos)) (size ship)) as [maxRow maxCol].
  cbn [fst snd]. rewrite tryPlace_first_fit. cbv zeta. unfold MAX_TRIES.
  split.
  - intros (t & Hlt & Hbefore & Hat & Hw & ->). exists t.
    split; [exact Hlt|]. split; [exact Hbefore|]. split; [exact Hat|].
    split; [exact Hw|]. split; [|reflexivity].
    unfold writeShip in Hw. apply writeLoop_spec in Hw as [-> _]. reflexivity.
  - intros (t & Hlt & Hbefore & Hat & Hw & _ & ->). exists t. auto.
Qed.

(** ** Which origins can be drawn *)





(** ** Ships that do not fit *)

(** X3. On the 10x10 board [placeShip] never returns for a ship longer than
    the grid: whatever is drawn, the search ends with an exception; and a
    ship of size 0 or less is "placed" at the first attempt with no cell
    written. *)
Theorem placeShip_size_edges (rng : nat -> Z) (board : Board)
  (ship : ShipSpec) (pos : nat) :
  wfBoard board ->
  (GRID_SIZE < size ship ->
   exists e, placeShip rng board ship pos = Err e) /\
  (size ship <= 0 ->
   placeShip rng board ship pos = Ok (board, [], (pos + 3)%nat)).
Proof.
  intros Hwf. split.
  - intros Hbig.
    destruct (placeShip rng board ship pos) as [[[b' cs] p']|e] eqn:Hp;
      [|eauto].
    exfalso.
    apply placeShip_spec in Hp as (r0 & c0 & dir & -> & Hfree & _).
    assert (Hin : forall k, 0 <= k < size ship ->
              0 <= (cellAt r0 c0 dir k).1 < GRID_SIZE /\
              0 <= (cellAt r0 c0 dir k).2 < GRID_SIZE).
    { intros k Hk. apply (wfBoard_getCell board _ _ Hwf).
      destruct (Hfree (cellAt r0 c0 dir k)) as (cell & Hcell & _); [|eauto].
      apply list_elem_of_fmap. exists k. split; [reflexivity|].
      apply elem_of_range. exact Hk. }
    unfold GRID_SIZE in *.
    pose proof (Hin 0 ltac:(lia)) as H0.
    pose proof (Hin (size ship - 1) ltac:(lia)) as H1.
    unfold cellAt in H0, H1. destruct dir; cbn in H0, H1; lia.
  - intros Hsmall. unfold placeShip.
    destruct (dirLimits (randomDir (rng pos)) (size ship)) as [maxRow maxCol].
    apply tryPlace_first_fit. exists 0%nat. unfold MAX_TRIES, canPlaceAt, writeShip.
    assert (Hr : range (size ship) = []).
    { unfold range. replace (Z.to_nat (size ship)) with 0%nat by lia.
      reflexivity. }
    rewrite Hr. cbn [canPlaceLoop writeLoop].
    split; [lia|]. split; [intros t' Hlt; lia|].
    split; [reflexivity|]. split; [reflexivity | lia].
Qed.

Lemma placeShip_size_edges_witness :
  exists e,
    placeShip zeroRng createEmptyBoard
      {| id := "Z"; size := 11; name := "" |} 0 = Err e.
Proof.
  apply (proj1 (placeShip_size_edges zeroRng createEmptyBoard
                  {| id := "Z"; size := 11; name := "" |} 0%nat
                  createEmptyBoard_wf)).
  cbn. unfold GRID_SIZE. lia.
Defined.

(** ** Shots outside the board *)

(** X4. On the 10x10 board, while the game is not over, a shot at
    coordinates outside [[0, 9]] raises a [TypeError] and produces no state;
    once the game is over the same shot is ignored without any access to the
    board. *)
Theorem shot_out_of_bounds (st : AppState) (r c : Z) :
  wfBoard (st_board st) ->
  ~ (0 <= r < GRID_SIZE /\ 0 <= c < GRID_SIZE) ->
  (st_gameOver st = false -> handleShot st r c = Err TypeError) /\
  (st_gameOver st = true -> handleShot st r c = Ok st).
Proof.
  intros Hwf Hout. split.
  - intros Hg. unfold handleShot, applyShot. rewrite Hg.
    destruct (getCell (st_board st) r c) as [cell|e] eqn:Hcell.
    + exfalso. apply Hout. apply (wfBoard_getCell _ r c Hwf). eauto.
    + apply getCell_Err in Hcell as ->. reflexivity.
  - intros Hg. apply handleShot_rejected. auto.
Qed.

Lemma shot_out_of_bounds_witness :
  handleShot (freshState createEmptyBoard ∅) 10 0 = Err TypeError.
Proof.
  apply (proj1 (shot_out_of_bounds (freshState createEmptyBoard ∅) 10 0
                  createEmptyBoard_wf ltac:(unfold GRID_SIZE; lia))).
  reflexivity.
Defined.

(** ** The counters of a shot *)

(** X5. When [handleShot] returns, either the shot was rejected (game over,
    or cell already hit) and the state is the same, or it was accepted and
    then [shots] grew by exactly one, [hits] by one exactly when the cell
    has a ship, [sunk] by at most one and only on a ship cell, and
    [gameOver], [reveal] and the placements are as before.  So the state is
    unchanged exactly when the shot is rejected. *)
Theorem shot_counters (st : AppState) (r c : Z) (st' : AppState) :
  handleShot st r c = Ok st' ->
  (st' = st <->
   st_gameOver st = true \/
   exists cell, getCell (st_board st) r c = Ok cell /\ hit cell = true) /\
  (st' <> st ->
   exists cell,
     getCell (st_board st) r c = Ok cell /\ hit cell = false /\
     st_shots st' = st_shots st + 1 /\
     st_hits st' = st_hits st + (if hasShip cell then 1 else 0) /\
     st_sunk st <= st_sunk st' <= st_sunk st + (if hasShip cell then 1 else 0) /\
     st_gameOver st' = st_gameOver st /\
     st_reveal st' = st_reveal st /\
     st_placements st' = st_placements st).
Proof.
  intros Hh. pose proof Hh as Hh0.
  apply handleShot_weak in Hh
    as [[-> Hrej] |
        (Hg & cell & next & cs & js & Hcell & Hhit & _ & _ & Hpl & Hshots
         & Hhits & Hsunk & Hg' & Hrev)].
  - split; [tauto | intros Hne; contradiction].
  - assert (Hne : st' <> st) by (intros ->; lia).
    assert (Hjs : js = true -> hasShip cell = true).
    { intros ->. destruct (hasShip cell) eqn:Hs; [reflexivity|].
      exfalso. unfold handleShot in Hh0.
      destruct (applyShot_accepted st r c cell Hg Hcell Hhit) as (n & Ha & _).
      rewrite Ha, Hs in Hh0. cbn in Hh0. injection Hh0 as <-.
      cbn in Hsunk. lia. }
    split.
    + split; [intros Heq; contradiction|].
      intros [Hover | (x & Hx & Hxh)]; congruence.
    + intros _. exists cell. split; [exact Hcell|]. split; [exact Hhit|].
      split; [exact Hshots|]. split; [exact Hhits|].
      split; [|split; [congruence | auto]].
      destruct js; [rewrite (Hjs eq_refl)|]; destruct (hasShip cell); lia.
Qed.

Lemma shot_counters_witness :
  exists st',
    handleShot (freshState createEmptyBoard ∅) 4 2 = Ok st' /\
    st_shots st' = 1.
Proof.
  destruct (handleShot (freshState createEmptyBoard ∅) 4 2) as [st'|e] eqn:Hh;
    [|vm_compute in Hh; discriminate Hh].
  exists st'. split; [reflexivity|].
  destruct (proj2 (shot_counters _ 4 2 st' Hh)) as (cell & _ & _ & Hs & _).
  - intros ->. vm_compute in Hh. discriminate Hh.
  - exact Hs.
Defined.

(** ** A fresh game *)

(** X6. Whatever was played before, [resetGame] (and the first render, which
    computes the same) returns a state with all counters at zero, the flags
    [gameOver] and [reveal] cleared, a 10x10 board with 17 ship cells none of
    which is hit or sunk, and placements that lie on the ship cells of that
    board; the effect leaves this state as it is. *)
Theorem reset_gives_fresh_game (rng : nat -> Z) (pos : nat) (st : AppState)
  (pos' : nat) :
  newGame rng pos = Ok (st, pos') \/ resetGame rng pos = Ok (st, pos') ->
  st_shots st = 0 /\ st_hits st = 0 /\ st_sunk st = 0 /\
  st_gameOver st = false /\ st_reveal st = false /\
  wfBoard (st_board st) /\
  countShips (st_board st) = 17%nat /\
  (forall r c x, getCell (st_board st) r c = Ok x ->
     hit x = false /\ sunk x = false) /\
  placedOn (st_board st) (st_placements st) /\
  gameOverEffect st = st.
Proof.
  intros Hn.
  assert (Hb : exists board placements,
             buildBoard rng pos = Ok (board, placements, pos') /\
             st = freshState board placements).
  { unfold newGame, resetGame in Hn.
    destruct Hn as [Hn|Hn];
      apply bind_Ok in Hn as ([[b pl] p] & Hb & [= <- <-]); eauto. }
  destruct Hb as (board & placements & Hb & ->).
  rewrite fresh_effect. cbn [freshState st_shots st_hits st_sunk st_gameOver
                               st_reveal st_board st_placements].
  destruct (buildBoard_fleet_layout_aux rng pos board placements pos' Hb)
    as (Hwf & Hcnt & Hcells).
  repeat (split; [reflexivity|]). split; [exact Hwf|]. split; [exact Hcnt|].
  split; [|split; [|reflexivity]].
  - intros r c x Hx.
    destruct (Hcells _ _ _ Hx) as [-> | (s & _ & ->)]; split; reflexivity.
  - unfold buildBoard in Hb.
    exact (proj1 (placeShips_spec rng _ _ _ _ _ _ _ Hb (placedOn_empty _))).
Qed.

Lemma reset_gives_fresh_game_witness :
  exists st pos',
    resetGame (replay demoDraws) 0 = Ok (st, pos') /\
    countShips (st_board st) = 17%nat.
Proof.
  destruct (resetGame (replay demoDraws) 0) as [[st p]|e] eqn:Hr;
    [|vm_compute in Hr; discriminate Hr].
  exists st, p. split; [reflexivity|].
  destruct (reset_gives_fresh_game _ _ _ _ (or_intror Hr))
    as (_ & _ & _ & _ & _ & _ & Hc & _).
  exact Hc.
Defined.

(** ** What a cell looks like *)

(** X7. In every state of a game, and whether the cheat mode [reveal] is on
    or off, the class name of a cell's button is one of five: an unshot
    cell is ["cell"], or ["cell reveal"] when it carries a ship and the
    cheat mode is on; a shot cell is ["cell miss"] on water, ["cell hit"] on
    a ship that is not yet sunk and ["cell hit sunk"] on a sunk ship.  In
    particular, with the cheat mode off an unshot cell looks the same
    whether or not it hides a ship. *)
Theorem rendered_cell_states (rng : nat -> Z) (st : AppState) (reveal : bool)
  (r c : Z) (x : Cell) :
  reachable rng st -> getCell (st_board st) r c = Ok x ->
  className reveal x =
    (if hit x
     then if hasShip x
          then if sunk x then "cell hit sunk" else "cell hit"
          else "cell miss"
     else if reveal && hasShip x then "cell reveal" else "cell") /\
  (sunk x = true <-> hasShip x = true /\ allHit (st_board st) (shipId x)).
Proof.
  intros Hreach Hx.
  pose proof (reachable_sessionInv _ _ Hreach) as ([_ Hgi] & _).
  destruct (Hgi _ _ _ Hx) as (_ & _ & Hsunk). split; [|exact Hsunk].
  assert (Himp : sunk x = true -> hasShip x = true /\ hit x = true).
  { intros [Hs Hall]%Hsunk. split; [exact Hs|]. exact (Hall _ _ _ Hx eq_refl). }
  unfold className, cellClasses.
  destruct (sunk x).
  - destruct (Himp eq_refl) as [-> ->]. destruct reveal; reflexivity.
  - destruct (hit x), (hasShip x), reveal; reflexivity.
Qed.

Lemma rendered_cell_states_witness :
  exists st x,
    demoGame = Ok st /\ getCell (st_board st) 0 0 = Ok x /\
    className true x = "cell reveal" /\ className false x = "cell".
Proof.
  destruct demoGame as [st0|e] eqn:Hd; [|vm_compute in Hd; discriminate Hd].
  assert (Hreach0 : reachable (replay demoDraws) st0).
  { unfold demoGame in Hd.
    apply bind_Ok in Hd as ([s p] & Hn & [= <-]).
    exact (reach_new _ _ _ _ Hn). }
  assert (Hx : getCell (st_board st0) 0 0 = Ok (markShip "A" emptyCell)).
  { vm_compute in Hd. injection Hd as <-. vm_compute. reflexivity. }
  exists st0, (markShip "A" emptyCell). split; [reflexivity|].
  split; [exact Hx|].
  rewrite (proj1 (rendered_cell_states _ st0 true 0 0 _ Hreach0 Hx)).
  rewrite (proj1 (rendered_cell_states _ st0 false 0 0 _ Hreach0 Hx)).
  split; reflexivity.
Defined.

(** ** The two versions of the placement *)

Lemma V1_freeLoop_eq (board : Board) (r0 c0 : Z) (dir : Dir) (ks : list Z) :
  AppV1.freeLoop board r0 c0 dir ks = canPlaceLoop board r0 c0 dir ks.
Proof.
  induction ks as [|k ks IH]; [reflexivity|].
  cbn [AppV1.freeLoop canPlaceLoop]. unfold cellAt, getStep.
  destruct dir; rewrite IH; reflexivity.
Qed.

Lemma V1_placeLoop_eq (board : Board) (r0 c0 : Z) (dir : Dir) (sid : string)
  (ks : list Z) (acc : list Coord) :
  writeLoop board r0 c0 dir sid ks acc =
  let* board' := AppV1.placeLoop board r0 c0 dir sid ks in
  Ok (board', acc ++ (cellAt r0 c0 dir <$> ks)).
Proof.
  revert board acc. induction ks as [|k ks IH]; intros board acc.
  - cbn. rewrite app_nil_r. reflexivity.
  - cbn [writeLoop AppV1.placeLoop]. unfold cellAt at 1, getStep at 1.
    assert (Hk : cellAt r0 c0 dir k =
                 (r0 + match dir with V => k | H => 0 end,
                  c0 + match dir with H => k | V => 0 end))
      by (destruct dir; reflexivity).
    destruct dir;
      (destruct (writeCell board _ _ sid) as [b1|e]; cbn [bind];
       [|reflexivity]; rewrite IH;
       destruct (AppV1.placeLoop b1 r0 c0 _ sid ks) as [b2|e]; cbn [bind];
       [|reflexivity]; rewrite fmap_cons, Hk, <- app_assoc; reflexivity).
Qed.

Lemma V1_tryPlace_eq (rng : nat -> Z) (fuel : nat) (board : Board)
  (ship : ShipSpec) (dir : Dir) (maxRow maxCol : Z) (pos : nat) :
  AppV1.tryPlace rng fuel board ship dir maxRow maxCol pos =
  tryPlace rng fuel board ship dir maxRow maxCol pos.
Proof.
  revert pos. induction fuel as [|fuel IH]; intros pos; [reflexivity|].
  cbn [AppV1.tryPlace tryPlace]. unfold canPlaceAt, writeShip, randomInt.
  rewrite V1_freeLoop_eq.
  destruct (canPlaceLoop board _ _ dir (range (size ship))) as [free|e];
    cbn [bind]; [|reflexivity].
  destruct free; cbn [negb]; [|apply IH].
  rewrite V1_placeLoop_eq.
  destruct (AppV1.placeLoop board _ _ dir (id ship) (range (size ship)))
    as [b1|e]; cbn [bind]; [|reflexivity].
  do 3 f_equal. cbn [app]. apply map_ext. intros k. destruct dir; reflexivity.
Qed.

Lemma V1_placeShip_eq (rng : nat -> Z) (board : Board) (ship : ShipSpec)
  (pos : nat) :
  AppV1.placeShip rng board ship pos = placeShip rng board ship pos.
Proof.
  unfold AppV1.placeShip, placeShip, randomDir, dirLimits.
  apply V1_tryPlace_eq.
Qed.

Lemma V1_placeShips_eq (rng : nat -> Z) (ships : list ShipSpec)
  (board : Board) (placements : gmap string (list Coord)) (pos : nat) :
  AppV1.placeShips rng ships board placements pos =
  placeShips rng ships board placements pos.
Proof.
  revert board placements pos. induction ships as [|ship ships IH];
    intros board placements pos; [reflexivity|].
  cbn [AppV1.placeShips placeShips]. rewrite V1_placeShip_eq.
  destruct (placeShip rng board ship pos) as [[[b1 cs] p1]|e]; cbn [bind];
    [apply IH | reflexivity].
Qed.

(** X8. The placement of src/App.jsx, written with inline loops, and the one
    refactored into [dirLimits], [canPlaceAt] and [writeShip] are the same
    function of the board, the ship and the random draws: same board, same
    recorded coordinates, same number of draws, same exception.  So are the
    two [buildBoard] and the two [resetGame]. *)
Theorem legacy_placement_same (rng : nat -> Z) :
  (forall board ship pos,
     AppV1.placeShip rng board ship pos = placeShip rng board ship pos) /\
  (forall pos, AppV1.buildBoard rng pos = buildBoard rng pos) /\
  (forall pos, AppV1.resetGame rng pos = resetGame rng pos).
Proof.
  split; [apply V1_placeShip_eq|].
  assert (Hb : forall pos, AppV1.buildBoard rng pos = buildBoard rng pos).
  { intros pos. apply V1_placeShips_eq. }
  split; [exact Hb|].
  intros pos. unfold AppV1.resetGame, resetGame. rewrite Hb. reflexivity.
Qed.

(** ** The two versions of the shot handler *)

Lemma board_ext (board board' : Board) :
  shape board' = shape board ->
  (forall r c x, getCell board r c = Ok x -> getCell board' r c = Ok x) ->
  board' = board.
Proof.
  intros Hs Hcells. apply list_eq. intros i.
  assert (Hl : (length <$> board') !! i = (length <$> board) !! i)
    by (unfold shape in Hs; rewrite Hs; reflexivity).
  rewrite !list_lookup_fmap in Hl.
  destruct (board !! i) as [row|] eqn:Hrow,
           (board' !! i) as [row'|] eqn:Hrow'; try discriminate Hl;
    [|reflexivity].
  injection Hl as Hl. f_equal. apply list_eq. intros j.
  destruct (row !! j) as [x|] eqn:Hx.
  - pose proof (Hcells _ _ _ (getCell_nat _ _ _ _ _ Hrow Hx)) as Hx'.
    apply getCell_Ok in Hx' as (row'' & [_ Hr'']%at_index_Some
                                & [_ Hc'']%at_index_Some).
    rewrite !Nat2Z.id in *. congruence.
  - apply lookup_ge_None in Hx. apply lookup_ge_None. lia.
Qed.

Lemma V1_rowAllHit_spec (board : Board) (sid : option string) (r : Z)
  (cs : list Z) :
  (forall c, c ∈ cs -> exists x, getCell board r c = Ok x) ->
  exists v, AppV1.rowAllHit board sid r cs = Ok v /\
    (v = true <->
     forall c x, c ∈ cs -> getCell board r c = Ok x -> shipId x = sid ->
                 hit x = true).
Proof.
  induction cs as [|c cs IH]; cbn [AppV1.rowAllHit]; intros Hread.
  - exists true. split; [reflexivity|]. split; [|reflexivity].
    intros _ c x Hc. inversion Hc.
  - destruct (Hread c) as [x0 Hx0]; [apply elem_of_cons; auto|].
    rewrite Hx0. cbn [bind].
    destruct IH as (v & Hv & Hiff);
      [intros c' Hc'; apply Hread, elem_of_cons; auto|].
    destruct (sameId (shipId x0) sid) eqn:Hsame; cbn [andb].
    + apply sameId_true in Hsame. destruct (hit x0) eqn:Hh; cbn [negb].
      * exists v. split; [exact Hv|]. rewrite Hiff. split.
        -- intros Hall c' x [->|Hc']%elem_of_cons Hx Hid;
             [congruence | exact (Hall c' x Hc' Hx Hid)].
        -- intros Hall c' x Hc'. apply Hall, elem_of_cons. auto.
      * exists false. split; [reflexivity|]. split; [discriminate|].
        intros Hall. rewrite <- Hh.
        apply (Hall c x0); [apply elem_of_cons; auto | exact Hx0 | exact Hsame].
    + exists v. split; [exact Hv|]. rewrite Hiff. split.
      * intros Hall c' x [->|Hc']%elem_of_cons Hx Hid.
        -- exfalso. assert (x = x0) as -> by congruence.
           apply sameId_true in Hid. congruence.
        -- exact (Hall c' x Hc' Hx Hid).
      * intros Hall c' x Hc'. apply Hall, elem_of_cons. auto.
Qed.

Lemma V1_rowsAllHit_spec (board : Board) (sid : option string) (rs : list Z) :
  (forall r c, r ∈ rs -> c ∈ range GRID_SIZE ->
               exists x, getCell board r c = Ok x) ->
  exists v, AppV1.rowsAllHit board sid rs = Ok v /\
    (v = true <->
     forall r c x, r ∈ rs -> c ∈ range GRID_SIZE ->
       getCell board r c = Ok x -> shipId x = sid -> hit x = true).
Proof.
  induction rs as [|r rs IH]; cbn [AppV1.rowsAllHit]; intros Hread.
  - exists true. split; [reflexivity|]. split; [|reflexivity].
    intros _ r c x Hr. inversion Hr.
  - destruct (V1_rowAllHit_spec board sid r (range GRID_SIZE))
      as (v0 & Hv0 & Hiff0);
      [intros c Hc; apply Hread; [apply elem_of_cons; auto | exact Hc]|].
    rewrite Hv0. cbn [bind].
    destruct IH as (v & Hv & Hiff);
      [intros r' c' Hr'; apply Hread, elem_of_cons; auto|].
    destruct v0; cbn [negb].
    + exists v. split; [exact Hv|]. rewrite Hiff. split.
      * intros Hall r' c' x [->|Hr']%elem_of_cons Hc' Hx Hid.
        -- exact (proj1 Hiff0 eq_refl c' x Hc' Hx Hid).
        -- exact (Hall r' c' x Hr' Hc' Hx Hid).
      * intros Hall r' c' x Hr'. apply Hall, elem_of_cons. auto.
    + exists false. split; [reflexivity|]. split; [discriminate|].
      intros Hall. apply Hiff0. intros c x Hc.
      apply Hall; [apply elem_of_cons; auto | exact Hc].
Qed.

Lemma V1_markRow_spec (board : Board) (sid : option string) (r : Z)
  (cs : list Z) :
  (forall c, c ∈ cs -> exists x, getCell board r c = Ok x) ->
  exists board', AppV1.markRow board sid r cs = Ok board' /\
    shape board' = shape board /\
    forall r' c' x, getCell board r' c' = Ok x ->
      getCell board' r' c' =
      Ok (if decide (r' = r /\ c' ∈ cs)
          then if sameId (shipId x) sid then setSunk x else x
          else x).
Proof.
  revert board. induction cs as [|c cs IH]; cbn [AppV1.markRow];
    intros board Hread.
  - exists board. split; [reflexivity|]. split; [reflexivity|].
    intros r' c' x Hx. rewrite decide_False; [exact Hx|].
    intros [_ Hc]. inversion Hc.
  - destruct (Hread c) as [x0 Hx0]; [apply elem_of_cons; auto|].
    rewrite Hx0. cbn [bind].
    destruct (sameId (shipId x0) sid) eqn:Hsame.
    + destruct (updCell_total board r c setSunk x0 Hx0) as [b1 Hb1].
      rewrite Hb1. cbn [bind].
      apply updCell_updatedAt in Hb1 as [Hs1 Hu1].
      destruct (IH b1) as (b' & Hb' & Hs' & Hcells).
      { intros c' Hc'. destruct (Hread c') as [y Hy]; [apply elem_of_cons; auto|].
        apply (shape_getCell board b1 _ _ y); [congruence | exact Hy]. }
      exists b'. split; [exact Hb'|]. split; [congruence|].
      intros r' c' x Hx. rewrite (Hcells _ _ _ (Hu1 _ _ _ Hx)). f_equal.
      destruct (decide ((r', c') ∈ [(r, c)])) as [Hin|Hin].
      * apply list_elem_of_singleton in Hin. injection Hin as -> ->.
        assert (x = x0) as -> by congruence.
        rewrite (decide_True (P := r = r /\ c ∈ c :: cs))
          by (split; [reflexivity | apply elem_of_cons; auto]).
        rewrite Hsame. cbn [setSunk shipId]. rewrite Hsame.
        destruct (decide (r = r /\ c ∈ cs)); reflexivity.
      * assert (Hne : (r', c') <> (r, c))
          by (intros Heq; apply Hin, list_elem_of_singleton; exact Heq).
        destruct (decide (r' = r /\ c' ∈ cs)) as [[-> Hc']|Hno].
        -- rewrite decide_True
             by (split; [reflexivity | apply elem_of_cons; auto]).
           reflexivity.
        -- rewrite decide_False; [reflexivity|].
           intros [-> [->|Hc']%elem_of_cons]; [apply Hne; reflexivity|].
           apply Hno. auto.
    + destruct (IH board) as (b' & Hb' & Hs' & Hcells);
        [intros c' Hc'; apply Hread, elem_of_cons; auto|].
      exists b'. split; [exact Hb'|]. split; [exact Hs'|].
      intros r' c' x Hx. rewrite (Hcells _ _ _ Hx). f_equal.
      destruct (decide (r' = r /\ c' ∈ cs)) as [[-> Hc']|Hno].
      * rewrite decide_True
          by (split; [reflexivity | apply elem_of_cons; auto]).
        reflexivity.
      * destruct (decide (r' = r /\ c' ∈ c :: cs))
          as [[-> [->|Hc']%elem_of_cons]|_]; [| |reflexivity].
        -- assert (x = x0) as -> by congruence. rewrite Hsame. reflexivity.
        -- exfalso. apply Hno. auto.
Qed.

Lemma V1_markRows_spec (board : Board) (sid : option string) (rs : list Z) :
  (forall r c, r ∈ rs -> c ∈ range GRID_SIZE ->
               exists x, getCell board r c = Ok x) ->
  exists board', AppV1.markRows board sid rs = Ok board' /\
    shape board' = shape board /\
    forall r' c' x, getCell board r' c' = Ok x ->
      getCell board' r' c' =
      Ok (if decide (r' ∈ rs /\ c' ∈ range GRID_SIZE)
          then if sameId (shipId x) sid then setSunk x else x
          else x).
Proof.
  revert board. induction rs as [|r rs IH]; cbn [AppV1.markRows];
    intros board Hread.
  - exists board. split; [reflexivity|]. split; [reflexivity|].
    intros r' c' x Hx. rewrite decide_False; [exact Hx|].
    intros [Hr _]. inversion Hr.
  - destruct (V1_markRow_spec board sid r (range GRID_SIZE))
      as (b1 & Hb1 & Hs1 & Hc1);
      [intros c Hc; apply Hread; [apply elem_of_cons; auto | exact Hc]|].
    rewrite Hb1. cbn [bind].
    destruct (IH b1) as (b' & Hb' & Hs' & Hcells).
    { intros r' c' Hr' Hc'.
      destruct (Hread r' c') as [y Hy]; [apply elem_of_cons; auto | exact Hc'|].
      apply (shape_getCell board b1 _ _ y); [congruence | exact Hy]. }
    exists b'. split; [exact Hb'|]. split; [congruence|].
    intros r' c' x Hx. rewrite (Hcells _ _ _ (Hc1 _ _ _ Hx)). f_equal.
    destruct (decide (r' = r /\ c' ∈ range GRID_SIZE)) as [[-> Hc']|Hno1].
    + rewrite (decide_True (P := r ∈ r :: rs /\ c' ∈ range GRID_SIZE))
        by (split; [apply elem_of_cons; auto | exact Hc']).
      destruct (sameId (shipId x) sid) eqn:Hsame.
      * cbn [setSunk shipId]. rewrite Hsame.
        destruct (decide (r ∈ rs /\ c' ∈ range GRID_SIZE)); reflexivity.
      * rewrite Hsame.
        destruct (decide (r ∈ rs /\ c' ∈ range GRID_SIZE)); reflexivity.
    + destruct (decide (r' ∈ rs /\ c' ∈ range GRID_SIZE)) as [[Hr' Hc']|Hno2].
      * rewrite decide_True
          by (split; [apply elem_of_cons; auto | exact Hc']).
        reflexivity.
      * rewrite decide_False; [reflexivity|].
        intros [[->|Hr']%elem_of_cons Hc']; [apply Hno1 | apply Hno2]; auto.
Qed.

Lemma V1_markSunkIfApplies_eq (n : Z) (next : Board) (sid : option string) :
  wfBoard next -> falsy sid = false ->
  AppV1.markSunkIfApplies n next sid =
  let* (board', n', _) := updateAfterHit n next sid in Ok (board', n').
Proof.
  intros Hwf Hf.
  assert (Hread : forall r c, r ∈ range GRID_SIZE -> c ∈ range GRID_SIZE ->
            exists x, getCell next r c = Ok x).
  { intros r c Hr%elem_of_range Hc%elem_of_range.
    apply wfBoard_getCell; [exact Hwf | split; assumption]. }
  assert (Hrange : forall r c x, getCell next r c = Ok x ->
            r ∈ range GRID_SIZE /\ c ∈ range GRID_SIZE).
  { intros r c x Hx.
    destruct (proj2 (wfBoard_getCell next r c Hwf) (ex_intro _ x Hx)).
    split; apply elem_of_range; assumption. }
  unfold AppV1.markSunkIfApplies, updateAfterHit. rewrite Hf.
  destruct (V1_rowsAllHit_spec next sid _ Hread) as (v & Hv & Hiff).
  destruct (isShipSunk_spec next sid Hwf) as (v' & Hv' & Hiff').
  rewrite Hv, Hv'. cbn [bind].
  assert (v = v') as ->.
  { apply bool_eq_iff. rewrite Hiff, Hiff'. unfold allHit. split.
    - intros Hall r c x Hx. destruct (Hrange _ _ _ Hx). eauto.
    - intros Hall r c x _ _. apply Hall. }
  destruct v'; cbn [negb]; [|reflexivity].
  destruct (V1_markRows_spec next sid _ Hread) as (b1 & Hb1 & Hs1 & Hc1).
  destruct (markShipSunk_spec next sid Hwf) as (b2 & Hb2 & Hs2 & Hc2).
  rewrite Hb1, Hb2. cbn [bind].
  assert (b1 = b2) as ->; [|reflexivity].
  apply board_ext; [congruence|].
  intros r c y Hy.
  destruct (shape_getCell b2 next r c y Hs2 Hy) as [x Hx].
  rewrite (Hc2 _ _ _ Hx) in Hy. rewrite (Hc1 _ _ _ Hx), <- Hy.
  rewrite decide_True by exact (Hrange _ _ _ Hx). reflexivity.
Qed.

(** X9. On the 10x10 board, when every cell with a ship carries a non-empty
    id (as on every board of a game), the shot handler of src/App.jsx, with
    its early-exit scan [markSunkIfApplies], and the refactored [handleShot]
    return the same state for every shot, and raise together. *)
Theorem legacy_handleShot_same (st : AppState) (r c : Z) :
  wfBoard (st_board st) ->
  (forall r' c' x, getCell (st_board st) r' c' = Ok x ->
                   hasShip x = true -> falsy (shipId x) = false) ->
  AppV1.handleShot st r c = handleShot st r c.
Proof.
  intros Hwf Hids. unfold AppV1.handleShot.
  destruct (st_gameOver st) eqn:Hg.
  { symmetry. apply handleShot_rejected. auto. }
  destruct (getCell (st_board st) r c) as [cell|e] eqn:Hcell; cbn [bind].
  2:{ unfold handleShot, applyShot. rewrite Hg, Hcell. reflexivity. }
  destruct (hit cell) eqn:Hhit.
  { symmetry. apply handleShot_rejected. eauto. }
  destruct (applyShot_accepted st r c cell Hg Hcell Hhit) as (next & Ha & Hu).
  pose proof (applyShot_next _ _ _ _ _ _ Ha) as Hnext.
  unfold handleShot. rewrite Ha. cbn [bind].
  fold (cloneBoard (st_board st)). rewrite cloneBoard_id, Hnext. cbn [bind].
  destruct (hasShip cell) eqn:Hs; [|cbn [bind]; rewrite Hg; reflexivity].
  rewrite (V1_markSunkIfApplies_eq _ next (shipId cell)
             (updatedAt_wf _ _ _ _ Hu Hwf) (Hids _ _ _ Hcell Hs)).
  destruct (updateAfterHit (st_sunk st) next (shipId cell))
    as [[[b' n'] js]|e]; cbn [bind]; rewrite ?Hg; reflexivity.
Qed.

Lemma legacy_handleShot_same_witness :
  AppV1.handleShot (freshState createEmptyBoard ∅) 4 2 =
  handleShot (freshState createEmptyBoard ∅) 4 2.
Proof.
  apply legacy_handleShot_same; [exact createEmptyBoard_wf|].
  intros r' c' x ->%createEmptyBoard_cell. discriminate.
Defined.

(** ** The placements and the board *)

Lemma placeShips_ownedBy (rng : nat -> Z) (ships : list ShipSpec)
  (board : Board) (placements : gmap string (list Coord)) (pos : nat)
  (board' : Board) (placements' : gmap string (list Coord)) (pos' : nat) :
  placeShips rng ships board placements pos = Ok (board', placements', pos') ->
  NoDup (id <$> ships) ->
  (forall s, s ∈ ships -> placements !! id s = None) ->
  ownedBy board placements -> ownedBy board' placements'.
Proof.
  revert board placements pos.
  induction ships as [|ship ships IH]; cbn [placeShips];
    intros board placements pos Hp Hnd Hnone Hown.
  - injection Hp as <- <- <-. exact Hown.
  - apply bind_Ok in Hp as ([[b1 coords] pos1] & Hp1 & Hp).
    apply placeShip_spec in Hp1 as (r0 & c0 & dir & Hcoords & Hfree & Hu & _).
    rewrite fmap_cons in Hnd. apply NoDup_cons in Hnd as [Hnotin Hnd].
    apply (IH _ _ _ Hp Hnd).
    + intros s Hs. rewrite lookup_insert_ne; [apply Hnone, elem_of_cons; auto|].
      intros Heq. apply Hnotin. rewrite Heq.
      apply list_elem_of_fmap. exists s. auto.
    + intros r c x1 sid Hx1 Hid.
      destruct (updatedAt_getCell_inv _ _ _ _ _ _ _ Hu Hx1) as (x & Hx & ->).
      destruct (decide ((r, c) ∈ coords)) as [Hin|Hin].
      * cbn in Hid. injection Hid as <-.
        exists coords. rewrite lookup_insert_eq. auto.
      * destruct (Hown _ _ _ _ Hx Hid) as (cs & Hcs & Hrc).
        exists cs. split; [|exact Hrc].
        rewrite lookup_insert_ne; [exact Hcs|].
        intros <-. rewrite (Hnone ship) in Hcs by (apply elem_of_cons; auto).
        discriminate Hcs.
Qed.

Lemma buildBoard_placementsAgree (rng : nat -> Z) (pos : nat) (board : Board)
  (placements : gmap string (list Coord)) (pos' : nat) :
  buildBoard rng pos = Ok (board, placements, pos') ->
  placementsAgree board placements /\ fleetIds board.
Proof.
  intros Hb. pose proof Hb as Hb0. unfold buildBoard in Hb.
  destruct (placeShips_spec rng _ _ _ _ _ _ _ Hb (placedOn_empty _))
    as (Hon & _ & _ & _ & Hrec & _).
  assert (Hown : ownedBy board placements).
  { apply (placeShips_ownedBy rng _ _ _ _ _ _ _ Hb SHIPS_ids_NoDup).
    - intros s _. apply lookup_empty.
    - intros r c x sid ->%createEmptyBoard_cell Hid. discriminate Hid. }
  split.
  - intros ship Hin.
    destruct (Hrec SHIPS_ids_NoDup ship Hin) as (r0 & c0 & dir & Hlk).
    exists r0, c0, dir. split; [exact Hlk|]. intros r c. split.
    + intros Hrc. destruct (Hon _ _ Hlk _ Hrc) as (x & Hx & _ & Hid). eauto.
    + intros (x & Hx & Hid).
      destruct (Hown _ _ _ _ Hx Hid) as (cs & Hcs & Hrc). congruence.
  - intros r c x Hx Hs.
    destruct (buildBoard_fleet_layout_aux rng pos board placements pos' Hb0)
      as (_ & _ & Hcells).
    destruct (Hcells _ _ _ Hx) as [-> | (s & Hin & ->)]; [discriminate Hs|].
    exists s. split; [exact Hin | reflexivity].
Qed.

Lemma stateLe_shipId (st st' : AppState) (r c : Z) (sid : option string) :
  stateLe st st' ->
  (exists x, getCell (st_board st) r c = Ok x /\ shipId x = sid) <->
  (exists x', getCell (st_board st') r c = Ok x' /\ shipId x' = sid).
Proof.
  intros (_ & _ & _ & _ & Hs & Hcells). split.
  - intros (x & Hx & Hid). destruct (Hcells _ _ _ Hx) as (x' & Hx' & _ & Hid' & _).
    exists x'. split; [exact Hx' | congruence].
  - intros (x' & Hx' & Hid').
    destruct (shape_getCell _ (st_board st) r c x' Hs Hx') as [x Hx].
    destruct (Hcells _ _ _ Hx) as (y & Hy & _ & Hid & _).
    exists x. split; [exact Hx | congruence].
Qed.

Lemma stateLe_placementsAgree (st st' : AppState) :
  stateLe st st' -> st_placements st' = st_placements st ->
  placementsAgree (st_board st) (st_placements st) /\ fleetIds (st_board st) ->
  placementsAgree (st_board st') (st_placements st') /\ fleetIds (st_board st').
Proof.
  intros Hle Hpl [Hagree Hids]. split.
  - intros ship Hin. destruct (Hagree ship Hin) as (r0 & c0 & dir & Hlk & Hiff).
    exists r0, c0, dir. rewrite Hpl. split; [exact Hlk|].
    intros r c. rewrite (Hiff r c). apply stateLe_shipId. exact Hle.
  - intros r c x' Hx' Hs'.
    destruct Hle as (_ & _ & _ & _ & Hs & Hcells).
    destruct (shape_getCell _ (st_board st) r c x' Hs Hx') as [x Hx].
    destruct (Hcells _ _ _ Hx) as (y & Hy & Hship & Hid & _).
    assert (y = x') as -> by congruence.
    destruct (Hids _ _ _ Hx) as (s & Hin & Hsid); [congruence|].
    exists s. split; [exact Hin | congruence].
Qed.

Lemma reachable_placementsAgree (rng : nat -> Z) (st : AppState) :
  reachable rng st ->
  placementsAgree (st_board st) (st_placements st) /\ fleetIds (st_board st).
Proof.
  assert (Hfresh : forall pos st pos',
            newGame rng pos = Ok (st, pos') \/ resetGame rng pos = Ok (st, pos') ->
            placementsAgree (st_board (gameOverEffect st))
              (st_placements (gameOverEffect st)) /\
            fleetIds (st_board (gameOverEffect st))).
  { intros pos st0 pos' Hn.
    assert (Hb : exists board placements,
               buildBoard rng pos = Ok (board, placements, pos') /\
               st0 = freshState board placements).
    { unfold newGame, resetGame in Hn.
      destruct Hn as [Hn|Hn];
        apply bind_Ok in Hn as ([[b pl] p] & Hb & [= <- <-]); eauto. }
    destruct Hb as (board & placements & Hb & ->). rewrite fresh_effect.
    exact (buildBoard_placementsAgree _ _ _ _ _ Hb). }
  induction 1 as [pos st pos' Hn | st r c st' _ IH Hh
                 | st pos st' pos' _ _ Hn].
  - apply (Hfresh pos st pos'). auto.
  - apply (stateLe_placementsAgree st); [| |exact IH].
    + exact (stateLe_trans _ _ _ (handleShot_stateLe _ _ _ _ Hh)
               (gameOverEffect_stateLe st')).
    + destruct (gameOverEffect_fields st') as (_ & -> & _).
      apply handleShot_weak in Hh
        as [[-> _] | (_ & cell & next & cs & js & _ & _ & _ & _ & Hpl & _)];
        [reflexivity | exact Hpl].
  - apply (Hfresh pos st' pos'). auto.
Qed.

(** ** What [getShipCells] returns, and in which order *)

Lemma scanRow_exact (board : Board) (sid : option string) (r : Z)
  (cs : list Z) (acc cells : list Coord) :
  scanRow board sid r cs acc = Ok cells ->
  cells = acc ++ filter (fun rc => hasId board sid rc = true)
                   ((fun c => (r, c)) <$> cs).
Proof.
  revert acc. induction cs as [|c cs IH]; cbn [scanRow]; intros acc Hs.
  - injection Hs as <-. rewrite app_nil_r. reflexivity.
  - apply bind_Ok in Hs as (cell & Hcell & Hs). apply IH in Hs as ->.
    assert (Hh : hasId board sid (r, c) = sameId (shipId cell) sid)
      by (unfold hasId; cbn [fst snd]; rewrite Hcell; reflexivity).
    rewrite fmap_cons. destruct (sameId (shipId cell) sid).
    + rewrite filter_cons_True by exact Hh. rewrite <- app_assoc. reflexivity.
    + rewrite filter_cons_False by (rewrite Hh; discriminate). reflexivity.
Qed.

Lemma scanRows_exact (board : Board) (sid : option string) (rs : list Z)
  (acc cells : list Coord) :
  scanRows board sid rs acc = Ok cells ->
  cells = acc ++ filter (fun rc => hasId board sid rc = true) (gridCoords rs).
Proof.
  revert acc. induction rs as [|r rs IH]; cbn [scanRows]; intros acc Hs.
  - injection Hs as <-. rewrite app_nil_r. reflexivity.
  - apply bind_Ok in Hs as (cells1 & Hrow & Hs).
    apply IH in Hs as ->. apply scanRow_exact in Hrow as ->.
    unfold gridCoords. rewrite bind_cons, filter_app, <- app_assoc.
    reflexivity.
Qed.

Lemma StronglySorted_seq (a n : nat) : StronglySorted lt (seq a n).
Proof.
  revert a. induction n as [|n IH]; intros a; cbn [seq]; constructor.
  - apply IH.
  - apply Forall_forall. intros x Hx%elem_of_seq. lia.
Qed.

Lemma StronglySorted_range (n : Z) : StronglySorted Z.lt (range n).
Proof.
  unfold range. apply (StronglySorted_fmap _ lt); [|apply StronglySorted_seq].
  intros x y Hxy. lia.
Qed.

Lemma StronglySorted_gridCoords (rs : list Z) :
  StronglySorted Z.lt rs -> StronglySorted scanLt (gridCoords rs).
Proof.
  induction 1 as [|r rs Hsorted IH Hall]; unfold gridCoords.
  - constructor.
  - rewrite bind_cons. apply StronglySorted_app. split; [|split].
    + intros a b (c & -> & _)%list_elem_of_fmap Hb.
      apply list_elem_of_bind in Hb as (r' & (c' & -> & _)%list_elem_of_fmap & Hr').
      left. cbn. rewrite Forall_forall in Hall. exact (Hall r' Hr').
    + apply (StronglySorted_fmap _ Z.lt); [|apply StronglySorted_range].
      intros x y Hxy. right. cbn. auto.
    + exact IH.
Qed.

Lemma StronglySorted_line (r0 c0 : Z) (dir : Dir) (n : Z) :
  StronglySorted scanLt (line r0 c0 dir n).
Proof.
  unfold line. apply (StronglySorted_fmap _ Z.lt); [|apply StronglySorted_range].
  intros x y Hxy. unfold scanLt, cellAt. destruct dir; cbn; lia.
Qed.

Lemma StronglySorted_filter {A : Type} (R : relation A) (P : A -> Prop)
  `{forall x, Decision (P x)} (l : list A) :
  StronglySorted R l -> StronglySorted R (filter P l).
Proof.
  induction 1 as [|x l Hsorted IH Hall]; [constructor|].
  rewrite filter_cons. destruct (decide (P x)); [|exact IH].
  constructor; [exact IH|]. apply Forall_forall.
  intros y [_ Hy]%list_elem_of_filter. rewrite Forall_forall in Hall. auto.
Qed.

Lemma StronglySorted_scanLt_NoDup (l : list Coord) :
  StronglySorted scanLt l -> NoDup l.
Proof.
  induction 1 as [|x l Hsorted IH Hall]; constructor; [|exact IH].
  intros Hin. rewrite Forall_forall in Hall.
  specialize (Hall x Hin). unfold scanLt in Hall. lia.
Qed.

Lemma elem_of_gridCoords (r c : Z) :
  (r, c) ∈ gridCoords (range GRID_SIZE) <->
  0 <= r < GRID_SIZE /\ 0 <= c < GRID_SIZE.
Proof.
  unfold gridCoords. rewrite list_elem_of_bind. split.
  - intros (r' & (c' & [= -> ->] & Hc%elem_of_range)%list_elem_of_fmap
            & Hr%elem_of_range). auto.
  - intros [Hr Hc]. exists r. split; [|apply elem_of_range; exact Hr].
    apply list_elem_of_fmap. exists c. split; [reflexivity|].
    apply elem_of_range. exact Hc.
Qed.

Lemma hasId_true (board : Board) (sid : option string) (rc : Coord) :
  hasId board sid rc = true <->
  exists x, getCell board rc.1 rc.2 = Ok x /\ shipId x = sid.
Proof.
  unfold hasId. destruct (getCell board rc.1 rc.2) as [x|e].
  - rewrite sameId_true. split; [eauto | intros (y & [= <-] & Hid); exact Hid].
  - split; [discriminate | intros (y & Hy & _); discriminate Hy].
Qed.

(** X10. In every state of a game and for every ship of the catalogue,
    [getShipCells] returns exactly the list recorded for the ship in
    [placements] when the board was built: the same cells in the same order,
    as many as the ship's size. *)
Theorem getShipCells_is_placement (rng : nat -> Z) (st : AppState)
  (ship : ShipSpec) :
  reachable rng st -> ship ∈ SHIPS ->
  exists coords,
    st_placements st !! id ship = Some coords /\
    getShipCells (st_board st) (Some (id ship)) = Ok coords /\
    Z.of_nat (length coords) = size ship /\
    contiguous coords.
Proof.
  intros Hreach Hin.
  destruct (reachable_placementsAgree rng st Hreach) as [Hagree _].
  pose proof (reachable_sessionInv _ _ Hreach) as ([Hwf _] & _).
  destruct (Hagree ship Hin) as (r0 & c0 & dir & Hlk & Hiff).
  exists (line r0 c0 dir (size ship)). split; [exact Hlk|].
  split; [|split; [|apply line_contiguous]].
  2:{ rewrite length_line. apply SHIPS_sizes in Hin. lia. }
  destruct (getShipCells_total (st_board st) (Some (id ship)) Hwf)
    as [cells Hcells].
  rewrite Hcells. f_equal. unfold getShipCells in Hcells.
  apply scanRows_exact in Hcells. cbn [app] in Hcells. subst cells.
  assert (Hanti : AntiSymm eq scanLt).
  { intros a b Hab Hba. unfold scanLt in *. lia. }
  pose proof (StronglySorted_gridCoords _ (StronglySorted_range GRID_SIZE))
    as Hgrid.
  apply (StronglySorted_unique scanLt).
  - apply StronglySorted_filter. exact Hgrid.
  - apply StronglySorted_line.
  - apply NoDup_Permutation.
    + apply NoDup_filter, StronglySorted_scanLt_NoDup, Hgrid.
    + apply NoDup_line.
    + intros [r c]. rewrite list_elem_of_filter, hasId_true, (Hiff r c).
      cbn [fst snd]. split; [tauto|]. intros (x & Hx & Hid).
      split; [eauto|]. apply elem_of_gridCoords.
      apply (wfBoard_getCell _ r c Hwf). eauto.
Qed.

Lemma getShipCells_is_placement_witness :
  exists st coords,
    demoGame = Ok st /\
    getShipCells (st_board st) (Some "E") = Ok coords /\
    st_placements st !! "E" = Some coords.
Proof.
  destruct demoGame as [st0|e] eqn:Hd; [|vm_compute in Hd; discriminate Hd].
  assert (Hreach0 : reachable (replay demoDraws) st0).
  { unfold demoGame in Hd.
    apply bind_Ok in Hd as ([s p] & Hn & [= <-]).
    exact (reach_new _ _ _ _ Hn). }
  destruct (getShipCells_is_placement _ st0
              {| id := "E"; size := 2; name := "Destructor" |} Hreach0)
    as (coords & Hpl & Hcells & _).
  - apply list_elem_of_In. cbn. auto 10.
  - exists st0, coords. split; [reflexivity|]. split; [exact Hcells | exact Hpl].
Defined.

(** ** What the counters count *)

Lemma allHitB_true (board : Board) (sid : option string) :
  allHitB board sid = true <-> allHit board sid.
Proof.
  unfold allHitB, allHit. rewrite forallb_forall. split.
  - intros Hall r c x Hx Hid.
    destruct (getCell_elem _ _ _ _ Hx) as (row & Hrow & Hin).
    apply list_elem_of_In in Hrow, Hin.
    pose proof (proj1 (forallb_forall _ row) (Hall row Hrow) x Hin) as Hv.
    cbv beta in Hv. apply sameId_true in Hid. rewrite Hid in Hv. exact Hv.
  - intros Hall row Hrow%list_elem_of_In. apply forallb_forall.
    intros x Hin%list_elem_of_In.
    destruct (elem_getCell board row x Hrow Hin) as (r & c & Hx).
    destruct (sameId (shipId x) sid) eqn:Hsame; [|reflexivity].
    apply sameId_true in Hsame. cbn. exact (Hall _ _ _ Hx Hsame).
Qed.

Lemma sum_list_with_one_change {A : Type} (f g : A -> nat) (l : list A)
  (a : A) (d : nat) :
  NoDup l -> a ∈ l -> g a = (f a + d)%nat ->
  (forall x, x ∈ l -> x <> a -> g x = f x) ->
  sum_list_with g l = (sum_list_with f l + d)%nat.
Proof.
  induction l as [|y l IH]; intros Hnd Hin Ha Hrest; [inversion Hin|].
  apply NoDup_cons in Hnd as [Hy Hnd]. cbn [sum_list_with].
  apply elem_of_cons in Hin as [<-|Hin].
  - rewrite Ha.
    assert (Hsame : sum_list_with g l = sum_list_with f l).
    { apply sum_list_with_ext2; [reflexivity|].
      intros i x x' Hx Hx'. assert (x' = x) as -> by congruence.
      apply Hrest; [apply elem_of_cons; right;
                    eapply list_elem_of_lookup_2; eassumption|].
      intros ->. apply Hy. eapply list_elem_of_lookup_2; eassumption. }
    lia.
  - rewrite (Hrest y) by (try apply elem_of_cons; auto; intros ->; auto).
    rewrite IH; [lia | assumption..|].
    intros x Hx. apply Hrest, elem_of_cons. auto.
Qed.

Lemma sum_list_with_same {A : Type} (f g : A -> nat) (l : list A) :
  (forall x, x ∈ l -> g x = f x) -> sum_list_with g l = sum_list_with f l.
Proof.
  intros Hall. apply sum_list_with_ext2; [reflexivity|].
  intros i x x' Hx Hx'. assert (x' = x) as -> by congruence.
  apply Hall. eapply list_elem_of_lookup_2; eassumption.
Qed.

Lemma SHIPS_NoDup : NoDup SHIPS.
Proof. exact (NoDup_fmap_1 id SHIPS SHIPS_ids_NoDup). Qed.

Lemma shot_allHit_other (board board' : Board) (r c : Z) (cell : Cell)
  (justSunk : bool) (sid : option string) :
  getCell board r c = Ok cell ->
  shape board' = shape board ->
  (forall r' c' x, getCell board r' c' = Ok x ->
     getCell board' r' c' = Ok (shotCell (r, c) cell justSunk (r', c') x)) ->
  sid <> shipId cell ->
  (allHit board' sid <-> allHit board sid).
Proof.
  intros Hcell Hs Hcells Hne. split.
  - intros Hall r' c' x Hx Hid.
    pose proof (Hall _ _ _ (Hcells _ _ _ Hx) Hid) as Hh. cbn in Hh.
    destruct (decide ((r', c') = (r, c))) as [[= -> ->]|_]; [|exact Hh].
    exfalso. apply Hne. congruence.
  - intros Hall r' c' x' Hx' Hid.
    destruct (shape_getCell _ board r' c' x' Hs Hx') as [x Hx].
    pose proof (Hcells _ _ _ Hx) as Hx2.
    assert (x' = shotCell (r, c) cell justSunk (r', c') x) as -> by congruence.
    cbn in Hid |- *. rewrite (Hall _ _ _ Hx Hid).
    destruct (decide _); reflexivity.
Qed.

Lemma shot_sunkShips (board board' : Board) (r c : Z) (cell : Cell)
  (justSunk : bool) :
  gameInv board -> fleetIds board ->
  getCell board r c = Ok cell -> hit cell = false ->
  shape board' = shape board ->
  (forall r' c' x, getCell board r' c' = Ok x ->
     getCell board' r' c' = Ok (shotCell (r, c) cell justSunk (r', c') x)) ->
  (justSunk = true <->
   hasShip cell = true /\ falsy (shipId cell) = false /\
   allHit board' (shipId cell)) ->
  sunkShips board' = (sunkShips board + (if justSunk then 1 else 0))%nat.
Proof.
  intros [_ Hgi] Hids Hcell Hhit Hs Hcells Hjs. unfold sunkShips.
  assert (Hother : forall s, Some (id s) <> shipId cell ->
            allHitB board' (Some (id s)) = allHitB board (Some (id s))).
  { intros s Hne. apply bool_eq_iff. rewrite !allHitB_true.
    exact (shot_allHit_other _ _ r c cell justSunk _ Hcell Hs Hcells Hne). }
  destruct (hasShip cell) eqn:Hship.
  - destruct (Hids _ _ _ Hcell Hship) as (s0 & Hin0 & Hid0).
    destruct (Hgi _ _ _ Hcell) as (Hf & _).
    apply (sum_list_with_one_change _ _ SHIPS s0);
      [exact SHIPS_NoDup | exact Hin0 | |].
    + assert (Hb : allHitB board (Some (id s0)) = false).
      { destruct (allHitB board (Some (id s0))) eqn:Hb; [|reflexivity].
        apply allHitB_true in Hb. rewrite <- Hhit. symmetry.
        apply (Hb _ _ _ Hcell). exact Hid0. }
      assert (Hb' : allHitB board' (Some (id s0)) = justSunk).
      { apply bool_eq_iff. rewrite allHitB_true, Hjs, <- Hid0. tauto. }
      rewrite Hb, Hb'. reflexivity.
    + intros s Hin Hne. rewrite Hother; [reflexivity|].
      rewrite Hid0. intros [= Heq]. apply Hne.
      exact (SHIPS_id_inj s s0 Hin Hin0 Heq).
  - assert (justSunk = false) as ->.
    { destruct justSunk; [|reflexivity].
      destruct (proj1 Hjs eq_refl) as [Hx _]. discriminate Hx. }
    rewrite Nat.add_0_r. apply sum_list_with_same. intros s _.
    rewrite Hother; [reflexivity|].
    destruct (Hgi _ _ _ Hcell) as (_ & Hnone & _).
    rewrite (Hnone Hship). discriminate.
Qed.

Lemma shotCell_split (target : Coord) (tcell : Cell) (justSunk : bool)
  (rc : Coord) (x : Cell) (v : Cell -> nat) :
  (forall y, v (setSunk y) = v y) ->
  v (shotCell target tcell justSunk rc x) =
  v (if decide (rc = target) then setHit x else x).
Proof.
  intros Hv.
  assert (Heq : shotCell target tcell justSunk rc x =
                (if justSunk && sameId (shipId x) (shipId tcell)
                 then setSunk (if decide (rc = target) then setHit x else x)
                 else if decide (rc = target) then setHit x else x)).
  { unfold shotCell.
    destruct (justSunk && sameId (shipId x) (shipId tcell)),
             (decide (rc = target)); destruct x; reflexivity. }
  rewrite Heq.
  destruct (justSunk && sameId (shipId x) (shipId tcell)); [apply Hv | reflexivity].
Qed.

Lemma shot_countWith (v : Cell -> nat) (board board' : Board) (r c : Z)
  (cell : Cell) (justSunk : bool) :
  (forall y, v (setSunk y) = v y) ->
  getCell board r c = Ok cell ->
  shape board' = shape board ->
  (forall r' c' x, getCell board r' c' = Ok x ->
     getCell board' r' c' = Ok (shotCell (r, c) cell justSunk (r', c') x)) ->
  (countWith v board' + v cell = countWith v board + v (setHit cell))%nat.
Proof.
  intros Hv Hcell Hs Hcells.
  destruct (updCell_total board r c setHit cell Hcell) as [next Hnext].
  pose proof (updCell_updatedAt _ _ _ _ _ Hnext) as [Hsn Hun].
  apply updCell_Ok in Hnext as (row & old & Hrow & Hold & ->).
  assert (old = cell) as ->.
  { assert (getCell board r c = Ok old) by (apply getCell_Ok; eauto).
    congruence. }
  rewrite <- (countWith_putCell v _ _ _ _ _ (setHit cell) Hrow Hold).
  f_equal. apply countWith_ext; [congruence|].
  intros r' c' y y' Hy Hy'.
  destruct (shape_getCell _ board r' c' y Hsn Hy) as [x Hx].
  rewrite (Hun _ _ _ Hx) in Hy. rewrite (Hcells _ _ _ Hx) in Hy'.
  injection Hy as <-. injection Hy' as <-.
  rewrite (shotCell_split _ _ _ _ _ v Hv).
  destruct (decide ((r', c') = (r, c))) as [Heq|Hne].
  - rewrite decide_True by (apply list_elem_of_singleton; exact Heq).
    reflexivity.
  - rewrite decide_False by (intros ?%list_elem_of_singleton; contradiction).
    reflexivity.
Qed.

Lemma fresh_countInv (rng : nat -> Z) (pos : nat) (board : Board)
  (placements : gmap string (list Coord)) (pos' : nat) :
  buildBoard rng pos = Ok (board, placements, pos') ->
  countInv (freshState board placements).
Proof.
  intros Hb.
  destruct (buildBoard_fleet_layout_aux rng pos board placements pos' Hb)
    as (_ & _ & Hcells).
  assert (Hhit : forall r c x, getCell board r c = Ok x -> hit x = false).
  { intros r c x Hx. destruct (Hcells _ _ _ Hx) as [-> | (s & _ & ->)];
      reflexivity. }
  destruct (buildBoard_placementsAgree _ _ _ _ _ Hb) as [Hagree _].
  unfold countInv. cbn [freshState st_sunk st_shots st_board]. split.
  - unfold sunkShips. rewrite sum_list_with_zero; [reflexivity|].
    intros s Hin. destruct (allHitB board (Some (id s))) eqn:Hall; [|reflexivity].
    exfalso. apply allHitB_true in Hall.
    destruct (Hagree s Hin) as (r0 & c0 & dir & _ & Hiff).
    destruct (proj1 (Hiff (cellAt r0 c0 dir 0).1 (cellAt r0 c0 dir 0).2))
      as (x & Hx & Hid).
    { destruct (cellAt r0 c0 dir 0) as [r c] eqn:Hk. cbn [fst snd].
      rewrite <- Hk. apply list_elem_of_fmap. exists 0. split; [reflexivity|].
      apply elem_of_range. apply SHIPS_sizes in Hin. lia. }
    pose proof (Hall _ _ _ Hx Hid). rewrite (Hhit _ _ _ Hx) in *. discriminate.
  - unfold countShots. rewrite countWith_zero; [reflexivity|].
    intros r c x Hx. unfold shotValue. rewrite (Hhit _ _ _ Hx). reflexivity.
Qed.

Lemma reachable_countInv (rng : nat -> Z) (st : AppState) :
  reachable rng st -> countInv st.
Proof.
  assert (Hfresh : forall pos st pos',
            newGame rng pos = Ok (st, pos') \/ resetGame rng pos = Ok (st, pos') ->
            countInv (gameOverEffect st)).
  { intros pos st0 pos' Hn.
    assert (Hb : exists board placements,
               buildBoard rng pos = Ok (board, placements, pos') /\
               st0 = freshState board placements).
    { unfold newGame, resetGame in Hn.
      destruct Hn as [Hn|Hn];
        apply bind_Ok in Hn as ([[b pl] p] & Hb & [= <- <-]); eauto. }
    destruct Hb as (board & placements & Hb & ->). rewrite fresh_effect.
    exact (fresh_countInv _ _ _ _ _ Hb). }
  induction 1 as [pos st pos' Hn | st r c st' Hreach IH Hh
                 | st pos st' pos' _ _ Hn].
  - apply (Hfresh pos st pos'). auto.
  - pose proof (reachable_sessionInv _ _ Hreach) as Hinv.
    destruct (reachable_placementsAgree _ _ Hreach) as [_ Hids].
    pose proof Hh as Hh0.
    apply handleShot_weak in Hh
      as [[-> _] | (Hg & cell & _ & _ & _ & Hcell & Hhit & _)].
    { rewrite (sessionInv_effect_id st Hinv). exact IH. }
    destruct Hinv as (Hgi & _).
    destruct (handleShot_accepted st r c cell (proj1 Hgi) Hg Hcell Hhit)
      as (s & next & js & Hs & _ & _ & Hjs & Hshape & Hcells & _ & Hshots & _
          & Hsunk & _).
    assert (s = st') as -> by congruence.
    destruct (gameOverEffect_fields st') as (Hb & _ & Hsh & _ & Hsk & _).
    destruct IH as [IHsunk IHshots].
    unfold countInv. rewrite Hb, Hsh, Hsk. split.
    + rewrite (shot_sunkShips _ _ r c cell js Hgi Hids Hcell Hhit Hshape
                 Hcells Hjs), Hsunk, IHsunk.
      destruct js; lia.
    + pose proof (shot_countWith shotValue _ _ r c cell js
                    (fun y => eq_refl) Hcell Hshape Hcells) as Hcnt.
      assert (Hv0 : shotValue cell = 0%nat)
        by (unfold shotValue; rewrite Hhit; reflexivity).
      assert (Hv1 : shotValue (setHit cell) = 1%nat) by reflexivity.
      rewrite Hv0, Hv1 in Hcnt. unfold countShots.
      rewrite Hshots, IHshots. unfold countShots. lia.
  - apply (Hfresh pos st' pos'). auto.
Qed.

(** The demonstration game, played to its end, is a game that is over. *)
Lemma demoFinal_won :
  exists st,
    demoFinal = Ok st /\ reachable (replay demoDraws) st /\
    st_gameOver st = true.
Proof.
  unfold demoFinal.
  destruct demoGame as [st0|e] eqn:Hd; [|vm_compute in Hd; discriminate Hd].
  cbn [bind].
  assert (Hreach0 : reachable (replay demoDraws) st0).
  { unfold demoGame in Hd.
    apply bind_Ok in Hd as ([s p] & Hn & [= <-]).
    exact (reach_new _ _ _ _ Hn). }
  destruct (run st0 demoShots) as [st|e] eqn:Hr.
  - exists st. split; [reflexivity|].
    split; [exact (run_reachable _ _ _ _ Hreach0 Hr)|].
    revert Hr. vm_compute in Hd. injection Hd as <-.
    vm_compute. intros [= <-]. reflexivity.
  - exfalso. revert Hr. vm_compute in Hd. injection Hd as <-.
    vm_compute. discriminate.
Qed.

Lemma countWith_mono (v w : Cell -> nat) (board : Board) :
  (forall x, (v x <= w x)%nat) -> (countWith v board <= countWith w board)%nat.
Proof.
  intros Hle. unfold countWith.
  apply (sum_list_with_le (sum_list_with v) (sum_list_with w)).
  intros row. apply (sum_list_with_le v w), Hle.
Qed.

Lemma countWith_same (v w : Cell -> nat) (board : Board) :
  (forall r c x, getCell board r c = Ok x -> v x = w x) ->
  countWith v board = countWith w board.
Proof.
  intros Hall. unfold countWith. apply sum_list_with_same. intros row Hrow.
  apply sum_list_with_same. intros x Hx.
  destruct (elem_getCell board row x Hrow Hx) as (r & c & Hg).
  exact (Hall _ _ _ Hg).
Qed.

Lemma countWith_add (v w : Cell -> nat) (board : Board) :
  countWith (fun x => (v x + w x)%nat) board =
  (countWith v board + countWith w board)%nat.
Proof.
  unfold countWith. induction board as [|row board IH]; [reflexivity|].
  cbn [sum_list_with]. rewrite IH.
  assert (Hrow : sum_list_with (fun x => (v x + w x)%nat) row =
                 (sum_list_with v row + sum_list_with w row)%nat).
  { induction row as [|x row IHr]; [reflexivity|].
    cbn [sum_list_with]. rewrite IHr. lia. }
  rewrite Hrow. lia.
Qed.

Lemma countWith_cells (board : Board) :
  wfBoard board -> countWith (fun _ => 1%nat) board = 100%nat.
Proof.
  assert (Hrow : forall row : list Cell,
            sum_list_with (fun _ : Cell => 1%nat) row = length row).
  { induction row as [|x row IHr]; [reflexivity|].
    cbn [sum_list_with length]. rewrite IHr. reflexivity. }
  assert (Hsum : forall b : Board,
            countWith (fun _ => 1%nat) b = sum_list (shape b)).
  { unfold countWith, shape. induction b as [|row b IH]; [reflexivity|].
    rewrite fmap_cons. cbn [sum_list_with]. rewrite IH, Hrow. reflexivity. }
  intros Hwf. rewrite Hsum, Hwf. reflexivity.
Qed.

(** X11. In every state of a game the counter [sunk] is the number of ships
    of the catalogue all of whose cells are hit, between 0 and 5; and the
    game is over exactly when that number is 5, which is exactly when every
    ship cell of the board is hit and marked sunk: "you win when you sink all
    the ships". *)
Theorem win_iff_fleet_sunk (rng : nat -> Z) (st : AppState) :
  reachable rng st ->
  st_sunk st = Z.of_nat (sunkShips (st_board st)) /\
  0 <= st_sunk st <= 5 /\
  (st_gameOver st = true <-> st_sunk st = 5) /\
  (st_gameOver st = true <->
   forall r c x, getCell (st_board st) r c = Ok x -> hasShip x = true ->
                 hit x = true /\ sunk x = true).
Proof.
  intros Hreach.
  pose proof (reachable_sessionInv _ _ Hreach) as ([Hwf Hgi] & Hc17 & Hhits & Hover).
  destruct (reachable_placementsAgree _ _ Hreach) as [_ Hids].
  destruct (reachable_countInv _ _ Hreach) as [Hsunk _].
  set (b := st_board st) in *.
  assert (Hle : forall s : ShipSpec,
            ((if allHitB b (Some (id s)) then 1 else 0) <= 1)%nat)
    by (intros s; destruct (allHitB b (Some (id s))); lia).
  assert (Hfive : sum_list_with (fun _ : ShipSpec => 1%nat) SHIPS = 5%nat)
    by reflexivity.
  pose proof (sum_list_with_le _ (fun _ => 1%nat) SHIPS Hle) as [Hbound Hfull].
  fold (sunkShips b) in Hbound, Hfull. rewrite Hfive in Hbound, Hfull.
  (* all ship cells hit, in three equivalent forms *)
  assert (Hcells_hits :
            (forall r c x, getCell b r c = Ok x -> hasShip x = true ->
                           hit x = true) <-> st_hits st = 17).
  { split.
    - intros Hall. rewrite <- Hhits.
      assert (countHits b = countShips b); [|lia].
      apply countWith_same. intros r c x Hx. unfold hitValue, shipValue.
      destruct (hasShip x) eqn:Hs; [|reflexivity].
      rewrite (Hall _ _ _ Hx Hs). reflexivity.
    - intros H17 r c x Hx Hs. apply (countHits_full b r c x); [lia|assumption..]. }
  assert (Hcells_ships :
            (forall r c x, getCell b r c = Ok x -> hasShip x = true ->
                           hit x = true) <->
            (forall s, s ∈ SHIPS -> allHit b (Some (id s)))).
  { split.
    - intros Hall s Hin r c x Hx Hid. apply (Hall _ _ _ Hx).
      destruct (hasShip x) eqn:Hs; [reflexivity|].
      destruct (Hgi _ _ _ Hx) as (_ & Hnone & _).
      rewrite (Hnone Hs) in Hid. discriminate Hid.
    - intros Hall r c x Hx Hs.
      destruct (Hids _ _ _ Hx Hs) as (s & Hin & Hid).
      exact (Hall s Hin _ _ _ Hx Hid). }
  assert (Hships_five :
            (forall s, s ∈ SHIPS -> allHit b (Some (id s))) <->
            sunkShips b = 5%nat).
  { split.
    - intros Hall. unfold sunkShips. rewrite <- Hfive.
      apply sum_list_with_same. intros s Hin.
      rewrite (proj2 (allHitB_true b _) (Hall s Hin)). reflexivity.
    - intros H5 s Hin. apply allHitB_true.
      pose proof (Hfull H5 s Hin) as Hs.
      destruct (allHitB b (Some (id s))); [reflexivity | discriminate Hs]. }
  split; [exact Hsunk|]. split; [lia|]. split.
  - rewrite Hover, <- Hcells_hits, Hcells_ships, Hships_five. lia.
  - rewrite Hover, <- Hcells_hits. split.
    + intros Hall r c x Hx Hs. split; [exact (Hall _ _ _ Hx Hs)|].
      destruct (Hgi _ _ _ Hx) as (_ & _ & Hiff). apply Hiff.
      split; [exact Hs|].
      destruct (Hids _ _ _ Hx Hs) as (s & Hin & Hid). rewrite Hid.
      exact (proj1 Hcells_ships Hall s Hin).
    + intros Hall r c x Hx Hs. exact (proj1 (Hall _ _ _ Hx Hs)).
Qed.

Lemma win_iff_fleet_sunk_witness :
  exists st, demoFinal = Ok st /\ st_gameOver st = true /\ st_sunk st = 5.
Proof.
  destruct demoFinal_won as (st & Hf & Hreach & Hg).
  exists st. split; [exact Hf|]. split; [exact Hg|].
  exact (proj1 (proj1 (proj2 (proj2 (win_iff_fleet_sunk _ st Hreach)))) Hg).
Defined.

(** X12. In every state of a game [shots] is the number of cells that were
    shot and [hits] the number of those that carry a ship; hence
    [hits <= shots <= 100], at most 83 shots are misses, and a player who
    has shot all 100 cells has won. *)
Theorem shots_count_cells (rng : nat -> Z) (st : AppState) :
  reachable rng st ->
  st_shots st = Z.of_nat (countShots (st_board st)) /\
  st_hits st = Z.of_nat (countHits (st_board st)) /\
  0 <= st_hits st <= st_shots st /\
  st_shots st <= 100 /\
  st_shots st - st_hits st <= 83 /\
  (st_shots st = 100 -> st_gameOver st = true).
Proof.
  intros Hreach.
  pose proof (reachable_sessionInv _ _ Hreach) as ([Hwf Hgi] & Hc17 & Hhits & Hover).
  destruct (reachable_countInv _ _ Hreach) as [_ Hshots].
  set (b := st_board st) in *.
  set (missValue := fun x : Cell =>
                      if hit x && negb (hasShip x) then 1%nat else 0%nat).
  set (waterValue := fun x : Cell => if hasShip x then 0%nat else 1%nat).
  assert (Hsplit : countShots b = (countHits b + countWith missValue b)%nat).
  { unfold countShots, countHits. rewrite <- countWith_add.
    apply countWith_same. intros r c x _. unfold shotValue, hitValue, missValue.
    destruct (hit x), (hasShip x); reflexivity. }
  assert (Hwater : (countShips b + countWith waterValue b)%nat = 100%nat).
  { unfold countShips. rewrite <- countWith_add, <- (countWith_cells b Hwf).
    apply countWith_same. intros r c x _. unfold shipValue, waterValue.
    destruct (hasShip x); reflexivity. }
  assert (Hmiss : (countWith missValue b <= countWith waterValue b)%nat).
  { apply countWith_mono. intros x. unfold missValue, waterValue.
    destruct (hit x), (hasShip x); cbn; lia. }
  pose proof (countHits_le b) as Hle.
  split; [exact Hshots|]. split; [lia|].
  split; [lia|]. split; [lia|]. split; [lia|].
  intros H100. apply Hover. lia.
Qed.

Lemma shots_count_cells_witness :
  exists st, demoFinal = Ok st /\ st_shots st <= 100.
Proof.
  destruct demoFinal_won as (st & Hf & Hreach & _).
  exists st. split; [exact Hf|].
  exact (proj1 (proj2 (proj2 (proj2 (shots_count_cells _ st Hreach))))).
Defined.

(** ** The first state of src/App.jsx *)

Lemma legacy_build_eq (rng : nat -> Z) (pos : nat) :
  AppV1.buildBoard rng pos = buildBoard rng pos.
Proof. apply V1_placeShips_eq. Qed.

(** X13. The first state of src/App.jsx takes its board from one call of
    [buildBoard] and its placements from a second one: the board is a
    regular one (10x10, 17 ship cells, counters at zero) and the placements
    are those of a regular board, but not necessarily of this one; there are
    draws for which a recorded placement lies on cells of another ship.  The
    refactored component builds both in one call. *)
Theorem legacy_first_state :
  (forall (rng : nat -> Z) (pos : nat) (st : AppState) (pos' : nat),
     AppV1.newGame rng pos = Ok (st, pos') ->
     (wfBoard (st_board st) /\ countShips (st_board st) = 17%nat /\
      st_shots st = 0 /\ st_hits st = 0 /\ st_sunk st = 0 /\
      st_gameOver st = false) /\
     exists board2 placements1 pos1,
       buildBoard rng pos = Ok (st_board st, placements1, pos1) /\
       buildBoard rng pos1 = Ok (board2, st_placements st, pos') /\
       placementsAgree (st_board st) placements1 /\
       placementsAgree board2 (st_placements st)) /\
  (exists st0 pos0,
     AppV1.newGame (replay twoBoardsDraws) 0 = Ok (st0, pos0) /\
     ~ placedOn (st_board st0) (st_placements st0)).
Proof.
  split.
  - intros rng pos st pos' Hn. unfold AppV1.newGame in Hn.
    pose proof (legacy_build_eq rng) as Hbeq. rewrite Hbeq in Hn.
    apply bind_Ok in Hn as ([[b1 pl1] p1] & Hb1 & Hn). rewrite Hbeq in Hn.
    apply bind_Ok in Hn as ([[b2 pl2] p2] & Hb2 & [= <- <-]).
    cbn [freshState st_board st_placements st_shots st_hits st_sunk
           st_gameOver].
    destruct (buildBoard_fleet_layout_aux _ _ _ _ _ Hb1) as (Hwf & Hcnt & _).
    split; [auto 10|].
    exists b2, pl1, p1. split; [exact Hb1|]. split; [exact Hb2|].
    split; [exact (proj1 (buildBoard_placementsAgree _ _ _ _ _ Hb1))
           | exact (proj1 (buildBoard_placementsAgree _ _ _ _ _ Hb2))].
  - destruct (AppV1.newGame (replay twoBoardsDraws) 0) as [[st0 p0]|e] eqn:Hn0;
      [|vm_compute in Hn0; discriminate Hn0].
    exists st0, p0. split; [reflexivity|]. intros Hon.
    assert (Hlk : st_placements st0 !! "A" =
                  Some [(0, 0); (1, 0); (2, 0); (3, 0); (4, 0)]).
    { vm_compute in Hn0. injection Hn0 as <- _. vm_compute. reflexivity. }
    destruct (Hon "A" _ Hlk (1, 0)) as (x & Hx & _ & Hid).
    { apply list_elem_of_In. cbn. auto. }
    cbn [fst snd] in Hx.
    assert (Hb : getCell (st_board st0) 1 0 = Ok (markShip "B" emptyCell)).
    { vm_compute in Hn0. injection Hn0 as <- _. vm_compute. reflexivity. }
    rewrite Hb in Hx. injection Hx as <-. discriminate Hid.
Qed.

Lemma legacy_first_state_witness :
  exists st pos',
    AppV1.newGame (replay twoBoardsDraws) 0 = Ok (st, pos') /\
    countShips (st_board st) = 17%nat.
Proof.
  destruct (AppV1.newGame (replay twoBoardsDraws) 0) as [[st0 p0]|e] eqn:Hn0;
    [|vm_compute in Hn0; discriminate Hn0].
  exists st0, p0. split; [reflexivity|].
  exact (proj1 (proj2 (proj1 (proj1 legacy_first_state _ _ _ _ Hn0)))).
Defined.

(** ** The cheat mode *)

(** X14. Toggling the cheat mode touches nothing but [reveal], and it
    commutes with a shot and with the effect: a game played with the
    checkbox clicked at any moments goes through the same boards and
    counters as the same game played without. *)
Theorem reveal_does_not_affect_game (st : AppState) (checked : bool) (r c : Z) :
  handleShot (setReveal st checked) r c =
    (let* st' := handleShot st r c in Ok (setReveal st' checked)) /\
  gameOverEffect (setReveal st checked) = setReveal (gameOverEffect st) checked /\
  st_board (setReveal st checked) = st_board st /\
  st_placements (setReveal st checked) = st_placements st /\
  st_shots (setReveal st checked) = st_shots st /\
  st_hits (setReveal st checked) = st_hits st /\
  st_sunk (setReveal st checked) = st_sunk st /\
  st_gameOver (setReveal st checked) = st_gameOver st.
Proof.
  split; [|split; [|cbn; auto 10]].
  - unfold handleShot, applyShot. cbn [setReveal st_gameOver st_board st_shots
      st_hits st_sunk st_placements st_reveal].
    destruct (st_gameOver st) eqn:Hg; [reflexivity|].
    destruct (getCell (st_board st) r c) as [cell|e]; [|reflexivity].
    cbn [bind]. destruct (hit cell); [reflexivity|].
    destruct (updCell (cloneBoard (st_board st)) r c setHit) as [next|e];
      [|reflexivity].
    cbn [bind]. destruct (getCell next r c) as [cell'|e]; [|reflexivity].
    cbn [bind].
    destruct (hasShip cell);
      [destruct (updateAfterHit (st_sunk st) next (shipId cell'))
         as [[[b' n'] js]|e]|]; reflexivity.
  - unfold gameOverEffect, gameOverEffectWith.
    cbn [setReveal st_hits]. destruct (totalShipCells =? 0); [reflexivity|].
    destruct (st_hits st <? totalShipCells); reflexivity.
Qed.
